(** * Matching engine of the company-profile API (src/api/server.ts)

    A shallow embedding of the canonicalizer, the feature builder, the two
    scorers and the [/match] request handler, followed by the properties the
    specification states about them.

    Conventions.
    - A JavaScript string is a Rocq [string]; the builtins below ([trim],
      [toLowerCase], the regular expressions) are written for code units
      below 128, where they coincide with the ECMAScript definitions.
    - A JavaScript number is a rational [Q].  The scorers only add the
      constants 5, 4, 3, 2, 1.5, 1 and 0.5 (exact in binary64), divide two
      array lengths once and compare the quotient with a decimal constant;
      a correctly rounded quotient of two integers below 2^50 compares with
      the binary64 value of 0.8, 0.6, 0.5, 0.4, 0.3 or 0.25 exactly as the
      rational quotient compares with the decimal, and the same holds for
      [1 - d/m] against 0.9 and 0.8.  The pagination of the handler computes
      with [page] and [perPage] as the client sent them, so there every
      operation is followed by its rounding to binary64 ([round64]).
    - What the platform or a library supplies ([URL], [localeCompare],
      MiniSearch, Fuse) is a parameter of the development. *)

From Stdlib Require Import String Ascii List Bool Arith ZArith QArith Qpower Qminmax Qround Lia.
From Stdlib Require Import Permutation Sorted OrderedTypeEx Lqa.
Import ListNotations.

Open Scope string_scope.
Open Scope list_scope.
Open Scope nat_scope.

(** ** ECMAScript string builtins used by the source *)

Module JS.

Definition code (c : ascii) : nat := nat_of_ascii c.

Definition is_upper (c : ascii) : bool := (65 <=? code c) && (code c <=? 90).
Definition is_lower (c : ascii) : bool := (97 <=? code c) && (code c <=? 122).
Definition is_digit (c : ascii) : bool := (48 <=? code c) && (code c <=? 57).
Definition is_alpha (c : ascii) : bool := is_upper c || is_lower c.
Definition is_alnum (c : ascii) : bool := is_alpha c || is_digit c.

(** WhiteSpace and LineTerminator code units below 128: TAB, LF, VT, FF, CR, SP. *)
Definition is_ws (c : ascii) : bool :=
  ((9 <=? code c) && (code c <=? 13)) || Nat.eqb (code c) 32.

Definition lower_char (c : ascii) : ascii :=
  if is_upper c then ascii_of_nat (code c + 32) else c.

Fixpoint map_str (f : ascii -> ascii) (s : string) : string :=
  match s with
  | EmptyString => EmptyString
  | String c s' => String (f c) (map_str f s')
  end.

Fixpoint filter_str (p : ascii -> bool) (s : string) : string :=
  match s with
  | EmptyString => EmptyString
  | String c s' => if p c then String c (filter_str p s') else filter_str p s'
  end.

Fixpoint forall_str (p : ascii -> bool) (s : string) : bool :=
  match s with
  | EmptyString => true
  | String c s' => p c && forall_str p s'
  end.

(** [String.prototype.toLowerCase] *)
Definition toLowerCase (s : string) : string := map_str lower_char s.

Fixpoint trimStart (s : string) : string :=
  match s with
  | EmptyString => EmptyString
  | String c s' => if is_ws c then trimStart s' else s
  end.

Fixpoint trimEnd (s : string) : string :=
  match s with
  | EmptyString => EmptyString
  | String c s' =>
      match trimEnd s' with
      | EmptyString => if is_ws c then EmptyString else String c EmptyString
      | t => String c t
      end
  end.

(** [String.prototype.trim] *)
Definition trim (s : string) : string := trimEnd (trimStart s).

(** A string is falsy exactly when it is empty. *)
Definition truthy (s : string) : bool := negb (String.eqb s "").

(** An optional string field: [undefined] and [""] are both falsy. *)
Definition truthy_opt (o : option string) : bool :=
  match o with Some s => truthy s | None => false end.

(** [o || ''] *)
Definition or_empty (o : option string) : string :=
  match o with Some s => s | None => "" end.

(** [s.startsWith(p)], returning what follows the prefix. *)
Fixpoint strip_prefix (p s : string) : option string :=
  match p, s with
  | EmptyString, _ => Some s
  | String a p', String b s' => if Ascii.eqb a b then strip_prefix p' s' else None
  | String _ _, EmptyString => None
  end.

(** The same under the [i] flag, for a lower-case pattern [p]. *)
Fixpoint strip_prefix_ci (p s : string) : option string :=
  match p, s with
  | EmptyString, _ => Some s
  | String a p', String b s' =>
      if Ascii.eqb a (lower_char b) then strip_prefix_ci p' s' else None
  | String _ _, EmptyString => None
  end.

Definition startsWith (p s : string) : bool :=
  match strip_prefix p s with Some _ => true | None => false end.

(** [s.includes(sub)] *)
Fixpoint includes (sub s : string) : bool :=
  startsWith sub s ||
  match s with
  | EmptyString => false
  | String _ s' => includes sub s'
  end.

(** [s.replace(/^p/, r)] for a literal [p] *)
Definition replace_prefix (p r s : string) : string :=
  match strip_prefix p s with Some rest => (r ++ rest)%string | None => s end.

(** [s.replace(/^p/i, r)] for a literal lower-case [p] *)
Definition replace_prefix_ci (p r s : string) : string :=
  match strip_prefix_ci p s with Some rest => (r ++ rest)%string | None => s end.

(** [s.replace(/p/i, r)]: the first occurrence of the literal [p], any case. *)
Fixpoint replace_first_ci (p r s : string) : string :=
  match strip_prefix_ci p s with
  | Some rest => (r ++ rest)%string
  | None =>
      match s with
      | EmptyString => EmptyString
      | String c s' => String c (replace_first_ci p r s')
      end
  end.

(** [s.endsWith("/")] *)
Fixpoint ends_with_char (d : ascii) (s : string) : bool :=
  match s with
  | EmptyString => false
  | String c EmptyString => Ascii.eqb c d
  | String _ s' => ends_with_char d s'
  end.

(** [s.slice(0, -1)] *)
Fixpoint drop_last (s : string) : string :=
  match s with
  | EmptyString => EmptyString
  | String _ EmptyString => EmptyString
  | String c s' => String c (drop_last s')
  end.

(** [s.replace(/\/$/, '')] *)
Definition strip_trailing_slash (s : string) : string :=
  if ends_with_char "/" s then drop_last s else s.

(** [s.slice(-n)] for a positive [n]: the last [n] code units, or all of [s]. *)
Definition slice_last (n : nat) (s : string) : string :=
  substring (String.length s - n) n s.

(** [s.split(sep)] for a one-character separator; [''.split(sep)] is [['']]. *)
Fixpoint split_on (sep : ascii -> bool) (s : string) : list string :=
  match s with
  | EmptyString => [EmptyString]
  | String c s' =>
      if sep c then EmptyString :: split_on sep s'
      else match split_on sep s' with
           | h :: t => String c h :: t
           | [] => [String c EmptyString]
           end
  end.

Definition split_char (d : ascii) (s : string) : list string :=
  split_on (Ascii.eqb d) s.

(** [parts.join(sep)] *)
Fixpoint join (sep : string) (parts : list string) : string :=
  match parts with
  | [] => EmptyString
  | [p] => p
  | p :: rest => (p ++ sep ++ join sep rest)%string
  end.

(** [s.replace(/[class]+/g, r)]: every maximal run of characters of the class
    becomes one copy of [r]. *)
Fixpoint replace_runs (cls : ascii -> bool) (r : string) (s : string) : string :=
  match s with
  | EmptyString => EmptyString
  | String c s' =>
      if cls c then
        match s' with
        | String c' _ => if cls c' then replace_runs cls r s' else (r ++ replace_runs cls r s')%string
        | EmptyString => r
        end
      else String c (replace_runs cls r s')
  end.

(** [s.split(/[class]+/)]: the fields between maximal runs of the class.  The
    first and the last field may be empty, an inner one never is. *)
Definition split_runs (cls : ascii -> bool) (s : string) : list string :=
  match split_on cls s with
  | [] => []
  | [f] => [f]
  | f :: rest =>
      f :: filter truthy (removelast rest) ++ [last rest EmptyString]
  end.

(** [xs || []] *)
Definition or_nil {A : Type} (o : option (list A)) : list A :=
  match o with Some l => l | None => [] end.

(** [xs.filter(Boolean)] on strings *)
Definition filter_Boolean (xs : list string) : list string := filter truthy xs.

(** [set.has(x)], [array.includes(x)] *)
Definition has (x : string) (xs : list string) : bool :=
  existsb (String.eqb x) xs.

(** [new Set(xs)]: the distinct elements in order of first occurrence. *)
Fixpoint new_Set (xs : list string) : list string :=
  match xs with
  | [] => []
  | x :: rest => x :: filter (fun y => negb (String.eqb x y)) (new_Set rest)
  end.

End JS.

Import JS.

(** ** The platform's [URL] class

    The source reads two components of a parsed URL, [hostname] and
    [pathname]; [new URL(s)] either yields them or throws. *)

Record URL : Type := mkURL { hostname : string; pathname : string }.

(** [new_URL s] is [None] when [new URL(s)] throws a [TypeError]. *)
Class URLParser : Type := new_URL : string -> option URL.

(** *** An executable instance for hierarchical http(s) URLs

    The instance follows the basic URL parser of the WHATWG URL Standard for
    the special schemes http, https, ws, wss and ftp: leading and trailing C0
    controls and spaces are stripped, tabs and newlines removed, the scheme
    lower-cased, any run of slashes after the colon skipped, credentials and
    port recognised and dropped, the host lower-cased and checked for
    forbidden code points, and the path split into segments with dot
    segments resolved and the path percent-encode set applied.

    Outside the instance: the [file] scheme and non-special schemes,
    bracketed IPv6 hosts, hosts with a percent sign or an [xn--] label, and
    hosts that end in a number (IPv4 notation).  The instance reports these
    as failures; no statement below evaluates it on one of them. *)

Module WHATWG.

Definition is_c0_or_space (c : ascii) : bool := code c <=? 32.
Definition is_tab_or_newline (c : ascii) : bool :=
  Nat.eqb (code c) 9 || Nat.eqb (code c) 10 || Nat.eqb (code c) 13.

Fixpoint strip_leading (s : string) : string :=
  match s with
  | EmptyString => EmptyString
  | String c s' => if is_c0_or_space c then strip_leading s' else s
  end.

Fixpoint strip_trailing (s : string) : string :=
  match s with
  | EmptyString => EmptyString
  | String c s' =>
      match strip_trailing s' with
      | EmptyString => if is_c0_or_space c then EmptyString else String c EmptyString
      | t => String c t
      end
  end.

Definition preprocess (s : string) : string :=
  filter_str (fun c => negb (is_tab_or_newline c)) (strip_trailing (strip_leading s)).

Definition is_scheme_char (c : ascii) : bool :=
  is_alnum c || Ascii.eqb c "+" || Ascii.eqb c "-" || Ascii.eqb c ".".

(** Scheme state: the lower-cased scheme and what follows its colon. *)
Fixpoint scan_scheme (s : string) : option (string * string) :=
  match s with
  | EmptyString => None
  | String c s' =>
      if Ascii.eqb c ":" then Some (EmptyString, s')
      else if is_scheme_char c then
        match scan_scheme s' with
        | Some (sch, rest) => Some (String (lower_char c) sch, rest)
        | None => None
        end
      else None
  end.

(** Scheme start state: a scheme begins with a letter. *)
Definition split_scheme (s : string) : option (string * string) :=
  match s with
  | String c _ => if is_alpha c then scan_scheme s else None
  | EmptyString => None
  end.

Definition is_special (scheme : string) : bool :=
  has scheme ["http"; "https"; "ws"; "wss"; "ftp"].

Definition is_slash (c : ascii) : bool := Ascii.eqb c "/" || Ascii.eqb c "\".

(** Special authority slashes and ignore-slashes states. *)
Fixpoint skip_slashes (s : string) : string :=
  match s with
  | EmptyString => EmptyString
  | String c s' => if is_slash c then skip_slashes s' else s
  end.

(** The longest prefix without a stop character, and the rest. *)
Fixpoint span_until (stop : ascii -> bool) (s : string) : string * string :=
  match s with
  | EmptyString => (EmptyString, EmptyString)
  | String c s' =>
      if stop c then (EmptyString, s)
      else let (a, b) := span_until stop s' in (String c a, b)
  end.

Definition is_authority_end (c : ascii) : bool :=
  is_slash c || Ascii.eqb c "?" || Ascii.eqb c "#".

Definition is_path_end (c : ascii) : bool := Ascii.eqb c "?" || Ascii.eqb c "#".

Definition code_in (c : ascii) (codes : list nat) : bool :=
  existsb (Nat.eqb (code c)) codes.

Definition forbidden_host (c : ascii) : bool :=
  code_in c [0; 9; 10; 13; 32; 35; 47; 58; 60; 62; 63; 64; 91; 92; 93; 94; 124].

Definition forbidden_domain (c : ascii) : bool :=
  forbidden_host c || (code c <=? 31) || Nat.eqb (code c) 37 || (127 <=? code c).

Definition is_hex (c : ascii) : bool :=
  is_digit c || ((97 <=? code (lower_char c)) && (code (lower_char c) <=? 102)).

Definition is_xn_label (l : string) : bool :=
  match strip_prefix_ci "xn--" l with Some _ => true | None => false end.

(** The ends-in-a-number checker of the host parser. *)
Definition ends_in_number (host : string) : bool :=
  let parts := split_char "." host in
  let parts := if String.eqb (last parts "") "" then removelast parts else parts in
  match parts with
  | [] => false
  | _ =>
      let l := last parts "" in
      (truthy l && forall_str is_digit l) ||
      match strip_prefix_ci "0x" l with
      | Some digits => forall_str is_hex digits
      | None => false
      end
  end.

(** Host parser for a special scheme, on the hosts the instance covers. *)
Definition parse_host (h : string) : option string :=
  let lower := toLowerCase h in
  if negb (truthy h) then None
  else if startsWith "[" h || includes "%" h then None
  else if existsb is_xn_label (split_char "." lower) then None
  else if negb (forall_str (fun c => negb (forbidden_domain c)) lower) then None
  else if ends_in_number lower then None
  else Some lower.

Fixpoint decimal (s : string) (acc : N) : N :=
  match s with
  | EmptyString => acc
  | String c s' => decimal s' (10 * acc + N.of_nat (code c - 48))%N
  end.

(** Port state: [p] is empty or a colon followed by digits worth at most 65535. *)
Definition port_ok (p : string) : bool :=
  match p with
  | EmptyString => true
  | String _ ds => forall_str is_digit ds && (decimal ds 0 <=? 65535)%N
  end.

Definition path_encode_set (c : ascii) : bool :=
  (code c <=? 32) || code_in c [34; 35; 60; 62; 63; 94; 96; 123; 125] || (127 <=? code c).

Definition hex_digit (n : nat) : ascii :=
  if n <? 10 then ascii_of_nat (48 + n) else ascii_of_nat (55 + n).

Definition percent_encode (c : ascii) : string :=
  String "%" (String (hex_digit (code c / 16)) (String (hex_digit (code c mod 16)) EmptyString)).

Fixpoint encode_path (s : string) : string :=
  match s with
  | EmptyString => EmptyString
  | String c s' =>
      if path_encode_set c then (percent_encode c ++ encode_path s')%string
      else String c (encode_path s')
  end.

Definition is_single_dot (seg : string) : bool := has (toLowerCase seg) ["."; "%2e"].
Definition is_double_dot (seg : string) : bool :=
  has (toLowerCase seg) [".."; ".%2e"; "%2e."; "%2e%2e"].

(** Path state: [path] is the list of segments so far, [segs] what is left
    of the input split at each slash. *)
Fixpoint walk_segments (segs : list string) (path : list string) : list string :=
  match segs with
  | [] => path
  | seg :: rest =>
      let buffer := encode_path seg in
      let at_end := match rest with [] => true | _ => false end in
      if is_double_dot buffer then
        walk_segments rest (if at_end then removelast path ++ [EmptyString] else removelast path)
      else if is_single_dot buffer then
        walk_segments rest (if at_end then path ++ [EmptyString] else path)
      else walk_segments rest (path ++ [buffer])
  end.

(** The [pathname] getter: every segment preceded by a slash. *)
Fixpoint serialize_path (path : list string) : string :=
  match path with
  | [] => EmptyString
  | seg :: rest => (String "/" seg ++ serialize_path rest)%string
  end.

Definition parse_special (rest : string) : option URL :=
  let (authority, tail) := span_until is_authority_end (skip_slashes rest) in
  let hostport :=
    if includes "@" authority then last (split_char "@" authority) EmptyString
    else authority in
  let (h, p) := span_until (Ascii.eqb ":") hostport in
  match parse_host h with
  | None => None
  | Some host =>
      if port_ok p then
        let (raw_path, _) := span_until is_path_end tail in
        let raw_path :=
          match raw_path with
          | String c r => if is_slash c then r else raw_path
          | EmptyString => EmptyString
          end in
        Some (mkURL host (serialize_path (walk_segments (split_on is_slash raw_path) [])))
      else None
  end.

Definition parse (input : string) : option URL :=
  match split_scheme (preprocess input) with
  | Some (scheme, rest) => if is_special scheme then parse_special rest else None
  | None => None
  end.

End WHATWG.

#[export] Instance whatwg : URLParser := WHATWG.parse.

(** ** Canonicalizer and text utilities (server.ts) *)

Section Canonicalizer.

Context {parser : URLParser}.

Definition normalizeText (s : string) : string := trim (toLowerCase s).

Definition digits (s : string) : string := filter_str is_digit s.

Definition last10 (s : string) : string :=
  let d := digits s in
  slice_last 10 d.

(** [/^https?:\/\//] (with [ci], under the [i] flag): what follows the scheme. *)
Definition strip_http_scheme (ci : bool) (s : string) : option string :=
  let pre := if ci then strip_prefix_ci else strip_prefix in
  match pre "http" s with
  | Some r =>
      match pre "s" r with
      | Some r' => strip_prefix "://" r'
      | None => strip_prefix "://" r
      end
  | None => None
  end.

(** [s.replace(/^https?:\/\//, '')] *)
Definition drop_http_scheme (s : string) : string :=
  match strip_http_scheme false s with Some rest => rest | None => s end.

Definition preSanitizeUrl (u : string) : string :=
  let s := trim u in
  let s :=
    match strip_http_scheme true s with
    | Some r =>
        match strip_http_scheme true r with
        | Some rest => ("https://" ++ rest)%string
        | None => s
        end
    | None => s
    end in
  let s := replace_first_ci "://https//" "://" s in
  let s := replace_first_ci "://http//" "://" s in
  let s := replace_prefix_ci "https//" "https://" s in
  let s := replace_prefix_ci "http//" "http://" s in
  s.

(** The argument of [new URL] in [canonicalUrl], [canonicalFacebook] and
    [extractHost]. *)
Definition with_scheme (s : string) : string :=
  if includes "://" s then s else ("https://" ++ s)%string.

Definition canonicalUrl (u : string) : string :=
  let fixed := preSanitizeUrl u in
  match new_URL (with_scheme fixed) with
  | Some url =>
      let host := toLowerCase (hostname url) in
      let host := replace_prefix "www." "" host in
      let pathname := if truthy (pathname url) then pathname url else "/" in
      if String.eqb pathname "/" || String.eqb pathname "" then host
      else
        let pathname := if ends_with_char "/" pathname then drop_last pathname else pathname in
        (host ++ pathname)%string
  | None =>
      strip_trailing_slash
        (replace_prefix "http//" ""
           (replace_prefix "https//" ""
              (replace_prefix "www." "" (drop_http_scheme (toLowerCase u)))))
  end.

Definition canonicalFacebook (u : string) : string :=
  match new_URL (with_scheme u) with
  | Some url =>
      let host := toLowerCase (hostname url) in
      let host := replace_prefix "m." "" host in
      let host := replace_prefix "www." "" host in
      let host := if String.eqb host "fb.com" then "facebook.com" else host in
      if negb (String.eqb host "facebook.com") then canonicalUrl u
      else
        let seg :=
          hd "" (filter_Boolean
                   (split_char "/" (replace_runs (Ascii.eqb "/") "/" (pathname url)))) in
        ("facebook.com/" ++ seg)%string
  | None =>
      strip_trailing_slash
        (replace_prefix "fb.com" "facebook.com"
           (replace_prefix "m." ""
              (replace_prefix "www." "" (drop_http_scheme (toLowerCase u)))))
  end.

Definition STOP : list string :=
  ["inc"; "inc."; "co"; "co."; "llc"; "ltd"; "ltd."; "pty"; "pty."; "plc"; "corp";
   "corp."; "company"; "companies"; "gmbh"; "srl"; "sa"; "bv"; "nv"; "llp"; "pc";
   "p.c."; "lp"; "pllc"; "pte"; "ag"; "usa"; "us"; "the"; "and"; "&"].

(** [.replace(/[^a-z0-9]+/g, ' ').split(' ').map(t => t.trim())
     .filter(t => t.length > 1 && !STOP.has(t))] *)
Definition tokenize (s : string) : list string :=
  filter (fun t => (1 <? String.length t) && negb (has t STOP))
    (map trim
       (split_char " "
          (replace_runs (fun c => negb (is_lower c || is_digit c)) " " s))).

Definition nameTokens (s : string) : list string := tokenize (toLowerCase s).

Definition extractHost (u : string) : string :=
  let fixed := preSanitizeUrl u in
  match new_URL (with_scheme fixed) with
  | Some url => replace_prefix "www." "" (toLowerCase (hostname url))
  | None =>
      hd "" (split_char "/"
               (replace_prefix "www." "" (drop_http_scheme (toLowerCase u))))
  end.

Definition COMMON_TLDS : list string :=
  ["com"; "org"; "net"; "io"; "co"; "us"; "uk"; "ca"; "de"; "fr"; "au"; "nz"; "in";
   "info"; "biz"; "edu"; "gov"; "me"].

Definition domainTokens (host : string) : list string :=
  let parts := split_char "." host in
  let parts :=
    if (1 <? List.length parts) && has (last parts "") COMMON_TLDS
    then removelast parts else parts in
  let core := join "." parts in
  tokenize (toLowerCase core).

(** [jaccard]: the arrays become sets; the size of the intersection over the
    size of the union, 0 when either array is empty. *)
Definition jaccard (a b : list string) : Q :=
  match a, b with
  | [], _ | _, [] => 0%Q
  | _, _ =>
      let A := new_Set a in
      let B := new_Set b in
      let inter := List.length (filter (fun x => has x B) A) in
      let union := (List.length A + List.length B - inter)%nat in
      (inject_Z (Z.of_nat inter) / inject_Z (Z.of_nat union))%Q
  end.

(** One row of the table [dp]: [prev] is [dp[i-1][j-1 ..]], [left] is
    [dp[i][j-1]] and [bs] is [b[j-1 ..]]. *)
Fixpoint fill_row (ai : ascii) (bs : list ascii) (prev : list nat) (left : nat) : list nat :=
  match bs, prev with
  | bj :: bs', diag :: ((up :: _) as prev') =>
      let cost := if Ascii.eqb ai bj then 0 else 1 in
      let v := Nat.min (Nat.min (up + 1) (left + 1)) (diag + cost) in
      v :: fill_row ai bs' prev' v
  | _, _ => []
  end.

(** The rows [dp[i], dp[i+1], ..., dp[m]] given [dp[i-1]]. *)
Fixpoint fill_rows (a_rest : list ascii) (b : list ascii) (prev : list nat) (i : nat)
  : list (list nat) :=
  match a_rest with
  | [] => []
  | ai :: a' =>
      let row := i :: fill_row ai b prev i in
      row :: fill_rows a' b row (S i)
  end.

(** The filled table: [dp[0][j] = j], [dp[i][0] = i], and the recurrence. *)
Definition dp_table (a b : list ascii) : list (list nat) :=
  let row0 := seq 0 (S (List.length b)) in
  row0 :: fill_rows a b row0 1.

Definition levenshteinRatio (a b : string) : Q :=
  let m := String.length a in
  let n := String.length b in
  if Nat.eqb m 0 && Nat.eqb n 0 then 1%Q
  else
    let dp := dp_table (list_ascii_of_string a) (list_ascii_of_string b) in
    let dist := nth n (nth m dp []) 0 in
    let maxLen := Nat.max m n in
    if Nat.eqb maxLen 0 then 1%Q
    else (1 - inject_Z (Z.of_nat dist) / inject_Z (Z.of_nat maxLen))%Q.

(** Aliases kept by the source. *)
Definition normalizeString (s : string) : string := normalizeText s.
Definition lastTenDigits (s : string) : string := last10 s.
Definition tokenizeName (s : string) : list string := nameTokens s.
Definition tokenizeDomain (host : string) : list string := domainTokens host.
Definition getHost (u : string) : string := extractHost u.
Definition jaccardSimilarity (a b : list string) : Q := jaccard a b.

End Canonicalizer.

(** ** Data model (types.d.ts, server.ts) *)

(** [CompanyProfile.social]; the engine reads the [facebook] list only. *)
Record Social : Type := mkSocial { facebook : option (list string) }.

Record Profile : Type := mkProfile {
  website : string;
  name : option string;
  phones : option (list string);
  social : option Social;
  address : option string
}.

(** [AugProfile]: a profile ([base], the spread [...p]) with its precomputed
    fields.  A [Set<string>] is the list of its elements in insertion order. *)
Record AugProfile : Type := mkAug {
  _id : nat;
  _canonSite : string;
  _host : string;
  _domainTokens : list string;
  _nameNorm : string;
  _nameTokens : list string;
  _last10Phones : list string;
  _fbHandles : list string;
  base : Profile
}.

(** A [Map<string, number[]>], keys in insertion order. *)
Definition Lookup : Type := list (string * list nat).

Record Maps : Type := mkMaps {
  byCanonSite : Lookup;
  byPhone10 : Lookup;
  byFacebook : Lookup;
  byDomainToken : Lookup
}.

(** A hit of [Fuse.search]: [{ item, refIndex, score }]. *)
Record FuseResult (A : Type) : Type := mkHit {
  item : A;
  refIndex : nat;
  hit_score : option Q
}.
Arguments mkHit {A} _ _ _.
Arguments item {A} _.
Arguments refIndex {A} _.
Arguments hit_score {A} _.

(** A row of the names dataset kept by [getNamesFallback]. *)
Record NameRow : Type := mkNameRow { row_website : string; row_name : string }.

Inductive SortKey : Type := by_score | by_name | by_website.
Inductive Dir : Type := asc | desc.

(** The value of [Number(x)]: a finite number or [NaN] (the infinities, which
    the handler treats like a large finite value, are left out). *)
Inductive Num : Type := NaN | Fin (q : Q).

(** The request body. Before [QuerySchema] the string fields are as sent;
    after it they are trimmed. *)
Module Body.
Record t : Type := mk {
  name : option string;
  website : option string;
  phone : option string;
  facebook : option string;
  page : option Num;
  perPage : option Num;
  sort : option SortKey;
  dir : option Dir;
  minScore : option Num;
  contains : option string
}.
End Body.

(** [Scored = { idx, profile, score }] *)
Record Scored : Type := mkScored { idx : nat; profile : Profile; score : Q }.

Record Meta : Type := mkMeta {
  total : nat;
  totalPages : Z;
  meta_page : Q;
  meta_perPage : Q;
  meta_sort : SortKey;
  meta_dir : Dir;
  meta_minScore : Q;
  meta_contains : string
}.

Record Response : Type := mkResponse {
  best : option Profile;
  candidates : list Scored;
  meta : Meta
}.

(** The outcome of [POST /match]: status 400, status 403 (a form post
    without a valid CSRF token), an uncaught [TypeError] (status 500), the
    end of the process on an unhandled [error] event, or the response (sent
    as JSON or handed to the template). *)
Inductive Reply : Type :=
| BadRequest
| Forbidden
| ServerError
| ProcessExit
| OK (r : Response).

(** What [buildApp] takes from its environment: the index file (the catalog
    [raw.profiles] and the search function of the MiniSearch index stored
    with it, which returns the ids of its hits in result order), the two Fuse
    instances built over the catalog, the names dataset with its Fuse
    instance, the two workload caps (integers) and the host's
    [String.prototype.localeCompare]. *)
Class Deployment : Type := {
  catalog : list Profile;
  miniSearch : string -> list nat;
  fuzzyIndex : string -> list (FuseResult unit);
  fuzzyIndexLoose : string -> list (FuseResult unit);
  namesFallback : list NameRow;
  namesFuse : string -> list (FuseResult NameRow);
  MAX_CANDIDATES : Z;
  MAX_BRUTE_FORCE : Z;
  localeCompare : string -> string -> Z
}.

(** ** Feature builder ([loadIndexFrom]) *)

Section FeatureBuilder.

Context {parser : URLParser}.

(** The body of the [baseProfiles.map] callback without its index updates. *)
Definition augment (i : nat) (p : Profile) : AugProfile :=
  let canonSite := canonicalUrl (website p) in
  let host := getHost (website p) in
  let domTokens := if truthy host then tokenizeDomain host else [] in
  let nameNorm := match name p with
                  | Some n => if truthy n then normalizeString n else ""
                  | None => ""
                  end in
  let nameToks := if truthy nameNorm then tokenizeName nameNorm else [] in
  let last10Phones :=
    new_Set (filter_Boolean (map lastTenDigits (or_nil (phones p)))) in
  let fbHandles :=
    new_Set (filter_Boolean
               (map canonicalFacebook
                  (or_nil (match social p with Some so => facebook so | None => None end)))) in
  mkAug i canonSite host domTokens nameNorm nameToks last10Phones fbHandles p.

Fixpoint addToIndex (map : Lookup) (k : string) (idx : nat) : Lookup :=
  if negb (truthy k) then map
  else
    match map with
    | [] => [(k, [idx])]
    | (k', arr) :: rest =>
        if String.eqb k' k then (k', arr ++ [idx]) :: rest
        else (k', arr) :: addToIndex rest k idx
    end.

(** The index updates of the callback for one augmented profile. *)
Definition index_profile (m : Maps) (c : AugProfile) : Maps :=
  let i := _id c in
  let site := addToIndex (byCanonSite m) (_canonSite c) i in
  let dom := fold_left (fun acc t => addToIndex acc t i) (_domainTokens c) (byDomainToken m) in
  let ph := fold_left (fun acc t => addToIndex acc t i) (_last10Phones c) (byPhone10 m) in
  let fb := fold_left (fun acc t => addToIndex acc t i) (_fbHandles c) (byFacebook m) in
  mkMaps site ph fb dom.

Fixpoint augment_from (i : nat) (ps : list Profile) : list AugProfile :=
  match ps with
  | [] => []
  | p :: rest => augment i p :: augment_from (S i) rest
  end.

(** [profiles] and [maps] of the value returned by [loadIndexFrom]. *)
Definition load_profiles (baseProfiles : list Profile) : list AugProfile :=
  augment_from 0 baseProfiles.

Definition load_maps (baseProfiles : list Profile) : Maps :=
  fold_left index_profile (load_profiles baseProfiles) (mkMaps [] [] [] []).

(** [map.get(k)], with [undefined] read as no ids. *)
Fixpoint lookup (map : Lookup) (k : string) : list nat :=
  match map with
  | [] => []
  | (k', arr) :: rest => if String.eqb k' k then arr else lookup rest k
  end.

End FeatureBuilder.

(** ** Scorers *)

(** The precomputed input features [pre] of a request. *)
Module Pre.
Record t : Type := mk {
  canonSite : string;
  host : string;
  domainTokens : list string;
  nameNorm : string;
  nameTokens : list string;
  phone10 : string;
  fbHandle : string
}.
End Pre.

(** The argument of [scoreMatch], a [Partial<Profile>]; [facebook] is the
    untyped [(input as any).facebook]. *)
Module Partial.
Record t : Type := mk {
  website : option string;
  name : option string;
  phones : option (list string);
  social : option Social;
  facebook : option string
}.
End Partial.

Section Scorers.

Context {parser : URLParser}.

(** [field ? f(field) : d] *)
Definition when_present {A : Type} (field : option string) (f : string -> A) (d : A) : A :=
  match field with
  | Some s => if truthy s then f s else d
  | None => d
  end.

Definition precompute (body : Body.t) : Pre.t :=
  Pre.mk
    (when_present (Body.website body) canonicalUrl "")
    (when_present (Body.website body) extractHost "")
    (when_present (Body.website body) (fun w => domainTokens (extractHost w)) [])
    (when_present (Body.name body) normalizeText "")
    (when_present (Body.name body) (fun n => nameTokens (normalizeText n)) [])
    (when_present (Body.phone body) last10 "")
    (when_present (Body.facebook body) canonicalFacebook "").

Definition nonempty {A : Type} (l : list A) : bool :=
  match l with [] => false | _ => true end.

Definition fastScore (pre : Pre.t) (c : AugProfile) : Q :=
  let score := 0%Q in
  let score :=
    if truthy (Pre.canonSite pre) && String.eqb (Pre.canonSite pre) (_canonSite c)
    then (score + 5)%Q else score in
  let score :=
    if truthy (Pre.nameNorm pre) && truthy (_nameNorm c) then
      if String.eqb (Pre.nameNorm pre) (_nameNorm c) then (score + 3)%Q
      else
        let j := jaccard (Pre.nameTokens pre) (_nameTokens c) in
        let score :=
          if Qle_bool 0.8 j then (score + 2)%Q
          else if Qle_bool 0.5 j then (score + 1.5)%Q
          else if Qle_bool 0.3 j then (score + 1)%Q
          else if Qle_bool 0.25 j then (score + 0.5)%Q
          else score in
        let lev := levenshteinRatio (Pre.nameNorm pre) (_nameNorm c) in
        if Qle_bool 0.9 lev then (score + 1.5)%Q
        else if Qle_bool 0.8 lev then (score + 1)%Q
        else score
    else score in
  let score :=
    if nonempty (Pre.domainTokens pre) && nonempty (_domainTokens c) then
      let jw := jaccard (Pre.domainTokens pre) (_domainTokens c) in
      if Qle_bool 0.8 jw then (score + 2)%Q
      else if Qle_bool 0.6 jw then (score + 1.5)%Q
      else if Qle_bool 0.4 jw then (score + 1)%Q
      else if Qle_bool 0.25 jw then (score + 0.5)%Q
      else score
    else score in
  let score :=
    if truthy (Pre.phone10 pre) && has (Pre.phone10 pre) (_last10Phones c)
    then (score + 3)%Q else score in
  let score :=
    if truthy (Pre.fbHandle pre) && has (Pre.fbHandle pre) (_fbHandles c)
    then (score + 4)%Q else score in
  score.

(** [scoreMatch], the exported scorer on the raw input.  An array is truthy,
    so [candidate._nameTokens || tokenizeName(b)] is [candidate._nameTokens]. *)
Definition scoreMatch (input : Partial.t) (candidate : AugProfile) : Q :=
  let score := 0%Q in
  let score :=
    when_present (Partial.website input)
      (fun w =>
         let wantCanon := canonicalUrl w in
         if truthy wantCanon && String.eqb wantCanon (_canonSite candidate)
         then (score + 5)%Q else score)
      score in
  let score :=
    if truthy_opt (Partial.name input) && truthy_opt (name (base candidate)) then
      let a := normalizeString (or_empty (Partial.name input)) in
      let b := if truthy (_nameNorm candidate) then _nameNorm candidate
               else normalizeString (or_empty (name (base candidate))) in
      if String.eqb a b then (score + 3)%Q
      else
        let j := jaccardSimilarity (tokenizeName a) (_nameTokens candidate) in
        let score :=
          if Qle_bool 0.8 j then (score + 2)%Q
          else if Qle_bool 0.5 j then (score + 1.5)%Q
          else if Qle_bool 0.3 j then (score + 1)%Q
          else if Qle_bool 0.25 j then (score + 0.5)%Q
          else score in
        let lev := levenshteinRatio a b in
        if Qle_bool 0.9 lev then (score + 1.5)%Q
        else if Qle_bool 0.8 lev then (score + 1)%Q
        else score
    else score in
  let score :=
    when_present (Partial.website input)
      (fun w =>
         let aHost := getHost w in
         if truthy aHost then
           let aTok := tokenizeDomain aHost in
           let bTok := _domainTokens candidate in
           if nonempty bTok then
             let jw := jaccardSimilarity aTok bTok in
             if Qle_bool 0.8 jw then (score + 2)%Q
             else if Qle_bool 0.6 jw then (score + 1.5)%Q
             else if Qle_bool 0.4 jw then (score + 1)%Q
             else if Qle_bool 0.25 jw then (score + 0.5)%Q
             else score
           else score
         else score)
      score in
  let score :=
    match Partial.phones input with
    | Some ps =>
        if existsb (fun p => has (lastTenDigits p) (_last10Phones candidate)) ps
        then (score + 3)%Q else score
    | None => score
    end in
  let inFb :=
    let first := match Partial.social input with
                 | Some so => match facebook so with
                              | Some (x :: _) => Some x
                              | _ => None
                              end
                 | None => None
                 end in
    if truthy_opt first then first else Partial.facebook input in
  let score :=
    when_present inFb
      (fun fb =>
         let wantFb := canonicalFacebook fb in
         if has wantFb (_fbHandles candidate) then (score + 4)%Q else score)
      score in
  score.

(** [inputForScore], the raw input the handler builds for the scorer. *)
Definition inputForScore (body : Body.t) : Partial.t :=
  Partial.mk
    (Body.website body)
    (Body.name body)
    (when_present (Body.phone body) (fun p => Some [p]) None)
    (when_present (Body.facebook body) (fun f => Some (mkSocial (Some [f]))) None)
    None.

End Scorers.

(** ** Array and number builtins used by the handler *)

(** *** Binary64 arithmetic

    The result of [/], [-], [*] and [+] on numbers is the binary64 number
    nearest to the exact result, ties to the even significand.  [round64]
    is that rounding, for the normal and the subnormal range; the overflow
    threshold is left out: the handler rounds a quotient, a difference, a
    product and a sum that the length of a list bounds. *)

(** [2^e] *)
Definition pow2 (e : Z) : Q := Qpower 2 e.

(** The nearest integer, ties to even. *)
Definition nearest_even (x : Q) : Z :=
  let k := Qfloor x in
  match Qcompare (x - inject_Z k) (1 # 2) with
  | Lt => k
  | Gt => (k + 1)%Z
  | Eq => if Z.even k then k else (k + 1)%Z
  end.

(** The exponent [e] with [2^e <= x < 2^(e+1)], for a positive [x]. *)
Definition binade (x : Q) : Z :=
  let e := (Z.log2 (Qnum x) - Z.log2 (Zpos (Qden x)))%Z in
  if Qle_bool (pow2 e) x then e else (e - 1)%Z.

(** A positive number rounded to 53 significant bits, with the least
    exponent -1022. *)
Definition round64_pos (x : Q) : Q :=
  let ulp := pow2 (Z.max (binade x) (-1022) - 52) in
  (inject_Z (nearest_even (x / ulp)) * ulp)%Q.

Definition round64 (x : Q) : Q :=
  match Qcompare x 0 with
  | Eq => 0%Q
  | Gt => round64_pos x
  | Lt => (- round64_pos (- x))%Q
  end.

(** [ToIntegerOrInfinity]: truncation towards zero. *)
Definition truncate (q : Q) : Z := if Qle_bool 0 q then Qfloor q else Qceiling q.

(** The relative index of [Array.prototype.slice]. *)
Definition relative_index (len : nat) (k : Z) : nat :=
  if (k <? 0)%Z then Z.to_nat (Z.max (Z.of_nat len + k) 0)
  else Nat.min (Z.to_nat k) len.

(** [l.slice(start, stop)] *)
Definition slice {A : Type} (l : list A) (start stop : Z) : list A :=
  let from := relative_index (List.length l) start in
  let to := relative_index (List.length l) stop in
  firstn (to - from) (skipn from l).

(** [Number(field ?? d)] *)
Definition Number_or (field : option Num) (d : Num) : Num :=
  match field with Some n => n | None => d end.

(** [n || d] on numbers: [NaN] and 0 are falsy. *)
Definition or_number (n : Num) (d : Q) : Q :=
  match n with
  | NaN => d
  | Fin q => if Qeq_bool q 0 then d else q
  end.

(** [l.map(f)] where [f] may throw. *)
Fixpoint map_opt {A B : Type} (f : A -> option B) (l : list A) : option (list B) :=
  match l with
  | [] => Some []
  | x :: rest =>
      match f x, map_opt f rest with
      | Some y, Some ys => Some (y :: ys)
      | _, _ => None
      end
  end.

(** [Array.prototype.sort] with a comparator: the sort is stable, so for a
    consistent comparator the result is fixed by the specification.  An
    element goes before the first element of the sorted rest that it
    precedes or ties with. *)
Fixpoint insert_by {A : Type} (cmp : A -> A -> Q) (x : A) (l : list A) : list A :=
  match l with
  | [] => [x]
  | y :: rest => if Qle_bool (cmp x y) 0 then x :: l else y :: insert_by cmp x rest
  end.

Definition sort_by {A : Type} (cmp : A -> A -> Q) (l : list A) : list A :=
  fold_right (insert_by cmp) [] l.

(** A [Set<number>] in insertion order. *)
Definition set_add (s : list nat) (x : nat) : list nat :=
  if existsb (Nat.eqb x) s then s else s ++ [x].

Definition add_each (s : list nat) (xs : list nat) : list nat := fold_left set_add xs s.

(** [for (let i = 0; i < N && subset.length < cap; i += step) subset.push(i)];
    [fuel] bounds the number of iterations. *)
Fixpoint strided (fuel : nat) (i N cap step : Z) (subset : list nat) : list nat :=
  match fuel with
  | O => subset
  | S fuel' =>
      if ((i <? N) && (Z.of_nat (List.length subset) <? cap))%Z
      then strided fuel' (i + step)%Z N cap step (subset ++ [Z.to_nat i])
      else subset
  end.

(** ** The [POST /match] handler *)

Section Handler.

Context {parser : URLParser} {dep : Deployment}.

Definition profiles : list AugProfile := load_profiles catalog.
Definition maps : Maps := load_maps catalog.

(** [z.string().trim().max(max).optional()]; [None] is a validation issue. *)
Definition limitStr (max : nat) (field : option string) : option (option string) :=
  match field with
  | None => Some None
  | Some s => let s' := trim s in
              if String.length s' <=? max then Some (Some s') else None
  end.

(** [QuerySchema.safeParse(req.body)] on a body of the expected field types. *)
Definition QuerySchema (raw : Body.t) : option Body.t :=
  match limitStr 256 (Body.name raw), limitStr 2048 (Body.website raw),
        limitStr 64 (Body.phone raw), limitStr 2048 (Body.facebook raw),
        limitStr 256 (Body.contains raw) with
  | Some n, Some w, Some p, Some f, Some c =>
      Some (Body.mk n w p f (Body.page raw) (Body.perPage raw) (Body.sort raw)
              (Body.dir raw) (Body.minScore raw) c)
  | _, _, _, _, _ => None
  end.

(** [body.name || body.website || body.phone || body.facebook] *)
Definition any_field (body : Body.t) : bool :=
  truthy_opt (Body.name body) || truthy_opt (Body.website body) ||
  truthy_opt (Body.phone body) || truthy_opt (Body.facebook body).

(** [[body.name, body.website, body.phone, body.facebook].filter(Boolean).join(' ')] *)
Definition query_text (body : Body.t) : string :=
  join " " (filter_Boolean [or_empty (Body.name body); or_empty (Body.website body);
                            or_empty (Body.phone body); or_empty (Body.facebook body)]).

Definition search_each (s : list nat) (toks : list string) : list nat :=
  fold_left (fun s tok => add_each s (miniSearch tok)) toks s.

Definition is_handle_separator (c : ascii) : bool :=
  Ascii.eqb c "." || Ascii.eqb c "_" || Ascii.eqb c "-".

(** Candidate discovery: the signal union, the strict fuzzy fallback when it
    is empty, and the cap. *)
Definition gather (body : Body.t) : list nat :=
  let cands : list nat := [] in
  let cands :=
    when_present (Body.name body)
      (fun n => search_each (add_each cands (miniSearch n)) (tokenizeName n))
      cands in
  let cands :=
    when_present (Body.website body)
      (fun w =>
         let cands := add_each cands (miniSearch w) in
         let want := canonicalUrl w in
         let cands := add_each cands (lookup (byCanonSite maps) want) in
         let host := getHost w in
         let toks := tokenizeDomain host in
         fold_left
           (fun cands tok =>
              add_each (add_each cands (lookup (byDomainToken maps) tok)) (miniSearch tok))
           toks cands)
      cands in
  let cands :=
    when_present (Body.phone body)
      (fun ph => add_each cands (lookup (byPhone10 maps) (lastTenDigits ph)))
      cands in
  let cands :=
    when_present (Body.facebook body)
      (fun fb =>
         let wantFb := canonicalFacebook fb in
         let cands := add_each cands (lookup (byFacebook maps) wantFb) in
         match new_URL fb with
         | Some url =>
             let h := hd "" (filter_Boolean (split_char "/" (pathname url))) in
             search_each cands
               (filter (fun x => 2 <? String.length x) (split_runs is_handle_separator h))
         | None => cands
         end)
      cands in
  let cands :=
    if Nat.eqb (List.length cands) 0 && any_field body then
      let fuseRes := firstn 20 (fuzzyIndex (query_text body)) in
      add_each cands (map refIndex fuseRes)
    else cands in
  if (MAX_CANDIDATES <? Z.of_nat (List.length cands))%Z
  then slice cands 0 MAX_CANDIDATES
  else cands.

(** [{ idx: i, profile: profiles[i], score: fastScore(profiles[i]) }]; reading
    a field of [undefined] throws. *)
Definition score_at (pre : Pre.t) (i : nat) : option Scored :=
  match nth_error profiles i with
  | Some c => Some (mkScored i (base c) (fastScore pre c))
  | None => None
  end.

(** A hit of the text engine as a candidate; [factor] is 0.5 for the catalog
    and 0.4 for the names dataset.  A position outside the catalog fails here
    (in the source it travels as [undefined] until its first field is read;
    Fuse returns positions of its own collection). *)
Definition fuzzy_score (factor : Q) (raw : option Q) : Q :=
  Qmax 0.1 ((1 - match raw with Some d => d | None => 1 end) * factor).

Definition fuzzy_candidate (r : FuseResult unit) : option Scored :=
  match nth_error profiles (refIndex r) with
  | Some c => Some (mkScored (refIndex r) (base c) (fuzzy_score 0.5 (hit_score r)))
  | None => None
  end.

Definition by_score_desc (a b : Scored) : Q := (score b - score a)%Q.

(** The last resort: score the catalog, or a strided sample of it. *)
Definition brute_force (pre : Pre.t) : option (list Scored) :=
  let N := Z.of_nat (List.length profiles) in
  let cap := Z.min MAX_BRUTE_FORCE N in
  if (cap <? N)%Z then
    let step := Z.max 1 (N / cap) in
    let subset := strided (List.length profiles) 0 N cap step [] in
    match map_opt (score_at pre) subset with
    | Some scored => Some (slice (sort_by by_score_desc scored) 0 10)
    | None => None
    end
  else
    match map_opt (score_at pre) (seq 0 (List.length profiles)) with
    | Some scored => Some (slice (sort_by by_score_desc scored) 0 10)
    | None => None
    end.

(** The safety net after scoring. *)
Definition safety_net (body : Body.t) (pre : Pre.t) (scored : list Scored)
  : option (list Scored) :=
  if (Nat.eqb (List.length scored) 0 || forallb (fun s => Qeq_bool (score s) 0) scored)
     && any_field body
  then
    let q := query_text body in
    let fuseRes := slice (fuzzyIndex q) 0 10 in
    let fuseRes :=
      if Nat.eqb (List.length fuseRes) 0 then slice (fuzzyIndexLoose q) 0 10 else fuseRes in
    if nonempty fuseRes then map_opt fuzzy_candidate fuseRes
    else brute_force pre
  else Some scored.

(** The comparator of the ranking sort ([x.score || 0] is [x.score] on a
    finite number). *)
Definition compare_candidates (sortKey : SortKey) (d : Dir) (a b : Scored) : Q :=
  let mul := match d with asc => 1%Q | desc => (-1)%Q end in
  match sortKey with
  | by_name =>
      (mul * inject_Z (localeCompare (or_empty (name (profile a)))
                         (or_empty (name (profile b)))))%Q
  | by_website =>
      (mul * inject_Z (localeCompare (website (profile a)) (website (profile b))))%Q
  | by_score => (mul * (score a - score b))%Q
  end.

(** A hit of the names dataset as a stub candidate. *)
Fixpoint name_stubs (i : nat) (nf : list (FuseResult NameRow)) : list Scored :=
  match nf with
  | [] => []
  | r :: rest =>
      mkScored i
        (mkProfile (row_website (item r)) (Some (row_name (item r))) (Some [])
           (Some (mkSocial None)) None)
        (fuzzy_score 0.4 (hit_score r))
      :: name_stubs (S i) rest
  end.

(** Defaults for sort, filter and pagination. *)
Definition requested_page (body : Body.t) : Q :=
  Qmax 1 (or_number (Number_or (Body.page body) (Fin 1)) 1).

Definition requested_perPage (body : Body.t) : Q :=
  Qmin 50 (Qmax 5 (or_number (Number_or (Body.perPage body) (Fin 10)) 10)).

Definition sort_key (body : Body.t) : SortKey :=
  match Body.sort body with Some k => k | None => by_score end.

Definition sort_dir (body : Body.t) : Dir :=
  match Body.dir body with Some d => d | None => desc end.

(** [Number(body.minScore ?? '') || 0] *)
Definition min_score (body : Body.t) : Q :=
  or_number (Number_or (Body.minScore body) (Fin 0)) 0.

Definition contains_filter (body : Body.t) : string :=
  trim (toLowerCase (or_empty (Body.contains body))).

(** The two filters. *)
Definition apply_filters (body : Body.t) (scored : list Scored) : list Scored :=
  let items := scored in
  let items :=
    if negb (Qle_bool (min_score body) 0)
    then filter (fun s => Qle_bool (min_score body) (score s)) items
    else items in
  let items :=
    if truthy (contains_filter body) then
      filter (fun s =>
                includes (contains_filter body) (toLowerCase (or_empty (name (profile s)))) ||
                includes (contains_filter body) (toLowerCase (website (profile s))))
        items
    else items in
  items.

(** The filtered list after [list.sort]. *)
Definition ranked (body : Body.t) (scored : list Scored) : list Scored :=
  sort_by (compare_candidates (sort_key body) (sort_dir body)) (apply_filters body scored).

(** The names dataset as a last resort when nothing was scored.
    [namesFallback] is what [getNamesFallback] returns: the rows of the names
    file that have a website, or no row when the parser rejects the file.
    (A names file that cannot be opened is the business of [post_match].) *)
Definition final_list (body : Body.t) (scored : list Scored) : list Scored :=
  let items := ranked body scored in
  if Nat.eqb (List.length scored) 0 then
    if nonempty namesFallback then
      let nf := slice (namesFuse (query_text body)) 0 10 in
      if nonempty nf then name_stubs 0 nf else items
    else items
  else items.

(** [Math.max(1, Math.ceil(total / perPage))] *)
Definition total_pages (total : nat) (perPage : Q) : Z :=
  Z.max 1 (Qceiling (round64 (inject_Z (Z.of_nat total) / perPage))).

(** [items.slice(start, start + perPage)] with [start = (pageClamped - 1) * perPage] *)
Definition page_of (items : list Scored) (pageClamped perPage : Q) : list Scored :=
  let start := round64 (round64 (pageClamped - 1) * perPage) in
  slice items (truncate start) (truncate (round64 (start + perPage))).

(** Filter, sort, names fallback and pagination. *)
Definition finalize (body : Body.t) (scored : list Scored) : Response :=
  let page := requested_page body in
  let perPage := requested_perPage body in
  let items := final_list body scored in
  let total := List.length items in
  let totalPages := total_pages total perPage in
  let pageClamped := Qmin page (inject_Z totalPages) in
  let paged := page_of items pageClamped perPage in
  let best := match items with s :: _ => Some (profile s) | [] => None end in
  mkResponse best paged
    (mkMeta total totalPages pageClamped perPage (sort_key body) (sort_dir body)
       (min_score body) (contains_filter body)).

(** The handler for a request that is not a form post, with the names
    dataset at hand: validation, candidate discovery, scoring, safety net,
    ranking and pagination.  (Rate limiting and rendering belong to the
    transport; [post_match] below adds the CSRF check and the loading of the
    names dataset.) *)
Definition match_handler (raw : Body.t) : Reply :=
  match QuerySchema raw with
  | None => BadRequest
  | Some body =>
      if negb (any_field body) then BadRequest
      else
        let cands := gather body in
        let pre := precompute body in
        match map_opt (score_at pre) cands with
        | None => ServerError
        | Some scored =>
            match safety_net body pre scored with
            | None => ServerError
            | Some scored => OK (finalize body scored)
            end
        end
  end.

(** What the handler reads of a request besides the fields of [Body.t]: the
    [content-type] header, the [__Host-csrf] cookie and the body's [csrf]
    field (a string that the schema passes as it is). *)
Record Post : Type := mkPost {
  content_type : option string;
  csrf_cookie : option string;
  csrf : option string;
  fields : Body.t
}.

Definition isForm (post : Post) : bool :=
  let ctype := or_empty (content_type post) in
  includes "application/x-www-form-urlencoded" ctype || includes "multipart/form-data" ctype.

(** [!(!cookieToken || !body.csrf || body.csrf !== cookieToken)] *)
Definition csrf_valid (post : Post) : bool :=
  truthy_opt (csrf_cookie post) && truthy_opt (csrf post)
  && String.eqb (or_empty (csrf post)) (or_empty (csrf_cookie post)).

(** The whole handler.  [names_at_hand] tells whether [getNamesFallback]
    returns: the names dataset is cached, or [readCsv] can open the names
    file.  When it cannot, the read stream emits an [error] event that
    nothing listens to ([readCsv] listens to the parser only), which ends
    the process. *)
Definition post_match (names_at_hand : bool) (post : Post) : Reply :=
  match QuerySchema (fields post) with
  | None => BadRequest
  | Some body =>
      if negb (any_field body) then BadRequest
      else if isForm post && negb (csrf_valid post) then Forbidden
      else
        let cands := gather body in
        let pre := precompute body in
        match map_opt (score_at pre) cands with
        | None => ServerError
        | Some scored =>
            match safety_net body pre scored with
            | None => ServerError
            | Some scored =>
                if Nat.eqb (List.length scored) 0 && negb names_at_hand then ProcessExit
                else OK (finalize body scored)
            end
        end
  end.

End Handler.

(** ** The scoring table of the specification (section 4.5)

    The definitions of this section follow the words of the specification;
    the theorems below compare them with the two scorers of the source. *)

Section ScoringTable.

Context {parser : URLParser}.

(** Jaccard similarity [|A n B| / |A u B|] of the token sets of two arrays. *)
Definition token_set_jaccard (a b : list string) : Q :=
  let inter := new_Set (filter (fun x => has x b) a) in
  let union := new_Set (a ++ b) in
  (inject_Z (Z.of_nat (List.length inter)) / inject_Z (Z.of_nat (List.length union)))%Q.

(** The Levenshtein distance between the first [i] characters of [a] and the
    first [j] characters of [b], by the usual recurrence. *)
Fixpoint levenshtein_at (a b : list ascii) (i j : nat) {struct i} : nat :=
  match i with
  | O => j
  | S i' =>
      (fix row (j : nat) : nat :=
         match j with
         | O => S i'
         | S j' =>
             let cost := if Ascii.eqb (nth i' a zero) (nth j' b zero) then 0 else 1 in
             Nat.min (Nat.min (levenshtein_at a b i' (S j') + 1) (row j' + 1))
                     (levenshtein_at a b i' j' + cost)
         end) j
  end.

Definition levenshtein (a b : string) : nat :=
  levenshtein_at (list_ascii_of_string a) (list_ascii_of_string b)
    (String.length a) (String.length b).

(** [1 - levenshtein(a,b) / max(len(a), len(b))], and 1 when both are empty. *)
Definition edit_distance_ratio (a b : string) : Q :=
  if String.eqb a "" && String.eqb b "" then 1%Q
  else (1 - inject_Z (Z.of_nat (levenshtein a b))
            / inject_Z (Z.of_nat (Nat.max (String.length a) (String.length b))))%Q.

(** The points of the first threshold reached, 0 when none is. *)
Fixpoint bucket (table : list (Q * Q)) (x : Q) : Q :=
  match table with
  | [] => 0%Q
  | (threshold, points) :: rest =>
      if Qle_bool threshold x then points else bucket rest x
  end.

Definition name_jaccard_table : list (Q * Q) :=
  [(0.8, 2); (0.5, 1.5); (0.3, 1); (0.25, 0.5)]%Q.
Definition edit_ratio_table : list (Q * Q) := [(0.9, 1.5); (0.8, 1)]%Q.
Definition domain_jaccard_table : list (Q * Q) :=
  [(0.8, 2); (0.6, 1.5); (0.4, 1); (0.25, 0.5)]%Q.

(** Website, as the table states it: canonical site equality. *)
Definition website_points_as_stated (body : Body.t) (c : AugProfile) : Q :=
  when_present (Body.website body)
    (fun w => if String.eqb (canonicalUrl w) (_canonSite c) then 5%Q else 0%Q) 0%Q.

(** Website, as the scorers award it: the canonical form must be non-empty. *)
Definition website_points (body : Body.t) (c : AugProfile) : Q :=
  when_present (Body.website body)
    (fun w => if truthy (canonicalUrl w) && String.eqb (canonicalUrl w) (_canonSite c)
              then 5%Q else 0%Q) 0%Q.

Definition name_points (body : Body.t) (c : AugProfile) : Q :=
  when_present (Body.name body)
    (fun n =>
       if String.eqb (normalizeText n) (_nameNorm c) then 3%Q
       else
         (bucket name_jaccard_table
            (token_set_jaccard (nameTokens (normalizeText n)) (_nameTokens c))
          + bucket edit_ratio_table (edit_distance_ratio (normalizeText n) (_nameNorm c)))%Q)
    0%Q.

Definition domain_points (body : Body.t) (c : AugProfile) : Q :=
  when_present (Body.website body)
    (fun w =>
       bucket domain_jaccard_table
         (token_set_jaccard (domainTokens (extractHost w)) (_domainTokens c)))
    0%Q.

Definition phone_points (body : Body.t) (c : AugProfile) : Q :=
  when_present (Body.phone body)
    (fun ph => if has (last10 ph) (_last10Phones c) then 3%Q else 0%Q) 0%Q.

Definition facebook_points (body : Body.t) (c : AugProfile) : Q :=
  when_present (Body.facebook body)
    (fun fb => if has (canonicalFacebook fb) (_fbHandles c) then 4%Q else 0%Q) 0%Q.

Definition confidence (body : Body.t) (c : AugProfile) : Q :=
  (website_points body c + name_points body c + domain_points body c
   + phone_points body c + facebook_points body c)%Q.

Definition confidence_as_stated (body : Body.t) (c : AugProfile) : Q :=
  (website_points_as_stated body c + name_points body c + domain_points body c
   + phone_points body c + facebook_points body c)%Q.

End ScoringTable.

(** ** Plain canonical forms

    The shapes on which canonicalisation is stable: a lower-case host name
    followed by path segments of unreserved characters, and
    [facebook.com/<handle>]. *)

Definition is_host_char (c : ascii) : bool :=
  is_lower c || is_digit c || Ascii.eqb c "-" || Ascii.eqb c ".".

Definition is_segment_char (c : ascii) : bool :=
  is_alnum c || Ascii.eqb c "-" || Ascii.eqb c "." || Ascii.eqb c "_" || Ascii.eqb c "~".

(** A host of lower-case letters, digits, hyphens and dots that does not
    start with [www.], has no [xn--] label and does not end in a number. *)
Definition plain_host (h : string) : bool :=
  truthy h && forall_str is_host_char h && negb (startsWith "www." h)
  && negb (existsb WHATWG.is_xn_label (split_char "." h))
  && negb (WHATWG.ends_in_number h).

(** Unreserved characters only, and not a dot segment. *)
Definition unreserved_segment (seg : string) : bool :=
  forall_str is_segment_char seg && negb (String.eqb seg ".") && negb (String.eqb seg "..").

Definition plain_segment (seg : string) : bool := truthy seg && unreserved_segment seg.

Definition site_shape (c : string) : Prop :=
  exists h segs,
    c = (h ++ WHATWG.serialize_path segs)%string /\
    plain_host h = true /\ forallb plain_segment segs = true.

Definition handle_shape (c : string) : Prop :=
  exists seg, c = ("facebook.com/" ++ seg)%string /\ unreserved_segment seg = true.

(** The positions the last resort scores, in the words of the specification:
    the whole catalog of [N] records or, above the cap, a uniformly strided
    sample, every [N / cap]-th position, [cap] of them. *)
Definition brute_force_sample (N : nat) (cap : Z) : list nat :=
  if (cap <? Z.of_nat N)%Z
  then map (fun k => k * (N / Z.to_nat cap)) (seq 0 (Z.to_nat cap))
  else seq 0 N.

(** A name that is present but consists of white space only. *)
Definition blank_name (o : option string) : bool :=
  truthy_opt o && negb (truthy (normalizeText (or_empty o))).

(** A character that neither the trimming of the URL parser nor the scheme
    repairs of [preSanitizeUrl] touch. *)
Definition url_safe (c : ascii) : bool :=
  negb (WHATWG.is_c0_or_space c) && negb (Ascii.eqb c ":").

(** No two slashes in a row. *)
Fixpoint single_slashes (s : string) : bool :=
  match s with
  | String a ((String b _) as rest) =>
      negb (Ascii.eqb a "/" && Ascii.eqb b "/") && single_slashes rest
  | _ => true
  end.

(** ** What the tiers of the safety net return *)

Section Outcomes.

Context {parser : URLParser} {dep : Deployment}.

(** What the scorer made of a catalog position. *)
Definition scored_position (pre : Pre.t) (i : nat) (s : Scored) : Prop :=
  idx s = i /\ nth_error catalog i = Some (profile s) /\
  score s = fastScore pre (augment i (profile s)).

(** The first ten strict hits, or failing those the first ten loose hits. *)
Definition fuzzy_hits (body : Body.t) : list (FuseResult unit) :=
  match firstn 10 (fuzzyIndex (query_text body)) with
  | [] => firstn 10 (fuzzyIndexLoose (query_text body))
  | strict => strict
  end.


End Outcomes.

(** ** Sample data: the catalog of tests/api.test.ts and small deployments *)

Definition acme : Profile :=
  mkProfile "https://acme.com" (Some "Acme Inc") (Some ["+14155551212"])
    (Some (mkSocial (Some ["https://facebook.com/acme"]))) (Some "123 Market St").

Definition contoso : Profile :=
  mkProfile "https://contoso.com" (Some "Contoso LLC") (Some ["+442071234567"])
    (Some (mkSocial None)) (Some "London").


(** A record whose name is a single space. *)
Definition blank_record : Profile :=
  mkProfile "https://blank.example" (Some " ") None None None.

(** A record whose website has no host. *)
Definition hostless_record : Profile := mkProfile "http://" None None None None.

(** A request with the four identifying fields only. *)
Definition query (n w p f : option string) : Body.t :=
  Body.mk n w p f None None None None None None.

(** What ECMAScript requires of [localeCompare]: a consistent comparator.
    A positive result one way is a negative result the other way, and the
    order is transitive. *)
Definition consistent_comparator (cmp : string -> string -> Z) : Prop :=
  (forall x y, (0 < cmp x y)%Z <-> (cmp y x < 0)%Z) /\
  (forall x y z, (cmp x y <= 0)%Z -> (cmp y z <= 0)%Z -> (cmp x z <= 0)%Z).

(** Code-unit order, a consistent comparator standing for [localeCompare]. *)
Definition code_unit_compare (a b : string) : Z :=
  match String_as_OT.cmp a b with Lt => (-1)%Z | Eq => 0%Z | Gt => 1%Z end.

(** Two records with the same name; the text index also covers the address. *)
Definition acme_paris : Profile :=
  mkProfile "https://acme-tools.fr" (Some "Acme Tools") None None (Some "12 rue de Rivoli, Paris").

Definition acme_london : Profile :=
  mkProfile "https://acme-tools.uk" (Some "Acme Tools") None None (Some "4 Fleet Street, London").

(** A deployment over these two records: for the query "Acme Tools London"
    the text index ranks the London record, which matches three terms,
    before the Paris record, which matches two. *)
Definition two_acmes : Deployment :=
  Build_Deployment [acme_paris; acme_london]
    (fun q => if String.eqb q "Acme Tools London" then [1; 0]
              else if String.eqb q "london" then [1] else [0; 1])
    (fun _ => []) (fun _ => []) [] (fun _ => [])
    2000 5000 code_unit_compare.

(** A branch office; sixteen of them share one switchboard number. *)
Definition branch : Profile :=
  mkProfile "https://branches.example" (Some "Branch Office") (Some ["+1 415 555 1212"])
    None None.

(** A request by phone for page 2 with a page size of 7.5. *)
Definition fractional_page_request : Body.t :=
  Body.mk None None (Some "4155551212") None (Some (Fin 2)) (Some (Fin 7.5))
    None None None None.


(** A deployment whose text engines find nothing. *)
Definition silent (cat : list Profile) (max_brute_force : Z) : Deployment :=
  Build_Deployment cat (fun _ => []) (fun _ => []) (fun _ => []) [] (fun _ => [])
    2000 max_brute_force code_unit_compare.

(** ** Pagination, page by page *)

Section Pages.

Context {parser : URLParser} {dep : Deployment}.

(** The same request, asking for page [p]. *)
Definition with_page (body : Body.t) (p : Z) : Body.t :=
  Body.mk (Body.name body) (Body.website body) (Body.phone body) (Body.facebook body)
    (Some (Fin (inject_Z p))) (Body.perPage body) (Body.sort body) (Body.dir body)
    (Body.minScore body) (Body.contains body).

(** The candidate pages 1 to [totalPages] of a request, one after another. *)
Definition all_pages (body : Body.t) (scored : list Scored) : list Scored :=
  flat_map (fun p => candidates (finalize (with_page body (Z.of_nat p)) scored))
    (seq 1 (Z.to_nat (totalPages (meta (finalize body scored))))).

(** The catalog positions whose record satisfies [p], in catalog order. *)
Definition positions (p : AugProfile -> bool) : list nat :=
  map _id (filter p profiles).

End Pages.

(** ** Error pages ([escapeHtml], server.ts) *)

(** [s.replace(/d/g, r)] for a one-character pattern [d]. *)
Fixpoint replace_all_char (d : ascii) (r : string) (s : string) : string :=
  match s with
  | EmptyString => EmptyString
  | String c s' =>
      if Ascii.eqb c d then (r ++ replace_all_char d r s')%string
      else String c (replace_all_char d r s')
  end.

Definition double_quote : ascii := ascii_of_nat 34.

Definition escapeHtml (str : string) : string :=
  replace_all_char "'" "&#39;"
    (replace_all_char double_quote "&quot;"
       (replace_all_char ">" "&gt;"
          (replace_all_char "<" "&lt;"
             (replace_all_char "&" "&amp;" str)))).

(** The entity that stands for a character in HTML text, or the character. *)
Definition html_entity (c : ascii) : string :=
  if Ascii.eqb c "&" then "&amp;"
  else if Ascii.eqb c "<" then "&lt;"
  else if Ascii.eqb c ">" then "&gt;"
  else if Ascii.eqb c double_quote then "&quot;"
  else if Ascii.eqb c "'" then "&#39;"
  else String c EmptyString.

(** One pass over the text, character by character. *)
Fixpoint escape_each (s : string) : string :=
  match s with
  | EmptyString => EmptyString
  | String c s' => (html_entity c ++ escape_each s')%string
  end.

(** ** The in-memory rate limiter (the [onRequest] hook of server.ts) *)

Module RateLimit.

(** A bucket [{ n, reset }]: the requests counted in the current window and
    the time, in milliseconds, at which the window ends. *)
Record Bucket : Type := mkBucket { n : Z; reset : Z }.

(** [buckets], a [Map<string, Bucket>]. *)
Definition Buckets : Type := string -> option Bucket.

Definition empty : Buckets := fun _ => None.

(** [buckets.set(ip, b)] *)
Definition set (buckets : Buckets) (ip : string) (b : Bucket) : Buckets :=
  fun k => if String.eqb k ip then Some b else buckets k.

(** What the hook reads of a request, and [Date.now()] at its arrival. *)
Record Request : Type := mkRequest {
  url : string;
  ip : option string;
  remoteAddress : option string;
  now : Z
}.

(** The hook either lets the request through or answers 429 with
    [retryAfterMs]. *)
Inductive Outcome : Type :=
| Pass
| TooManyRequests (retryAfterMs : Z).

(** [(req.ip || req.socket.remoteAddress || 'unknown').toString()] *)
Definition client (req : Request) : string :=
  if truthy_opt (ip req) then or_empty (ip req)
  else if truthy_opt (remoteAddress req) then or_empty (remoteAddress req)
  else "unknown".

Section Hook.

(** [RATE_LIMIT_MAX] and [RATE_LIMIT_WINDOW_MS], read as integers. *)
Variables RATE_MAX RATE_WIN : Z.

(** The bucket object is shared with the map, so [b.n++] is seen by the next
    request: the map holds the incremented bucket afterwards. *)
Definition onRequest (buckets : Buckets) (req : Request) : Buckets * Outcome :=
  if String.eqb (url req) "/health" then (buckets, Pass)
  else
    let ip := client req in
    let b :=
      match buckets ip with
      | Some b => if (reset b <? now req)%Z then mkBucket 0 (now req + RATE_WIN) else b
      | None => mkBucket 0 (now req + RATE_WIN)
      end in
    let b := mkBucket (n b + 1) (reset b) in
    (set buckets ip b,
     if (RATE_MAX <? n b)%Z then TooManyRequests (Z.max 0 (reset b - now req)) else Pass).

(** The hook over the requests of a run, in order of arrival. *)
Fixpoint serve (buckets : Buckets) (reqs : list Request) : list Outcome :=
  match reqs with
  | [] => []
  | req :: rest =>
      let (buckets', out) := onRequest buckets req in
      out :: serve buckets' rest
  end.

End Hook.

(** The requests of a run that the limiter counts for [who]. *)
Definition counted (who : string) (req : Request) : bool :=
  negb (String.eqb (url req) "/health") && String.eqb (client req) who.

Definition passed (o : Outcome) : bool :=
  match o with Pass => true | TooManyRequests _ => false end.

(** Whether each counted request of [who] in a run was let through. *)
Definition verdicts (RATE_MAX RATE_WIN : Z) (who : string) (buckets : Buckets)
  (reqs : list Request) : list bool :=
  map (fun p => passed (snd p))
    (filter (fun p => counted who (fst p))
       (combine reqs (serve RATE_MAX RATE_WIN buckets reqs))).

End RateLimit.

(** ** The scraper's pure helpers (scraper/extractors.ts, scraper/scrape.ts) *)

Module Scraper.

(** [/[()\.\-]/] *)
Definition is_phone_punctuation (c : ascii) : bool :=
  Ascii.eqb c "(" || Ascii.eqb c ")" || Ascii.eqb c "." || Ascii.eqb c "-".

(** [normalizePhone]; [None] is [undefined]. *)
Definition normalizePhone (p : string) : option string :=
  let cleaned :=
    replace_prefix "++" "+"
      (filter_str (fun c => negb (is_phone_punctuation c))
         (replace_runs is_ws " " (trim p))) in
  let digits := filter_str (fun c => is_digit c || Ascii.eqb c "+") cleaned in
  if String.length (filter_str is_digit digits) <? 7 then None else Some digits.

(** [uniq], on strings. *)
Definition uniq (arr : list string) : list string := new_Set arr.

(** What [extractFromHtml] returns.  [social] is an object from network name
    to links: its keys in insertion order, each key once. *)
Record Extract : Type := mkExtract {
  phones : list string;
  social : list (string * list string);
  address : option string
}.

(** [social[k] || []] *)
Fixpoint links (social : list (string * list string)) (k : string) : list string :=
  match social with
  | [] => []
  | (k', v) :: rest => if String.eqb k' k then v else links rest k
  end.

Definition mergeExtracts (a b : Extract) : Extract :=
  let phones := new_Set (phones a ++ phones b) in
  let keys := new_Set (map fst (social a) ++ map fst (social b)) in
  let social :=
    map (fun k => (k, new_Set (links (social a) k ++ links (social b) k))) keys in
  let address := if truthy_opt (address a) then address a else address b in
  mkExtract phones social address.

Definition hasSignals (ex : Extract) : bool :=
  (0 <? List.length (phones ex)) || existsb (fun a => 0 <? List.length a) (map snd (social ex)).

(** [buildUrlVariants]: [host] is [new URL(u).host], or [u] when the
    constructor throws. *)
Definition buildUrlVariants (host : string) : list string :=
  let bare :=
    strip_trailing_slash
      (match strip_http_scheme true host with Some rest => rest | None => host end) in
  let variants :=
    [("https://" ++ bare ++ "/")%string;
     ("http://" ++ bare ++ "/")%string;
     ("https://www." ++ bare ++ "/")%string;
     ("http://www." ++ bare ++ "/")%string;
     ("https://" ++ bare ++ "/index.html")%string;
     ("http://" ++ bare ++ "/index.html")%string;
     ("https://www." ++ bare ++ "/index.html")%string;
     ("http://www." ++ bare ++ "/index.html")%string;
     ("https://" ++ bare ++ "/contact")%string;
     ("https://www." ++ bare ++ "/contact")%string;
     ("https://" ++ bare ++ "/about")%string;
     ("https://www." ++ bare ++ "/about")%string] in
  new_Set variants.

End Scraper.

(** ** The merger (ingest/merge.ts) *)

Module Ingest.

(** A row of the names CSV: the columns the merger reads. *)
Record NamesRow : Type := mkNamesRow {
  website : option string;
  domain : option string;
  url : option string;
  name : option string;
  company_name : option string
}.

(** A row of [scraped.data]; [site] is its [website]. *)
Record ScrapedRow : Type := mkScrapedRow {
  site : string;
  phones : option (list string);
  social : option Social;
  address : option string
}.

(** [a || b] on optional strings. *)
Definition or_else (a b : option string) : option string :=
  if truthy_opt a then a else b.

Section Merge.

(** [canonicalizeWebsite]: the serialisation of the parsed URL without its
    fragment and without a slash at the end of its path, or the input when
    the constructor throws.  The URL object is the platform's: [parse] is the
    constructor, the other four are the accessors the function uses. *)
Variable U : Type.
Variable parse : string -> option U.
Variable set_hash : U -> string -> U.
Variable get_pathname : U -> string.
Variable set_pathname : U -> string -> U.
Variable toString : U -> string.

Definition canonicalizeWebsite (u : string) : string :=
  match parse (if startsWith "http" u then u else ("https://" ++ u)%string) with
  | Some url =>
      let url := set_hash url "" in
      let url := set_pathname url (strip_trailing_slash (get_pathname url)) in
      toString url
  | None => u
  end.

(** [nameByWebsite], a [Map<string, string>] of which only [get] is read:
    the latest [set] of a key is the one found. *)
Definition NameMap : Type := list (string * string).

Fixpoint get (m : NameMap) (k : string) : option string :=
  match m with
  | [] => None
  | (k', v) :: rest => if String.eqb k' k then Some v else get rest k
  end.

(** The first loop of [main]. *)
Definition nameByWebsite (nameRows : list NamesRow) : NameMap :=
  fold_left
    (fun m row =>
       let website :=
         canonicalizeWebsite
           (or_empty (or_else (or_else (website row) (domain row)) (url row))) in
       let name := trim (or_empty (or_else (name row) (company_name row))) in
       if truthy website && truthy name then (website, name) :: m else m)
    nameRows [].

(** The profiles [main] writes. *)
Definition merge (nameRows : list NamesRow) (scraped : list ScrapedRow) : list Profile :=
  let names := nameByWebsite nameRows in
  map (fun row =>
         mkProfile (site row)
           (or_else (get names (canonicalizeWebsite (site row))) None)
           (Some (or_nil (phones row)))
           (Some (match social row with Some s => s | None => mkSocial None end))
           (or_else (address row) None))
    scraped.

End Merge.

End Ingest.

(** ** Steps of the candidate discovery *)

(** A step of the discovery keeps what was found, adds no duplicate and
    stays within [P]. *)
Definition grows (P : nat -> Prop) (s s' : list nat) : Prop :=
  incl s s' /\ (NoDup s -> NoDup s') /\ (Forall P s -> Forall P s').

(** ** Addresses the parser covers *)

(** A host that the parser takes as it is: lower-case letters, digits,
    hyphens and dots, no [xn--] label and no number at the end. *)
Definition parsable_host (h : string) : bool :=
  truthy h && forall_str is_host_char h
  && negb (existsb WHATWG.is_xn_label (split_char "." h))
  && negb (WHATWG.ends_in_number h).

(** A query string or a fragment, or nothing. *)
Definition url_tail (t : string) : bool :=
  match t with
  | EmptyString => true
  | String c _ => WHATWG.is_path_end c && forall_str url_safe t && single_slashes t
  end.

(** The pathname of a parsed URL with the segments [segs]. *)
Definition pathname_of (segs : list string) : string :=
  match segs with
  | [] => "/"
  | _ => WHATWG.serialize_path segs
  end.

(** * Properties *)

(** ** Strings, sets and slices *)

Lemma truthy_true (s : string) : truthy s = true <-> s <> "".
Proof.
  unfold truthy. rewrite negb_true_iff. split; intro H.
  - intro E. subst. discriminate.
  - apply String.eqb_neq. exact H.
Qed.

Lemma truthy_false (s : string) : truthy s = false <-> s = "".
Proof.
  unfold truthy. rewrite negb_false_iff. apply String.eqb_eq.
Qed.

Lemma has_In (x : string) (l : list string) : has x l = true <-> In x l.
Proof.
  unfold has. rewrite existsb_exists. split.
  - intros [y [Hy E]]. apply String.eqb_eq in E. subst. exact Hy.
  - intro H. exists x. split; [exact H | apply String.eqb_refl].
Qed.

Lemma new_Set_In (x : string) (l : list string) : In x (new_Set l) <-> In x l.
Proof.
  induction l as [| y l IH]; simpl; [tauto |].
  rewrite filter_In, IH, negb_true_iff, String.eqb_neq.
  destruct (string_dec y x); intuition congruence.
Qed.

Lemma new_Set_NoDup (l : list string) : NoDup (new_Set l).
Proof.
  induction l as [| y l IH]; simpl; constructor.
  - rewrite filter_In, negb_true_iff, String.eqb_neq. tauto.
  - apply NoDup_filter. exact IH.
Qed.

Lemma filter_Boolean_In (x : string) (l : list string) :
  In x (filter_Boolean l) <-> In x l /\ x <> "".
Proof.
  unfold filter_Boolean. rewrite filter_In, truthy_true. tauto.
Qed.

Lemma forall_str_filter (p : ascii -> bool) (s : string) :
  forall_str p (filter_str p s) = true.
Proof.
  induction s as [| c s IH]; simpl; [reflexivity |].
  destruct (p c) eqn:E; simpl; [rewrite E |]; exact IH.
Qed.

Lemma forall_str_app (p : ascii -> bool) (s t : string) :
  forall_str p (s ++ t) = forall_str p s && forall_str p t.
Proof.
  induction s as [| c s IH]; simpl; [reflexivity |].
  rewrite IH. apply andb_assoc.
Qed.

Lemma length_append (s t : string) :
  String.length (s ++ t) = String.length s + String.length t.
Proof.
  induction s as [| c s IH]; simpl; [reflexivity | now rewrite IH].
Qed.

Lemma substring_all (s : string) (m : nat) :
  String.length s <= m -> substring 0 m s = s.
Proof.
  revert m. induction s as [| c s IH]; intros m H.
  - destruct m; reflexivity.
  - destruct m as [| m]; simpl in *; [lia |]. now rewrite IH by lia.
Qed.

Lemma substring_suffix (s : string) (n m : nat) :
  n + m = String.length s ->
  exists front, s = (front ++ substring n m s)%string /\ String.length front = n.
Proof.
  revert n. induction s as [| c s IH]; intros n H; simpl in H.
  - assert (n = 0) by lia. assert (m = 0) by lia. subst. exists "". split; reflexivity.
  - destruct n as [| n].
    + exists "". split; [| reflexivity]. now rewrite substring_all by (simpl; lia).
    + destruct (IH n) as [front [E L]]; [lia |].
      exists (String c front). simpl. split; [now rewrite <- E | now rewrite L].
Qed.

(** [s.slice(-n)] is the suffix of the last [n] code units. *)
Lemma slice_last_suffix (n : nat) (s : string) :
  exists front,
    s = (front ++ slice_last n s)%string /\
    String.length (slice_last n s) = Nat.min n (String.length s).
Proof.
  unfold slice_last.
  destruct (le_lt_dec (String.length s) n) as [H | H].
  - replace (String.length s - n) with 0 by lia.
    rewrite substring_all by exact H.
    exists "". split; [reflexivity | lia].
  - destruct (substring_suffix s (String.length s - n) n) as [front [E L]]; [lia |].
    exists front. split; [exact E |].
    apply (f_equal String.length) in E. rewrite length_append in E. lia.
Qed.


(** ** The phone key *)

(** C7. [last10] (the specification's [phoneKey]) keeps digits only, and of
    them the last ten: the key consists of digits, it is a suffix of the
    digit string of the input and has ten characters when there are that
    many; the three spellings of the specification give the same key. *)
Theorem phoneKey_last_ten_digits :
  (forall raw : string,
      forall_str is_digit (last10 raw) = true /\
      String.length (last10 raw) = Nat.min 10 (String.length (digits raw)) /\
      exists front, digits raw = (front ++ last10 raw)%string) /\
  last10 "+1 (415) 555-1212" = "4155551212" /\
  last10 "14155551212" = "4155551212" /\
  last10 "4155551212" = "4155551212".
Proof.
  split; [| repeat split; reflexivity].
  intro raw. unfold last10.
  destruct (slice_last_suffix 10 (digits raw)) as [front [E L]].
  repeat split.
  - pose proof (forall_str_filter is_digit raw) as F.
    fold (digits raw) in F. rewrite E, forall_str_app in F.
    apply andb_true_iff in F. apply F.
  - exact L.
  - exists front. exact E.
Qed.

(** ** Scheme repair *)

(** C9. The duplicated scheme with a missing colon is repaired before the
    URL is parsed, the host is kept and the root path dropped. *)
Theorem canonicalUrl_repairs_scheme_typo :
  preSanitizeUrl "https://https//acornlawpc.com/" = "https://acornlawpc.com/" /\
  new_URL "https://acornlawpc.com/" = Some (mkURL "acornlawpc.com" "/") /\
  canonicalUrl "https://https//acornlawpc.com/" = "acornlawpc.com".
Proof.
  repeat split; reflexivity.
Qed.

(** ** Short phone keys *)




Lemma phone_key_set (parser : URLParser) (i : nat) (p : Profile) (k : string) :
  has k (_last10Phones (augment i p)) = true <->
  k <> "" /\ exists ph, In ph (or_nil (phones p)) /\ last10 ph = k.
Proof.
  simpl. rewrite has_In, new_Set_In, filter_Boolean_In, in_map_iff.
  unfold lastTenDigits. split.
  - intros [[ph [E H]] N]. split; [exact N |]. exists ph. tauto.
  - intros [N [ph [H E]]]. split; [| exact N]. exists ph. tauto.
Qed.




(** ** Jaccard similarity and the edit-distance table *)

Lemma nodup_same_length (l l' : list string) :
  NoDup l -> NoDup l' -> (forall x, In x l <-> In x l') -> List.length l = List.length l'.
Proof.
  intros N N' H. apply Permutation_length. now apply NoDup_Permutation.
Qed.

Lemma jaccard_sizes (a b : list string) :
  let A := new_Set a in
  let B := new_Set b in
  let inter := List.length (filter (fun x => has x B) A) in
  List.length (new_Set (filter (fun x => has x b) a)) = inter /\
  List.length (new_Set (a ++ b)) = List.length A + List.length B - inter /\
  inter <= List.length B.
Proof.
  intros A B inter. subst inter.
  assert (common : List.length (filter (fun x => has x B) A)
                   = List.length (filter (fun x => has x A) B)).
  { apply nodup_same_length; try (apply NoDup_filter; apply new_Set_NoDup).
    intro x. rewrite !filter_In, !has_In. tauto. }
  split; [| split].
  - apply nodup_same_length;
      [apply new_Set_NoDup | apply NoDup_filter; apply new_Set_NoDup |].
    intro x. subst A B. rewrite new_Set_In, !filter_In, !has_In, !new_Set_In. tauto.
  - pose proof (filter_length (fun x => has x A) B) as part.
    assert (whole : List.length (new_Set (a ++ b))
                    = List.length (A ++ filter (fun x => negb (has x A)) B)).
    { apply nodup_same_length.
      - apply new_Set_NoDup.
      - apply NoDup_app; [apply new_Set_NoDup | apply NoDup_filter; apply new_Set_NoDup |].
        intros x HA HB. apply filter_In in HB. destruct HB as [_ HB].
        apply negb_true_iff in HB. apply has_In in HA. congruence.
      - intro x. subst A B.
        rewrite new_Set_In, !in_app_iff, filter_In, negb_true_iff, !new_Set_In.
        destruct (has x (new_Set a)) eqn:E.
        + apply has_In in E. rewrite new_Set_In in E. intuition congruence.
        + assert (~ In x a).
          { intro H. rewrite <- new_Set_In, <- has_In in H. congruence. }
          tauto. }
    cbv beta in part. rewrite whole, length_app, common. lia.
  - rewrite common. apply filter_length_le.
Qed.

Lemma Qdiv_0_l (q : Q) : (0 / q == 0)%Q.
Proof. unfold Qdiv. ring. Qed.

(** The source's [jaccard] is the Jaccard similarity of the token sets. *)
Lemma jaccard_is_token_set_jaccard (a b : list string) :
  (jaccard a b == token_set_jaccard a b)%Q.
Proof.
  unfold token_set_jaccard.
  destruct a as [| x a].
  - simpl. symmetry. apply Qdiv_0_l.
  - destruct b as [| y b].
    + replace (filter (fun z => has z []) (x :: a)) with (@nil string).
      * simpl. symmetry. apply Qdiv_0_l.
      * symmetry. clear. induction (x :: a) as [| z l IH]; simpl; auto.
    + destruct (jaccard_sizes (x :: a) (y :: b)) as [I [U _]].
      cbv zeta in I, U. rewrite I, U. reflexivity.
Qed.

Lemma length_list_ascii (s : string) :
  List.length (list_ascii_of_string s) = String.length s.
Proof.
  induction s as [| c s IH]; simpl; [reflexivity | now rewrite IH].
Qed.

Section EditDistance.

Variables a b : list ascii.

Let L (i j : nat) : nat := levenshtein_at a b i j.

Let row_spec (i : nat) : list nat := map (L i) (seq 0 (S (List.length b))).

Lemma levenshtein_at_0 (j : nat) : levenshtein_at a b 0 j = j.
Proof. reflexivity. Qed.

Lemma levenshtein_at_S_0 (i : nat) : levenshtein_at a b (S i) 0 = S i.
Proof. reflexivity. Qed.

Lemma levenshtein_at_S_S (i j : nat) :
  levenshtein_at a b (S i) (S j)
  = Nat.min (Nat.min (levenshtein_at a b i (S j) + 1) (levenshtein_at a b (S i) j + 1))
            (levenshtein_at a b i j
             + if Ascii.eqb (nth i a zero) (nth j b zero) then 0 else 1).
Proof. reflexivity. Qed.

Lemma skipn_cons_nth {A : Type} (l : list A) (j : nat) (x d : A) (rest : list A) :
  skipn j l = x :: rest -> nth j l d = x /\ skipn (S j) l = rest /\ j < List.length l.
Proof.
  revert j. induction l as [| y l IH]; intros j H.
  - destruct j; discriminate.
  - destruct j as [| j]; simpl in *.
    + inversion H. repeat split. lia.
    + destruct (IH j H) as [E1 [E2 E3]]. repeat split; auto. lia.
Qed.

Lemma fill_row_spec (i : nat) (bs : list ascii) :
  forall j,
    skipn j b = bs -> j <= List.length b ->
    fill_row (nth i a zero) bs (map (L i) (seq j (S (List.length b - j)))) (L (S i) j)
    = map (L (S i)) (seq (S j) (List.length b - j)).
Proof.
  induction bs as [| bj bs IH]; intros j E Hj.
  - assert (List.length b - j = 0).
    { apply (f_equal (@List.length ascii)) in E. rewrite length_skipn in E. simpl in E. lia. }
    rewrite H. reflexivity.
  - destruct (skipn_cons_nth b j bj zero bs E) as [N [E' Lt]].
    replace (List.length b - j) with (S (List.length b - S j)) by lia.
    cbn [seq map fill_row].
    rewrite <- N. unfold L at 2 3 4 5. rewrite <- levenshtein_at_S_S. fold (L (S i) (S j)).
    f_equal.
    specialize (IH (S j) E' ltac:(lia)).
    cbn [seq map] in IH. exact IH.
Qed.

Lemma fill_rows_spec (rest : list ascii) :
  forall i,
    skipn i a = rest ->
    fill_rows rest b (row_spec i) (S i) = map row_spec (seq (S i) (List.length a - i)).
Proof.
  induction rest as [| ai rest IH]; intros i E.
  - assert (List.length a - i = 0).
    { apply (f_equal (@List.length ascii)) in E. rewrite length_skipn in E. simpl in E. lia. }
    rewrite H. reflexivity.
  - destruct (skipn_cons_nth a i ai zero rest E) as [N [E' Lt]].
    replace (List.length a - i) with (S (List.length a - S i)) by lia.
    cbn [seq map fill_rows].
    assert (R : S i :: fill_row ai b (row_spec i) (S i) = row_spec (S i)).
    { unfold row_spec at 2. cbn [seq map]. f_equal.
      pose proof (fill_row_spec i b 0 eq_refl ltac:(lia)) as F.
      rewrite Nat.sub_0_r, N in F. exact F. }
    rewrite R. f_equal. apply IH. exact E'.
Qed.

Lemma dp_table_spec :
  dp_table a b = map row_spec (seq 0 (S (List.length a))).
Proof.
  assert (R0 : row_spec 0 = seq 0 (S (List.length b))).
  { unfold row_spec. rewrite (map_ext (L 0) (fun j => j)) by reflexivity. apply map_id. }
  unfold dp_table. cbv zeta. rewrite <- R0.
  change (seq 0 (S (List.length a))) with (0 :: seq 1 (List.length a)).
  cbn [map]. f_equal.
  pose proof (fill_rows_spec a 0 eq_refl) as F. rewrite Nat.sub_0_r in F. exact F.
Qed.

(** The entry [dp[m][n]] of the filled table is the Levenshtein distance. *)
Lemma dp_table_distance :
  nth (List.length b) (nth (List.length a) (dp_table a b) []) 0
  = levenshtein_at a b (List.length a) (List.length b).
Proof.
  rewrite dp_table_spec.
  assert (R : nth (List.length a) (map row_spec (seq 0 (S (List.length a)))) []
              = row_spec (List.length a)).
  { rewrite nth_indep with (d' := row_spec 0) by (rewrite length_map, length_seq; lia).
    rewrite map_nth, seq_nth by lia. reflexivity. }
  rewrite R. unfold row_spec.
  rewrite nth_indep with (d' := L (List.length a) 0) by (rewrite length_map, length_seq; lia).
  rewrite map_nth, seq_nth by lia. reflexivity.
Qed.

End EditDistance.

(** The source's [levenshteinRatio] is the edit-distance ratio. *)
Lemma levenshteinRatio_is_edit_distance_ratio (a b : string) :
  (levenshteinRatio a b == edit_distance_ratio a b)%Q.
Proof.
  unfold levenshteinRatio, edit_distance_ratio, levenshtein.
  pose proof (dp_table_distance (list_ascii_of_string a) (list_ascii_of_string b)) as D.
  rewrite !length_list_ascii in D. rewrite D.
  destruct a as [| x a]; destruct b as [| y b]; reflexivity.
Qed.

(** ** Whitespace and normalisation *)

Lemma is_ws_lower_char (c : ascii) : is_ws (lower_char c) = is_ws c.
Proof.
  destruct c as [[] [] [] [] [] [] [] []]; reflexivity.
Qed.

Lemma trimStart_empty (s : string) : trimStart s = "" <-> forall_str is_ws s = true.
Proof.
  induction s as [| c s IH]; simpl; [tauto |].
  destruct (is_ws c); simpl; [exact IH |]. split; discriminate.
Qed.

Lemma trimStart_head (s : string) (c : ascii) (t : string) :
  trimStart s = String c t -> is_ws c = false.
Proof.
  induction s as [| d s IH]; simpl; [discriminate |].
  destruct (is_ws d) eqn:E; [exact IH |]. intro H. inversion H. now subst.
Qed.

Lemma trimEnd_head (c : ascii) (t : string) :
  is_ws c = false -> exists t', trimEnd (String c t) = String c t'.
Proof.
  intro H. simpl. destruct (trimEnd t); rewrite ?H; eauto.
Qed.

Lemma trim_empty (s : string) : trim s = "" <-> forall_str is_ws s = true.
Proof.
  unfold trim. rewrite <- trimStart_empty.
  destruct (trimStart s) as [| c t] eqn:E; [tauto |].
  destruct (trimEnd_head c t (trimStart_head s c t E)) as [t' H].
  rewrite H. split; discriminate.
Qed.

Lemma trim_not_blank (s : string) : trim s <> "" -> forall_str is_ws (trim s) = false.
Proof.
  unfold trim. destruct (trimStart s) as [| c t] eqn:E; [simpl; congruence |].
  intros _. pose proof (trimStart_head s c t E) as W.
  destruct (trimEnd_head c t W) as [t' H]. rewrite H. simpl. now rewrite W.
Qed.

Lemma forall_ws_toLowerCase (s : string) :
  forall_str is_ws (toLowerCase s) = forall_str is_ws s.
Proof.
  unfold toLowerCase. induction s as [| c s IH]; simpl; [reflexivity |].
  now rewrite is_ws_lower_char, IH.
Qed.

Lemma normalizeText_empty (s : string) :
  normalizeText s = "" <-> forall_str is_ws s = true.
Proof.
  unfold normalizeText. split; intro H.
  - apply trim_empty in H. now rewrite forall_ws_toLowerCase in H.
  - apply trim_empty. now rewrite forall_ws_toLowerCase.
Qed.

(** A trimmed non-empty string has a non-empty normal form. *)
Lemma normalizeText_trim (s : string) :
  truthy (trim s) = true -> truthy (normalizeText (trim s)) = true.
Proof.
  rewrite !truthy_true. intros H E.
  apply normalizeText_empty in E. rewrite (trim_not_blank s H) in E. discriminate.
Qed.

(** ** The two scorers, signal by signal *)

Lemma if_add (b : bool) (s k : Q) :
  ((if b then s + k else s) == s + (if b then k else 0))%Q.
Proof. destruct b; ring. Qed.

Lemma bucket_comp (table : list (Q * Q)) (x y : Q) :
  (x == y)%Q -> bucket table x = bucket table y.
Proof.
  intro H. induction table as [| [t p] rest IH]; simpl; [reflexivity |].
  now rewrite H, IH.
Qed.

Lemma name_buckets (g e : bool) (j l s : Q) :
  ((if g then
      if e then s + 3
      else
        if Qle_bool 0.9 l then
          (if Qle_bool 0.8 j then s + 2 else if Qle_bool 0.5 j then s + 1.5
           else if Qle_bool 0.3 j then s + 1 else if Qle_bool 0.25 j then s + 0.5 else s)
          + 1.5
        else if Qle_bool 0.8 l then
          (if Qle_bool 0.8 j then s + 2 else if Qle_bool 0.5 j then s + 1.5
           else if Qle_bool 0.3 j then s + 1 else if Qle_bool 0.25 j then s + 0.5 else s)
          + 1
        else
          (if Qle_bool 0.8 j then s + 2 else if Qle_bool 0.5 j then s + 1.5
           else if Qle_bool 0.3 j then s + 1 else if Qle_bool 0.25 j then s + 0.5 else s)
    else s)
   == s + (if g then
             if e then 3
             else bucket name_jaccard_table j + bucket edit_ratio_table l
           else 0))%Q.
Proof.
  unfold name_jaccard_table, edit_ratio_table. cbn [bucket].
  destruct g, e; try ring;
    destruct (Qle_bool 0.9 l), (Qle_bool 0.8 l), (Qle_bool 0.8 j), (Qle_bool 0.5 j),
      (Qle_bool 0.3 j), (Qle_bool 0.25 j); ring.
Qed.

Lemma domain_buckets (g : bool) (j s : Q) :
  ((if g then
      if Qle_bool 0.8 j then s + 2 else if Qle_bool 0.6 j then s + 1.5
      else if Qle_bool 0.4 j then s + 1 else if Qle_bool 0.25 j then s + 0.5 else s
    else s)
   == s + (if g then bucket domain_jaccard_table j else 0))%Q.
Proof.
  unfold domain_jaccard_table. cbn [bucket].
  destruct g; try ring;
    destruct (Qle_bool 0.8 j), (Qle_bool 0.6 j), (Qle_bool 0.4 j), (Qle_bool 0.25 j); ring.
Qed.

Section FastScoreSteps.

Variables (pre : Pre.t) (c : AugProfile).

Let fast_site (s : Q) : Q :=
  if truthy (Pre.canonSite pre) && String.eqb (Pre.canonSite pre) (_canonSite c)
  then (s + 5)%Q else s.

Let fast_name (s : Q) : Q :=
  if truthy (Pre.nameNorm pre) && truthy (_nameNorm c) then
    if String.eqb (Pre.nameNorm pre) (_nameNorm c) then (s + 3)%Q
    else
      let j := jaccard (Pre.nameTokens pre) (_nameTokens c) in
      let s :=
        if Qle_bool 0.8 j then (s + 2)%Q
        else if Qle_bool 0.5 j then (s + 1.5)%Q
        else if Qle_bool 0.3 j then (s + 1)%Q
        else if Qle_bool 0.25 j then (s + 0.5)%Q
        else s in
      let lev := levenshteinRatio (Pre.nameNorm pre) (_nameNorm c) in
      if Qle_bool 0.9 lev then (s + 1.5)%Q
      else if Qle_bool 0.8 lev then (s + 1)%Q
      else s
  else s.

Let fast_domain (s : Q) : Q :=
  if nonempty (Pre.domainTokens pre) && nonempty (_domainTokens c) then
    let jw := jaccard (Pre.domainTokens pre) (_domainTokens c) in
    if Qle_bool 0.8 jw then (s + 2)%Q
    else if Qle_bool 0.6 jw then (s + 1.5)%Q
    else if Qle_bool 0.4 jw then (s + 1)%Q
    else if Qle_bool 0.25 jw then (s + 0.5)%Q
    else s
  else s.

Let fast_phone (s : Q) : Q :=
  if truthy (Pre.phone10 pre) && has (Pre.phone10 pre) (_last10Phones c)
  then (s + 3)%Q else s.

Let fast_facebook (s : Q) : Q :=
  if truthy (Pre.fbHandle pre) && has (Pre.fbHandle pre) (_fbHandles c)
  then (s + 4)%Q else s.

Lemma fastScore_steps :
  fastScore pre c = fast_facebook (fast_phone (fast_domain (fast_name (fast_site 0%Q)))).
Proof. reflexivity. Qed.

(** [fastScore] adds one contribution per signal. *)
Lemma fastScore_sum :
  (fastScore pre c ==
   (if truthy (Pre.canonSite pre) && String.eqb (Pre.canonSite pre) (_canonSite c)
    then 5 else 0)
   + (if truthy (Pre.nameNorm pre) && truthy (_nameNorm c) then
        if String.eqb (Pre.nameNorm pre) (_nameNorm c) then 3
        else bucket name_jaccard_table (jaccard (Pre.nameTokens pre) (_nameTokens c))
             + bucket edit_ratio_table (levenshteinRatio (Pre.nameNorm pre) (_nameNorm c))
      else 0)
   + (if nonempty (Pre.domainTokens pre) && nonempty (_domainTokens c)
      then bucket domain_jaccard_table (jaccard (Pre.domainTokens pre) (_domainTokens c))
      else 0)
   + (if truthy (Pre.phone10 pre) && has (Pre.phone10 pre) (_last10Phones c)
      then 3 else 0)
   + (if truthy (Pre.fbHandle pre) && has (Pre.fbHandle pre) (_fbHandles c)
      then 4 else 0))%Q.
Proof.
  rewrite fastScore_steps.
  unfold fast_facebook. rewrite if_add.
  unfold fast_phone. rewrite if_add.
  unfold fast_domain. cbv zeta. rewrite domain_buckets.
  unfold fast_name. cbv zeta. rewrite name_buckets.
  unfold fast_site. rewrite if_add.
  ring.
Qed.

End FastScoreSteps.

Section ScoreMatchSteps.

Context {parser : URLParser}.
Variables (body : Body.t) (c : AugProfile).

Let input : Partial.t := inputForScore body.

Let match_site (s : Q) : Q :=
  when_present (Partial.website input)
    (fun w =>
       let wantCanon := canonicalUrl w in
       if truthy wantCanon && String.eqb wantCanon (_canonSite c)
       then (s + 5)%Q else s)
    s.

Let match_name (s : Q) : Q :=
  if truthy_opt (Partial.name input) && truthy_opt (name (base c)) then
    let a := normalizeString (or_empty (Partial.name input)) in
    let b := if truthy (_nameNorm c) then _nameNorm c
             else normalizeString (or_empty (name (base c))) in
    if String.eqb a b then (s + 3)%Q
    else
      let j := jaccardSimilarity (tokenizeName a) (_nameTokens c) in
      let s :=
        if Qle_bool 0.8 j then (s + 2)%Q
        else if Qle_bool 0.5 j then (s + 1.5)%Q
        else if Qle_bool 0.3 j then (s + 1)%Q
        else if Qle_bool 0.25 j then (s + 0.5)%Q
        else s in
      let lev := levenshteinRatio a b in
      if Qle_bool 0.9 lev then (s + 1.5)%Q
      else if Qle_bool 0.8 lev then (s + 1)%Q
      else s
  else s.

Let match_domain (s : Q) : Q :=
  when_present (Partial.website input)
    (fun w =>
       let aHost := getHost w in
       if truthy aHost then
         let aTok := tokenizeDomain aHost in
         let bTok := _domainTokens c in
         if nonempty bTok then
           let jw := jaccardSimilarity aTok bTok in
           if Qle_bool 0.8 jw then (s + 2)%Q
           else if Qle_bool 0.6 jw then (s + 1.5)%Q
           else if Qle_bool 0.4 jw then (s + 1)%Q
           else if Qle_bool 0.25 jw then (s + 0.5)%Q
           else s
         else s
       else s)
    s.

Let match_phone (s : Q) : Q :=
  match Partial.phones input with
  | Some ps =>
      if existsb (fun p => has (lastTenDigits p) (_last10Phones c)) ps
      then (s + 3)%Q else s
  | None => s
  end.

Let match_facebook (s : Q) : Q :=
  let inFb :=
    let first := match Partial.social input with
                 | Some so => match facebook so with
                              | Some (x :: _) => Some x
                              | _ => None
                              end
                 | None => None
                 end in
    if truthy_opt first then first else Partial.facebook input in
  when_present inFb
    (fun fb =>
       let wantFb := canonicalFacebook fb in
       if has wantFb (_fbHandles c) then (s + 4)%Q else s)
    s.

Lemma scoreMatch_steps :
  scoreMatch input c
  = match_facebook (match_phone (match_domain (match_name (match_site 0%Q)))).
Proof. reflexivity. Qed.

Lemma match_site_adds (s : Q) : (match_site s == s + website_points body c)%Q.
Proof.
  unfold match_site, website_points, input, inputForScore, when_present.
  cbn [Partial.website].
  destruct (Body.website body) as [w |]; [destruct (truthy w) |]; try ring.
  cbv zeta. apply if_add.
Qed.

Lemma match_name_adds (s : Q) :
  (match_name s ==
   s + (if truthy_opt (Body.name body) && truthy_opt (name (base c)) then
          let a := normalizeText (or_empty (Body.name body)) in
          let b := if truthy (_nameNorm c) then _nameNorm c
                   else normalizeText (or_empty (name (base c))) in
          if String.eqb a b then 3
          else bucket name_jaccard_table (jaccard (nameTokens a) (_nameTokens c))
               + bucket edit_ratio_table (levenshteinRatio a b)
        else 0))%Q.
Proof.
  unfold match_name, input, inputForScore. cbn [Partial.name]. cbv zeta.
  unfold normalizeString, jaccardSimilarity, tokenizeName.
  apply name_buckets.
Qed.

Lemma match_domain_adds (s : Q) :
  (match_domain s ==
   s + when_present (Body.website body)
         (fun w =>
            if truthy (extractHost w) && nonempty (_domainTokens c)
            then bucket domain_jaccard_table
                   (jaccard (domainTokens (extractHost w)) (_domainTokens c))
            else 0) 0)%Q.
Proof.
  unfold match_domain, input, inputForScore, when_present.
  cbn [Partial.website]. cbv zeta.
  unfold getHost, tokenizeDomain, jaccardSimilarity.
  destruct (Body.website body) as [w |]; [destruct (truthy w) |]; try ring.
  destruct (truthy (extractHost w)); [| simpl; ring].
  rewrite andb_true_l. apply domain_buckets.
Qed.

Lemma match_phone_adds (s : Q) : (match_phone s == s + phone_points body c)%Q.
Proof.
  unfold match_phone, phone_points, input, inputForScore, when_present.
  cbn [Partial.phones]. unfold lastTenDigits.
  destruct (Body.phone body) as [ph |]; [destruct (truthy ph) |]; try ring.
  cbn [existsb]. rewrite orb_false_r. apply if_add.
Qed.

Lemma match_facebook_adds (s : Q) : (match_facebook s == s + facebook_points body c)%Q.
Proof.
  unfold match_facebook, facebook_points, input, inputForScore, when_present.
  cbn [Partial.social Partial.facebook]. cbv zeta.
  destruct (Body.facebook body) as [fb |]; [destruct (truthy fb) eqn:T |];
    cbn [facebook truthy_opt]; rewrite ?T; try ring.
  apply if_add.
Qed.

(** [scoreMatch] adds one contribution per signal. *)
Lemma scoreMatch_sum :
  (scoreMatch (inputForScore body) c ==
   website_points body c
   + (if truthy_opt (Body.name body) && truthy_opt (name (base c)) then
        let a := normalizeText (or_empty (Body.name body)) in
        let b := if truthy (_nameNorm c) then _nameNorm c
                 else normalizeText (or_empty (name (base c))) in
        if String.eqb a b then 3
        else bucket name_jaccard_table (jaccard (nameTokens a) (_nameTokens c))
             + bucket edit_ratio_table (levenshteinRatio a b)
      else 0)
   + when_present (Body.website body)
       (fun w =>
          if truthy (extractHost w) && nonempty (_domainTokens c)
          then bucket domain_jaccard_table
                 (jaccard (domainTokens (extractHost w)) (_domainTokens c))
          else 0) 0
   + phone_points body c
   + facebook_points body c)%Q.
Proof.
  fold input. rewrite scoreMatch_steps.
  rewrite match_facebook_adds, match_phone_adds, match_domain_adds, match_name_adds,
    match_site_adds.
  ring.
Qed.

End ScoreMatchSteps.

(** ** Records built by the feature builder *)

Lemma fb_handle_set (parser : URLParser) (i : nat) (p : Profile) (k : string) :
  has k (_fbHandles (augment i p)) = true -> k <> "".
Proof.
  simpl. rewrite has_In, new_Set_In, filter_Boolean_In. tauto.
Qed.

Lemma no_empty_phone_key (parser : URLParser) (i : nat) (p : Profile) :
  has "" (_last10Phones (augment i p)) = false.
Proof.
  apply not_true_is_false. rewrite phone_key_set. intros [N _]. now apply N.
Qed.

Lemma no_empty_fb_handle (parser : URLParser) (i : nat) (p : Profile) :
  has "" (_fbHandles (augment i p)) = false.
Proof.
  apply not_true_is_false. intro H. now apply fb_handle_set in H.
Qed.

Lemma augment_nameNorm (parser : URLParser) (i : nat) (p : Profile) :
  _nameNorm (augment i p)
  = if truthy_opt (name p) then normalizeText (or_empty (name p)) else "".
Proof.
  simpl. destruct (name p) as [n |]; simpl; [destruct (truthy n) |]; reflexivity.
Qed.

Lemma augment_nameTokens_empty (parser : URLParser) (i : nat) (p : Profile) :
  truthy (_nameNorm (augment i p)) = false -> _nameTokens (augment i p) = [].
Proof.
  simpl. intro H. now rewrite H.
Qed.

(** ** Degenerate similarities *)

Lemma jaccard_empty (a b : list string) :
  nonempty a && nonempty b = false -> jaccard a b = 0%Q.
Proof.
  destruct a, b; simpl; intro H; try reflexivity. discriminate.
Qed.

Lemma Qdiv_same_nat (m : nat) :
  m <> 0 -> (1 - inject_Z (Z.of_nat m) / inject_Z (Z.of_nat m) == 0)%Q.
Proof.
  intro H. unfold Qdiv. rewrite Qmult_inv_r; [ring |].
  unfold Qeq. simpl. lia.
Qed.

Lemma string_length_0 (s : string) : String.length s = 0 <-> s = "".
Proof.
  destruct s; simpl; split; intro H; congruence.
Qed.

Lemma levenshteinRatio_empty_r (a : string) :
  a <> "" -> (levenshteinRatio a "" == 0)%Q.
Proof.
  intro H. rewrite levenshteinRatio_is_edit_distance_ratio.
  unfold edit_distance_ratio, levenshtein.
  destruct (String.eqb_spec a ""); [contradiction |]. cbn [andb].
  replace (levenshtein_at (list_ascii_of_string a) (list_ascii_of_string "")
             (String.length a) (String.length ""))
    with (String.length a) by (destruct (String.length a); reflexivity).
  cbn [String.length]. rewrite Nat.max_0_r. apply Qdiv_same_nat.
  now rewrite string_length_0.
Qed.

Lemma levenshteinRatio_empty_l (b : string) :
  b <> "" -> (levenshteinRatio "" b == 0)%Q.
Proof.
  intro H. rewrite levenshteinRatio_is_edit_distance_ratio.
  unfold edit_distance_ratio, levenshtein.
  destruct (String.eqb_spec b ""); [contradiction |]. cbn [andb String.eqb].
  cbn [String.length levenshtein_at Nat.max]. apply Qdiv_same_nat.
  now rewrite string_length_0.
Qed.

(** ** The contributions of the two scorers coincide *)

Section Contributions.

Context {parser : URLParser}.
Variables (body : Body.t) (i : nat) (p : Profile).

Let c : AugProfile := augment i p.
Let pre : Pre.t := precompute body.

Lemma fast_website_part :
  (if truthy (Pre.canonSite pre) && String.eqb (Pre.canonSite pre) (_canonSite c)
   then 5 else 0)%Q
  = website_points body c.
Proof.
  unfold pre, precompute, website_points, when_present. cbn [Pre.canonSite].
  destruct (Body.website body) as [w |]; [destruct (truthy w) |]; reflexivity.
Qed.

Lemma fast_phone_part :
  (if truthy (Pre.phone10 pre) && has (Pre.phone10 pre) (_last10Phones c)
   then 3 else 0)%Q
  = phone_points body c.
Proof.
  unfold pre, precompute, phone_points, when_present. cbn [Pre.phone10].
  destruct (Body.phone body) as [ph |]; [destruct (truthy ph) |]; try reflexivity.
  destruct (truthy (last10 ph)) eqn:T; [reflexivity |].
  apply truthy_false in T. rewrite T. unfold c. now rewrite no_empty_phone_key.
Qed.

Lemma fast_facebook_part :
  (if truthy (Pre.fbHandle pre) && has (Pre.fbHandle pre) (_fbHandles c)
   then 4 else 0)%Q
  = facebook_points body c.
Proof.
  unfold pre, precompute, facebook_points, when_present. cbn [Pre.fbHandle].
  destruct (Body.facebook body) as [fb |]; [destruct (truthy fb) |]; try reflexivity.
  destruct (truthy (canonicalFacebook fb)) eqn:T; [reflexivity |].
  apply truthy_false in T. rewrite T. unfold c. now rewrite no_empty_fb_handle.
Qed.

Lemma match_domain_part :
  when_present (Body.website body)
    (fun w =>
       if truthy (extractHost w) && nonempty (_domainTokens c)
       then bucket domain_jaccard_table
              (jaccard (domainTokens (extractHost w)) (_domainTokens c))
       else 0%Q) 0%Q
  = (if nonempty (Pre.domainTokens pre) && nonempty (_domainTokens c)
     then bucket domain_jaccard_table (jaccard (Pre.domainTokens pre) (_domainTokens c))
     else 0)%Q.
Proof.
  unfold pre, precompute, when_present. cbn [Pre.domainTokens].
  destruct (Body.website body) as [w |]; [destruct (truthy w) |]; try reflexivity.
  destruct (truthy (extractHost w)) eqn:T.
  - destruct (nonempty (domainTokens (extractHost w))
              && nonempty (_domainTokens c)) eqn:G.
    + apply andb_true_iff in G. destruct G as [_ G]. now rewrite G.
    + rewrite (jaccard_empty _ _ G). now destruct (nonempty (_domainTokens c)).
  - apply truthy_false in T. rewrite T. reflexivity.
Qed.

Lemma fast_domain_part :
  ((if nonempty (Pre.domainTokens pre) && nonempty (_domainTokens c)
    then bucket domain_jaccard_table (jaccard (Pre.domainTokens pre) (_domainTokens c))
    else 0)
   == domain_points body c)%Q.
Proof.
  unfold pre, precompute, domain_points, when_present. cbn [Pre.domainTokens].
  destruct (Body.website body) as [w |]; [destruct (truthy w) |]; try reflexivity.
  rewrite <- (bucket_comp _ _ _ (jaccard_is_token_set_jaccard _ _)).
  destruct (nonempty (domainTokens (extractHost w)) && nonempty (_domainTokens c)) eqn:G;
    [reflexivity |].
  now rewrite (jaccard_empty _ _ G).
Qed.

Lemma fast_name_part :
  blank_name (Body.name body) = false ->
  ((if truthy (Pre.nameNorm pre) && truthy (_nameNorm c) then
      if String.eqb (Pre.nameNorm pre) (_nameNorm c) then 3
      else bucket name_jaccard_table (jaccard (Pre.nameTokens pre) (_nameTokens c))
           + bucket edit_ratio_table (levenshteinRatio (Pre.nameNorm pre) (_nameNorm c))
    else 0)
   == name_points body c)%Q.
Proof.
  unfold blank_name, pre, precompute, name_points, when_present, c.
  cbn [Pre.nameNorm Pre.nameTokens].
  destruct (Body.name body) as [n |]; cbn [truthy_opt or_empty];
    [destruct (truthy n); cbn [andb] |]; try (intros _; reflexivity).
  rewrite negb_false_iff. intro N. rewrite N. cbn [andb].
  rewrite <- (bucket_comp _ _ _ (jaccard_is_token_set_jaccard _ _)).
  rewrite <- (bucket_comp _ _ _ (levenshteinRatio_is_edit_distance_ratio _ _)).
  destruct (truthy (_nameNorm (augment i p))) eqn:T; [reflexivity |].
  rewrite (augment_nameTokens_empty _ _ _ T).
  apply truthy_false in T. rewrite T.
  apply truthy_true in N.
  destruct (String.eqb_spec (normalizeText n) ""); [contradiction |].
  rewrite (jaccard_empty _ [])
    by (now destruct (nonempty (nameTokens (normalizeText n)))).
  rewrite (bucket_comp _ _ _ (levenshteinRatio_empty_r _ N)).
  reflexivity.
Qed.

Lemma match_name_part :
  blank_name (Body.name body) && blank_name (name p) = false ->
  ((if truthy_opt (Body.name body) && truthy_opt (name (base c)) then
      let a := normalizeText (or_empty (Body.name body)) in
      let b := if truthy (_nameNorm c) then _nameNorm c
               else normalizeText (or_empty (name (base c))) in
      if String.eqb a b then 3
      else bucket name_jaccard_table (jaccard (nameTokens a) (_nameTokens c))
           + bucket edit_ratio_table (levenshteinRatio a b)
    else 0)
   == (if truthy (Pre.nameNorm pre) && truthy (_nameNorm c) then
         if String.eqb (Pre.nameNorm pre) (_nameNorm c) then 3
         else bucket name_jaccard_table (jaccard (Pre.nameTokens pre) (_nameTokens c))
              + bucket edit_ratio_table (levenshteinRatio (Pre.nameNorm pre) (_nameNorm c))
       else 0))%Q.
Proof.
  intro B. cbv zeta.
  change (name (base c)) with (name p).
  pose proof (augment_nameNorm parser i p) as cn. fold c in cn.
  pose proof (augment_nameTokens_empty parser i p) as ct. fold c in ct.
  revert cn ct. generalize (_nameNorm c) (_nameTokens c). intros nameN nameT cn ct.
  unfold pre, precompute, when_present. cbn [Pre.nameNorm Pre.nameTokens].
  unfold blank_name in B. revert B.
  destruct (Body.name body) as [n |]; cbn [truthy_opt or_empty];
    [destruct (truthy n); cbn [andb] |]; intro B; try reflexivity.
  destruct (truthy_opt (name p)) eqn:T; cbn [andb] in *.
  - assert (same_b : (if truthy nameN then nameN
                      else normalizeText (or_empty (name p))) = nameN).
    { destruct (truthy nameN) eqn:E; [reflexivity |].
      apply truthy_false in E. congruence. }
    rewrite same_b.
    destruct (truthy (normalizeText n)) eqn:A; cbn [andb negb] in *.
    + destruct (truthy nameN) eqn:C; [reflexivity |].
      rewrite (ct eq_refl).
      apply truthy_false in C. rewrite C. apply truthy_true in A.
      destruct (String.eqb_spec (normalizeText n) ""); [contradiction |].
      rewrite (jaccard_empty _ [])
        by (now destruct (nonempty (nameTokens (normalizeText n)))).
      rewrite (bucket_comp _ _ _ (levenshteinRatio_empty_r _ A)). reflexivity.
    + rewrite <- cn, negb_false_iff in B.
      apply truthy_false in A. rewrite A. apply truthy_true in B.
      destruct (String.eqb_spec "" nameN); [congruence |].
      rewrite (bucket_comp _ _ _ (levenshteinRatio_empty_l _ B)). reflexivity.
  - subst nameN. rewrite andb_false_r. reflexivity.
Qed.

End Contributions.

(** ** Validated requests *)

Lemma limitStr_trimmed (max : nat) (field : option string) (n : string) :
  limitStr max field = Some (Some n) -> exists s, n = trim s.
Proof.
  unfold limitStr. destruct field as [s |]; [| discriminate].
  destruct (String.length (trim s) <=? max); [| discriminate].
  intro H. inversion H. now exists s.
Qed.

Lemma QuerySchema_name (raw body : Body.t) :
  QuerySchema raw = Some body ->
  limitStr 256 (Body.name raw) = Some (Body.name body).
Proof.
  unfold QuerySchema.
  destruct (limitStr 256 (Body.name raw)), (limitStr 2048 (Body.website raw)),
    (limitStr 64 (Body.phone raw)), (limitStr 2048 (Body.facebook raw)),
    (limitStr 256 (Body.contains raw)); try discriminate.
  intro H. inversion H. reflexivity.
Qed.

(** The schema trims, so a name that survives it is not blank. *)
Lemma QuerySchema_name_not_blank (raw body : Body.t) :
  QuerySchema raw = Some body -> blank_name (Body.name body) = false.
Proof.
  intro H. apply QuerySchema_name in H. unfold blank_name.
  destruct (Body.name body) as [n |]; [| reflexivity].
  destruct (limitStr_trimmed _ _ _ H) as [s E]. subst n. cbn [truthy_opt or_empty].
  destruct (truthy (trim s)) eqn:T; [| reflexivity].
  now rewrite (normalizeText_trim s T).
Qed.

(** ** The two scorers agree *)

Lemma scorers_agree_unless_blank
  (parser : URLParser) (body : Body.t) (i : nat) (p : Profile) :
  blank_name (Body.name body) && blank_name (name p) = false ->
  (scoreMatch (inputForScore body) (augment i p)
   == fastScore (precompute body) (augment i p))%Q.
Proof.
  intro not_both_blank.
  rewrite scoreMatch_sum, fastScore_sum.
  rewrite (match_name_part body i p not_both_blank).
  rewrite (match_domain_part body i p).
  rewrite (fast_website_part body i p), (fast_phone_part body i p),
    (fast_facebook_part body i p).
  reflexivity.
Qed.

(** C10, as the code has it.  On a record built by the feature builder the
    exported [scoreMatch] and the handler's [fastScore] give the same score,
    unless both the query name and the record name are present and consist
    of white space only (the request schema trims, so the handler never sees
    such a query). *)
Theorem scoreMatch_agrees_with_fastScore
  (parser : URLParser) (body : Body.t) (i : nat) (p : Profile)
  (not_both_blank : blank_name (Body.name body) && blank_name (name p) = false) :
  (scoreMatch (inputForScore body) (augment i p)
   == fastScore (precompute body) (augment i p))%Q.
Proof.
  exact (scorers_agree_unless_blank parser body i p not_both_blank).
Qed.

Lemma scoreMatch_agrees_with_fastScore_witness :
  (scoreMatch
     (inputForScore (query (Some "acme inc.") (Some "www.acme.com/")
                       (Some "+1 (415) 555-1212") (Some "fb.com/acme/")))
     (augment 0 acme)
   == fastScore
        (precompute (query (Some "acme inc.") (Some "www.acme.com/")
                       (Some "+1 (415) 555-1212") (Some "fb.com/acme/")))
        (augment 0 acme))%Q.
Proof.
  apply (scoreMatch_agrees_with_fastScore whatwg). vm_compute. reflexivity.
Defined.

(** C10, as stated, fails: for the query name " " and a record named " " the
    exported scorer finds the normalised names equal and awards 3 points,
    the handler's scorer skips the name signal. *)
Lemma scoreMatch_differs_on_blank_names :
  (scoreMatch (inputForScore (query (Some " ") None None None)) (augment 0 blank_record)
   == 3)%Q /\
  (fastScore (precompute (query (Some " ") None None None)) (augment 0 blank_record)
   == 0)%Q /\
  ~ (scoreMatch (inputForScore (query (Some " ") None None None)) (augment 0 blank_record)
     == fastScore (precompute (query (Some " ") None None None)) (augment 0 blank_record))%Q.
Proof.
  split; [vm_compute; reflexivity |]. split; [vm_compute; reflexivity |].
  intro H. vm_compute in H. discriminate.
Qed.

(** ** The confidence score *)

(** C1, as the code has it.  For a validated request and a record built by
    the feature builder, both scorers return the sum of the five
    contributions of the scoring table, where the website contribution
    requires the query's canonical form to be non-empty, Jaccard is the
    ratio of the sizes of intersection and union of the token sets and the
    edit-distance ratio is one minus the Levenshtein distance over the
    longer length. *)
Theorem confidence_is_sum_of_contributions
  (parser : URLParser) (raw body : Body.t) (i : nat) (p : Profile)
  (valid : QuerySchema raw = Some body) :
  (fastScore (precompute body) (augment i p) == confidence body (augment i p))%Q /\
  (scoreMatch (inputForScore body) (augment i p) == confidence body (augment i p))%Q.
Proof.
  pose proof (QuerySchema_name_not_blank raw body valid) as N.
  assert (F : (fastScore (precompute body) (augment i p)
               == confidence body (augment i p))%Q).
  { rewrite fastScore_sum. unfold confidence.
    rewrite (fast_name_part body i p N), (fast_domain_part body i p).
    rewrite (fast_website_part body i p), (fast_phone_part body i p),
      (fast_facebook_part body i p).
    reflexivity. }
  split; [exact F |].
  rewrite scorers_agree_unless_blank; [exact F |].
  now rewrite N.
Qed.

Lemma confidence_is_sum_of_contributions_witness :
  QuerySchema (query (Some "  ACME Incorporated ") (Some "acme.com") None None)
  = Some (query (Some "ACME Incorporated") (Some "acme.com") None None) /\
  (fastScore (precompute (query (Some "ACME Incorporated") (Some "acme.com") None None))
     (augment 0 acme)
   == confidence (query (Some "ACME Incorporated") (Some "acme.com") None None)
        (augment 0 acme))%Q.
Proof.
  assert (valid : QuerySchema (query (Some "  ACME Incorporated ") (Some "acme.com") None None)
                  = Some (query (Some "ACME Incorporated") (Some "acme.com") None None))
    by (vm_compute; reflexivity).
  split; [exact valid |].
  exact (proj1 (confidence_is_sum_of_contributions whatwg _ _ 0 acme valid)).
Defined.

(** C1, as stated, fails on the website rule: the query website "https://"
    and the record website "http://" have the same canonical form, the empty
    string, and the record earns nothing. *)
Lemma website_points_need_nonempty_canonical_form :
  QuerySchema (query None (Some "https://") None None)
  = Some (query None (Some "https://") None None) /\
  canonicalUrl "https://" = _canonSite (augment 0 hostless_record) /\
  (fastScore (precompute (query None (Some "https://") None None))
     (augment 0 hostless_record) == 0)%Q /\
  (confidence_as_stated (query None (Some "https://") None None)
     (augment 0 hostless_record) == 5)%Q.
Proof.
  split; [vm_compute; reflexivity |]. split; [vm_compute; reflexivity |].
  split; vm_compute; reflexivity.
Qed.

(** ** The ranking sort *)

Section StableSort.

Variable A : Type.
Variable cmp : A -> A -> Q.

Let before (a b : A) : Prop := (cmp a b <= 0)%Q.
Let tie (a b : A) : bool := Qeq_bool (cmp a b) 0.

Hypothesis total : forall a b, ~ before a b -> before b a.
Hypothesis transitive : forall a b c, before a b -> before b c -> before a c.
Hypothesis ties : forall a x y, (cmp a x == 0)%Q -> (cmp a y == 0)%Q -> (cmp x y == 0)%Q.

Lemma insert_by_perm (x : A) (l : list A) : Permutation (x :: l) (insert_by cmp x l).
Proof.
  induction l as [| y l IH]; simpl; [reflexivity |].
  destruct (Qle_bool (cmp x y) 0); [reflexivity |].
  rewrite perm_swap. now constructor.
Qed.

Lemma sort_by_perm (l : list A) : Permutation l (sort_by cmp l).
Proof.
  induction l as [| x l IH]; simpl; [constructor |].
  rewrite <- insert_by_perm. now constructor.
Qed.

Lemma insert_by_sorted (x : A) (l : list A) :
  StronglySorted before l -> StronglySorted before (insert_by cmp x l).
Proof.
  induction l as [| y l IH]; intro S; simpl.
  - repeat constructor.
  - inversion S as [| ? ? Sl Fy]; subst.
    destruct (Qle_bool (cmp x y) 0) eqn:E.
    + apply Qle_bool_iff in E. constructor; [exact S |].
      constructor; [exact E |].
      eapply Forall_impl; [| exact Fy]. intros z Hz. now apply (transitive x y z).
    + assert (yx : before y x).
      { apply total. unfold before. rewrite <- Qle_bool_iff. congruence. }
      constructor; [now apply IH |].
      apply (Permutation_Forall (insert_by_perm x l)).
      now constructor.
Qed.

Lemma sort_by_sorted (l : list A) : StronglySorted before (sort_by cmp l).
Proof.
  induction l as [| x l IH]; simpl; [constructor | now apply insert_by_sorted].
Qed.

Lemma insert_by_stable (a x : A) (l : list A) :
  filter (tie a) (insert_by cmp x l) = filter (tie a) (x :: l).
Proof.
  induction l as [| y l IH]; [reflexivity |].
  cbn [insert_by]. destruct (Qle_bool (cmp x y) 0) eqn:E; [reflexivity |].
  cbn [filter] in *. rewrite IH.
  destruct (tie a x) eqn:Tx, (tie a y) eqn:Ty; try reflexivity.
  exfalso. unfold tie in Tx, Ty. apply Qeq_bool_iff in Tx, Ty.
  pose proof (ties a x y Tx Ty) as Z.
  assert (Qle_bool (cmp x y) 0 = true) by (apply Qle_bool_iff; rewrite Z; apply Qle_refl).
  congruence.
Qed.

Lemma sort_by_stable (a : A) (l : list A) :
  filter (tie a) (sort_by cmp l) = filter (tie a) l.
Proof.
  induction l as [| x l IH]; [reflexivity |].
  cbn [sort_by fold_right]. fold (sort_by cmp l).
  rewrite insert_by_stable. cbn [filter]. now rewrite IH.
Qed.

End StableSort.

Lemma Qmul_1_sign (z : Z) :
  ((1 * inject_Z z <= 0)%Q <-> (z <= 0)%Z) /\ ((1 * inject_Z z == 0)%Q <-> z = 0%Z).
Proof.
  rewrite (Zle_Qle z 0), <- (inject_Z_injective z 0).
  change (inject_Z 0) with 0%Q. split; split; intro H; lra.
Qed.

Lemma Qmul_m1_sign (z : Z) :
  ((-1 * inject_Z z <= 0)%Q <-> (0 <= z)%Z) /\ ((-1 * inject_Z z == 0)%Q <-> z = 0%Z).
Proof.
  rewrite (Zle_Qle 0 z), <- (inject_Z_injective z 0).
  change (inject_Z 0) with 0%Q. split; split; intro H; lra.
Qed.

(** With a consistent [localeCompare] the ranking comparator is a consistent
    comparator under every sort mode. *)
Lemma compare_candidates_consistent
  (dep : Deployment) (consistent : consistent_comparator localeCompare)
  (k : SortKey) (d : Dir) :
  (forall a b, ~ (compare_candidates k d a b <= 0)%Q -> (compare_candidates k d b a <= 0)%Q) /\
  (forall a b c, (compare_candidates k d a b <= 0)%Q -> (compare_candidates k d b c <= 0)%Q ->
                 (compare_candidates k d a c <= 0)%Q) /\
  (forall a x y, (compare_candidates k d a x == 0)%Q -> (compare_candidates k d a y == 0)%Q ->
                 (compare_candidates k d x y == 0)%Q).
Proof.
  destruct consistent as [anti trans].
  assert (by_key : forall (key : Scored -> string) (mul : Q),
             (mul = 1 \/ mul = -1)%Q ->
             let cmp := fun a b => (mul * inject_Z (localeCompare (key a) (key b)))%Q in
             (forall a b, ~ (cmp a b <= 0)%Q -> (cmp b a <= 0)%Q) /\
             (forall a b c, (cmp a b <= 0)%Q -> (cmp b c <= 0)%Q -> (cmp a c <= 0)%Q) /\
             (forall a x y, (cmp a x == 0)%Q -> (cmp a y == 0)%Q -> (cmp x y == 0)%Q)).
  { intros key mul [M | M]; subst mul; cbv zeta.
    - split; [| split].
      + intros a b. rewrite !(proj1 (Qmul_1_sign _)).
        pose proof (anti (key a) (key b)). lia.
      + intros a b c. rewrite !(proj1 (Qmul_1_sign _)). apply trans.
      + intros a x y. rewrite !(proj2 (Qmul_1_sign _)). intros Hx Hy.
        pose proof (anti (key a) (key x)). pose proof (anti (key x) (key a)).
        pose proof (anti (key a) (key y)). pose proof (anti (key y) (key a)).
        pose proof (anti (key x) (key y)). pose proof (anti (key y) (key x)).
        pose proof (trans (key x) (key a) (key y)).
        pose proof (trans (key y) (key a) (key x)). lia.
    - split; [| split].
      + intros a b. rewrite !(proj1 (Qmul_m1_sign _)).
        pose proof (anti (key a) (key b)). pose proof (anti (key b) (key a)). lia.
      + intros a b c. rewrite !(proj1 (Qmul_m1_sign _)). intros Hab Hbc.
        pose proof (anti (key a) (key b)). pose proof (anti (key b) (key a)).
        pose proof (anti (key b) (key c)). pose proof (anti (key c) (key b)).
        pose proof (anti (key a) (key c)). pose proof (anti (key c) (key a)).
        pose proof (trans (key c) (key b) (key a)). lia.
      + intros a x y. rewrite !(proj2 (Qmul_m1_sign _)). intros Hx Hy.
        pose proof (anti (key a) (key x)). pose proof (anti (key x) (key a)).
        pose proof (anti (key a) (key y)). pose proof (anti (key y) (key a)).
        pose proof (anti (key x) (key y)). pose proof (anti (key y) (key x)).
        pose proof (trans (key x) (key a) (key y)).
        pose proof (trans (key y) (key a) (key x)). lia. }
  destruct k.
  - destruct d; unfold compare_candidates; cbv beta zeta; (split; [| split]); intros;
      generalize dependent (score a); intros; lra.
  - destruct d; unfold compare_candidates.
    + apply (by_key (fun s => or_empty (name (profile s))) 1%Q). now left.
    + apply (by_key (fun s => or_empty (name (profile s))) (-1)%Q). now right.
  - destruct d; unfold compare_candidates.
    + apply (by_key (fun s => website (profile s)) 1%Q). now left.
    + apply (by_key (fun s => website (profile s)) (-1)%Q). now right.
Qed.

(** C2, as the code has it.  Under every sort mode the ranked list is a
    permutation of the filtered candidates in comparator order, and the
    candidates whose keys compare equal keep the relative order they had
    before the sort, which is the order of candidate discovery. *)
Theorem ranking_sort_keeps_discovery_order_on_ties
  (parser : URLParser) (dep : Deployment)
  (consistent : consistent_comparator localeCompare)
  (body : Body.t) (scored : list Scored) :
  let cmp := compare_candidates (sort_key body) (sort_dir body) in
  Permutation (apply_filters body scored) (ranked body scored) /\
  StronglySorted (fun a b => (cmp a b <= 0)%Q) (ranked body scored) /\
  forall a,
    filter (fun b => Qeq_bool (cmp a b) 0) (ranked body scored)
    = filter (fun b => Qeq_bool (cmp a b) 0) (apply_filters body scored).
Proof.
  cbv zeta. unfold ranked.
  destruct (compare_candidates_consistent dep consistent (sort_key body) (sort_dir body))
    as [total [trans ties]].
  split; [apply sort_by_perm |]. split.
  - now apply sort_by_sorted.
  - intro a. now apply sort_by_stable.
Qed.

Lemma code_unit_compare_consistent : consistent_comparator code_unit_compare.
Proof.
  unfold consistent_comparator, code_unit_compare. split.
  - intros x y. rewrite (String_as_OT.cmp_antisym x y).
    destruct (String_as_OT.cmp y x); simpl; lia.
  - intros x y z.
    destruct (String_as_OT.cmp x y) eqn:Exy; [| | lia];
      destruct (String_as_OT.cmp y z) eqn:Eyz; try lia; intros _ _.
    + apply String_as_OT.cmp_eq in Exy. subst. rewrite Eyz. lia.
    + apply String_as_OT.cmp_eq in Exy. subst. rewrite Eyz. lia.
    + apply String_as_OT.cmp_eq in Eyz. subst. rewrite Exy. lia.
    + apply String_as_OT.cmp_lt in Exy, Eyz.
      pose proof (String_as_OT.lt_trans _ _ _ Exy Eyz) as T.
      apply String_as_OT.cmp_lt in T. rewrite T. lia.
Qed.

Lemma ranking_sort_witness :
  consistent_comparator (@localeCompare two_acmes) /\
  Permutation
    (@apply_filters (query (Some "Acme Tools London") None None None)
       [mkScored 1 acme_london 1.5; mkScored 0 acme_paris 1.5])
    (@ranked two_acmes (query (Some "Acme Tools London") None None None)
       [mkScored 1 acme_london 1.5; mkScored 0 acme_paris 1.5]).
Proof.
  split; [exact code_unit_compare_consistent |].
  exact (proj1 (ranking_sort_keeps_discovery_order_on_ties whatwg two_acmes
                  code_unit_compare_consistent
                  (query (Some "Acme Tools London") None None None)
                  [mkScored 1 acme_london 1.5; mkScored 0 acme_paris 1.5])).
Defined.

(** C2, as stated, fails: catalog position is no sort key.  The two records
    earn the same score for the query name "Acme Tools London", the text
    index finds the second record first, and under the default mode (score,
    descending) the response lists position 1 before position 0. *)
Lemma ties_are_not_ordered_by_catalog_position :
  exists r,
    @match_handler whatwg two_acmes (query (Some "Acme Tools London") None None None) = OK r /\
    map idx (candidates r) = [1; 0] /\
    map score (candidates r) = [1.5%Q; 1.5%Q] /\
    meta_sort (meta r) = by_score /\ meta_dir (meta r) = desc.
Proof.
  eexists. split; [vm_compute; reflexivity |]. repeat split.
Qed.

(** ** Pagination *)

(** C8, at its failing input.  The schema accepts any number as [perPage];
    7.5 passes the clamp unchanged, and the second page of sixteen candidates
    is [list.slice(7.5, 15)], which holds the eight entries 7 to 14: more than
    the page size reported in [meta]. *)
Theorem fractional_perPage_overfills_page :
  exists r,
    @match_handler whatwg (silent (repeat branch 16) 5000) fractional_page_request = OK r /\
    (meta_perPage (meta r) == 7.5)%Q /\
    total (meta r) = 16 /\
    totalPages (meta r) = 3%Z /\
    (meta_page (meta r) == 2)%Q /\
    map idx (candidates r) = [7; 8; 9; 10; 11; 12; 13; 14] /\
    ~ (inject_Z (Z.of_nat (List.length (candidates r))) <= meta_perPage (meta r))%Q.
Proof.
  eexists. split; [vm_compute; reflexivity |].
  repeat split; try (vm_compute; reflexivity).
  intro H. vm_compute in H. now apply H.
Qed.

(** ** The loaded catalog *)

Lemma length_augment_from (parser : URLParser) (ps : list Profile) (k : nat) :
  List.length (augment_from k ps) = List.length ps.
Proof.
  revert k. induction ps as [| p ps IH]; intro k; simpl; [reflexivity | now rewrite IH].
Qed.

Lemma nth_error_augment_from (parser : URLParser) (ps : list Profile) (k i : nat) :
  nth_error (augment_from k ps) i = option_map (augment (k + i)) (nth_error ps i).
Proof.
  revert k i. induction ps as [| p ps IH]; intros k i; simpl.
  - now destruct i.
  - destruct i as [| i]; simpl; [now rewrite Nat.add_0_r |].
    rewrite IH. now replace (S k + i) with (k + S i) by lia.
Qed.

Lemma length_profiles (parser : URLParser) (dep : Deployment) :
  List.length profiles = List.length catalog.
Proof. apply length_augment_from. Qed.

Lemma nth_error_profiles (parser : URLParser) (dep : Deployment) (i : nat) :
  nth_error profiles i = option_map (augment i) (nth_error catalog i).
Proof. apply (nth_error_augment_from parser catalog 0 i). Qed.

Lemma profiles_ids (parser : URLParser) (dep : Deployment) :
  Forall (fun c => _id c < List.length catalog) profiles.
Proof.
  apply Forall_forall. intros c H.
  apply In_nth_error in H. destruct H as [i H].
  rewrite nth_error_profiles in H.
  destruct (nth_error catalog i) as [p |] eqn:E; [| discriminate].
  inversion H. subst c. simpl.
  apply nth_error_Some. congruence.
Qed.

(** A position inside the catalog is scored. *)
Lemma score_at_in_range (parser : URLParser) (dep : Deployment) (pre : Pre.t) (i : nat) :
  i < List.length catalog ->
  exists p, nth_error catalog i = Some p /\
            score_at pre i = Some (mkScored i p (fastScore pre (augment i p))).
Proof.
  intro H. unfold score_at. rewrite nth_error_profiles.
  destruct (nth_error catalog i) as [p |] eqn:E.
  - exists p. split; reflexivity.
  - apply nth_error_None in E. lia.
Qed.

Lemma map_opt_Forall2 {A B : Type} (f : A -> option B) (l : list A) (out : list B) :
  map_opt f l = Some out <-> Forall2 (fun x y => f x = Some y) l out.
Proof.
  revert out. induction l as [| x l IH]; intro out; simpl.
  - split; intro H; [inversion H; constructor | inversion H; reflexivity].
  - destruct (f x) as [y |] eqn:E.
    + destruct (map_opt f l) as [ys |].
      * split; intro H.
        -- inversion H. subst. constructor; [exact E |]. now apply IH.
        -- inversion H as [| ? y' ? ys' Hy Hys]; subst.
           apply IH in Hys. congruence.
      * split; intro H; [discriminate |].
        inversion H as [| ? y' ? ys' Hy Hys]; subst. apply IH in Hys. discriminate.
    + split; intro H; [now destruct (map_opt f l) |].
      inversion H; subst. congruence.
Qed.

Lemma map_opt_total {A B : Type} (f : A -> option B) (l : list A) :
  Forall (fun x => exists y, f x = Some y) l -> exists out, map_opt f l = Some out.
Proof.
  induction 1 as [| x l [y E] _ [ys IH]]; simpl.
  - now exists [].
  - rewrite E, IH. now exists (y :: ys).
Qed.

Lemma score_all_in_range
  (parser : URLParser) (dep : Deployment) (pre : Pre.t) (l : list nat) :
  Forall (fun i => i < List.length catalog) l ->
  exists scored, map_opt (score_at pre) l = Some scored.
Proof.
  intro H. apply map_opt_total. eapply Forall_impl; [| exact H].
  intros i Hi. destruct (score_at_in_range parser dep pre i Hi) as [p [_ E]]. eauto.
Qed.

Lemma map_opt_length {A B : Type} (f : A -> option B) (l : list A) (out : list B) :
  map_opt f l = Some out -> List.length out = List.length l.
Proof.
  intro H. apply map_opt_Forall2 in H. symmetry. eapply Forall2_length. exact H.
Qed.

(** ** Every discovered candidate is a catalog position *)

Section InRange.

Context {parser : URLParser} {dep : Deployment}.

Let ok (i : nat) : Prop := i < List.length catalog.
Let ok_lookup (m : Lookup) : Prop := Forall (fun kv => Forall ok (snd kv)) m.
Let ok_maps (m : Maps) : Prop :=
  ok_lookup (byCanonSite m) /\ ok_lookup (byPhone10 m) /\
  ok_lookup (byFacebook m) /\ ok_lookup (byDomainToken m).

Lemma addToIndex_ok (m : Lookup) (k : string) (i : nat) :
  ok i -> ok_lookup m -> ok_lookup (addToIndex m k i).
Proof.
  intros Hi. induction m as [| [k' arr] rest IH]; intro H.
  - unfold addToIndex. destruct (negb (truthy k)); [constructor |].
    repeat constructor. exact Hi.
  - simpl. destruct (negb (truthy k)); [exact H |].
    inversion H as [| ? ? Harr Hrest]; subst.
    destruct (String.eqb k' k).
    + constructor; [| exact Hrest]. simpl in *. apply Forall_app. split; [exact Harr |].
      repeat constructor. exact Hi.
    + constructor; [exact Harr |].
      assert (R : addToIndex rest k i
                  = if negb (truthy k) then rest
                    else match rest with
                         | [] => [(k, [i])]
                         | (k0, arr0) :: rest0 =>
                             if String.eqb k0 k then (k0, arr0 ++ [i]) :: rest0
                             else (k0, arr0) :: addToIndex rest0 k i
                         end) by (destruct rest; reflexivity).
      now apply IH.
Qed.

Lemma fold_addToIndex_ok (keys : list string) (m : Lookup) (i : nat) :
  ok i -> ok_lookup m -> ok_lookup (fold_left (fun acc t => addToIndex acc t i) keys m).
Proof.
  intro Hi. revert m. induction keys as [| k keys IH]; intros m H; simpl; [exact H |].
  apply IH. now apply addToIndex_ok.
Qed.

Lemma index_profile_ok (m : Maps) (c : AugProfile) :
  ok (_id c) -> ok_maps m -> ok_maps (index_profile m c).
Proof.
  intros Hi [H1 [H2 [H3 H4]]]. unfold index_profile, ok_maps. cbn [byCanonSite byPhone10
    byFacebook byDomainToken].
  repeat split; try apply fold_addToIndex_ok; try apply addToIndex_ok; assumption.
Qed.

Lemma load_maps_ok : ok_maps maps.
Proof.
  unfold maps, load_maps. pose proof (profiles_ids parser dep) as P. unfold profiles in P.
  assert (G : forall cs m, Forall (fun c => ok (_id c)) cs -> ok_maps m ->
                           ok_maps (fold_left index_profile cs m)).
  { induction cs as [| c cs IH]; intros m F H; simpl; [exact H |].
    inversion F; subst. apply IH; [assumption |]. now apply index_profile_ok. }
  apply G; [exact P |]. repeat split; constructor.
Qed.

Lemma lookup_ok (m : Lookup) (k : string) : ok_lookup m -> Forall ok (lookup m k).
Proof.
  induction m as [| [k' arr] rest IH]; intro H; simpl; [constructor |].
  inversion H; subst. destruct (String.eqb k' k); [assumption | now apply IH].
Qed.

Lemma set_add_ok (s : list nat) (x : nat) : ok x -> Forall ok s -> Forall ok (set_add s x).
Proof.
  intros Hx Hs. unfold set_add. destruct (existsb (Nat.eqb x) s); [exact Hs |].
  apply Forall_app. split; [exact Hs | now repeat constructor].
Qed.

Lemma add_each_ok (s xs : list nat) : Forall ok xs -> Forall ok s -> Forall ok (add_each s xs).
Proof.
  unfold add_each. intro Hxs. revert s.
  induction Hxs as [| x xs Hx _ IH]; intros s Hs; simpl; [exact Hs |].
  apply IH. now apply set_add_ok.
Qed.

Hypothesis mini_ok : forall q, Forall ok (miniSearch q).
Hypothesis fuse_ok : forall q, Forall (fun r => ok (refIndex r)) (fuzzyIndex q).

Lemma search_each_ok (s : list nat) (toks : list string) :
  Forall ok s -> Forall ok (search_each s toks).
Proof.
  unfold search_each. revert s. induction toks as [| t toks IH]; intros s Hs; simpl;
    [exact Hs |].
  apply IH. apply add_each_ok; [apply mini_ok | exact Hs].
Qed.

Lemma Forall_firstn {A : Type} (P : A -> Prop) (n : nat) (l : list A) :
  Forall P l -> Forall P (firstn n l).
Proof.
  intro H. revert n. induction H as [| x l Hx _ IH]; intro n; destruct n; simpl;
    constructor; auto.
Qed.

Lemma Forall_skipn {A : Type} (P : A -> Prop) (n : nat) (l : list A) :
  Forall P l -> Forall P (skipn n l).
Proof.
  intro H. revert n. induction H as [| x l Hx Hl IH]; intro n; destruct n; simpl;
    try constructor; auto.
Qed.

Lemma slice_Forall {A : Type} (P : A -> Prop) (l : list A) (a b : Z) :
  Forall P l -> Forall P (slice l a b).
Proof.
  intro H. unfold slice. now apply Forall_firstn, Forall_skipn.
Qed.

Lemma gather_ok (body : Body.t) : Forall ok (gather body).
Proof.
  destruct load_maps_ok as [M1 [M2 [M3 M4]]].
  unfold gather.
  set (c0 := @nil nat).
  assert (H0 : Forall ok c0) by constructor.
  set (c1 := when_present (Body.name body) _ c0).
  assert (H1 : Forall ok c1).
  { unfold c1, when_present. destruct (Body.name body) as [n |]; [| exact H0].
    destruct (truthy n); [| exact H0].
    apply search_each_ok. apply add_each_ok; [apply mini_ok | exact H0]. }
  set (c2 := when_present (Body.website body) _ c1).
  assert (H2 : Forall ok c2).
  { unfold c2, when_present. destruct (Body.website body) as [w |]; [| exact H1].
    destruct (truthy w); [| exact H1].
    generalize (tokenizeDomain (getHost w)). intro toks.
    assert (S : Forall ok (add_each (add_each c1 (miniSearch w))
                             (lookup (byCanonSite maps) (canonicalUrl w)))).
    { apply add_each_ok; [now apply lookup_ok |].
      apply add_each_ok; [apply mini_ok | exact H1]. }
    revert S. generalize (add_each (add_each c1 (miniSearch w))
                            (lookup (byCanonSite maps) (canonicalUrl w))).
    induction toks as [| t toks IH]; intros s S; simpl; [exact S |].
    apply IH. apply add_each_ok; [apply mini_ok |].
    apply add_each_ok; [now apply lookup_ok | exact S]. }
  set (c3 := when_present (Body.phone body) _ c2).
  assert (H3 : Forall ok c3).
  { unfold c3, when_present. destruct (Body.phone body) as [ph |]; [| exact H2].
    destruct (truthy ph); [| exact H2].
    apply add_each_ok; [now apply lookup_ok | exact H2]. }
  set (c4 := when_present (Body.facebook body) _ c3).
  assert (H4 : Forall ok c4).
  { unfold c4, when_present. destruct (Body.facebook body) as [fb |]; [| exact H3].
    destruct (truthy fb); [| exact H3].
    assert (S : Forall ok (add_each c3 (lookup (byFacebook maps) (canonicalFacebook fb)))).
    { apply add_each_ok; [now apply lookup_ok | exact H3]. }
    destruct (new_URL fb); [| exact S]. now apply search_each_ok. }
  set (c5 := if Nat.eqb (List.length c4) 0 && any_field body then _ else c4).
  assert (H5 : Forall ok c5).
  { unfold c5. destruct (Nat.eqb (List.length c4) 0 && any_field body); [| exact H4].
    apply add_each_ok; [| exact H4].
    apply Forall_map. apply Forall_firstn. apply fuse_ok. }
  destruct (MAX_CANDIDATES <? Z.of_nat (List.length c5))%Z; [| exact H5].
  now apply slice_Forall.
Qed.

End InRange.

(** ** Slices and pages *)

Lemma firstn_min {A : Type} (n : nat) (l : list A) :
  firstn (Nat.min n (List.length l)) l = firstn n l.
Proof.
  destruct (le_lt_dec n (List.length l)) as [H | H].
  - now rewrite Nat.min_l.
  - rewrite Nat.min_r by lia. rewrite firstn_all. symmetry. apply firstn_all2. lia.
Qed.

(** [l.slice(0, n)] keeps the first [n] elements. *)
Lemma slice_top {A : Type} (l : list A) (n : nat) :
  slice l 0 (Z.of_nat n) = firstn n l.
Proof.
  unfold slice, relative_index.
  destruct (Z.of_nat n <? 0)%Z eqn:E; [apply Z.ltb_lt in E; lia |].
  rewrite Nat2Z.id. cbn [Z.ltb Z.compare Z.to_nat Nat.min skipn].
  rewrite Nat.sub_0_r. apply firstn_min.
Qed.

Lemma slice_nonempty {A : Type} (l : list A) (a b : Z) :
  (0 <= a)%Z -> (a < Z.of_nat (List.length l))%Z -> (a < b)%Z -> slice l a b <> [].
Proof.
  intros Ha Hlen Hb. unfold slice, relative_index.
  destruct (a <? 0)%Z eqn:Ea; [apply Z.ltb_lt in Ea; lia |].
  destruct (b <? 0)%Z eqn:Eb; [apply Z.ltb_lt in Eb; lia |].
  intro E. apply (f_equal (@List.length A)) in E.
  rewrite length_firstn, length_skipn in E. simpl in E. lia.
Qed.

Lemma truncate_nonneg (q : Q) : (0 <= q)%Q -> truncate q = Qfloor q.
Proof.
  intro H. unfold truncate. apply Qle_bool_iff in H. now rewrite H.
Qed.

Lemma Qfloor_nonneg (q : Q) : (0 <= q)%Q -> (0 <= Qfloor q)%Z.
Proof.
  intro H. change 0%Z with (Qfloor 0). now apply Qfloor_resp_le.
Qed.

(** ** Binary64 rounding *)

Section Binary64.

Local Open Scope Q_scope.

Lemma pow2_pos (e : Z) : 0 < pow2 e.
Proof. apply Qpower_0_lt. reflexivity. Qed.

Lemma pow2_add (a b : Z) : pow2 (a + b) == pow2 a * pow2 b.
Proof. apply Qpower_plus. discriminate. Qed.

Lemma pow2_le (a b : Z) : (a <= b)%Z -> pow2 a <= pow2 b.
Proof. intro H. apply Qpower_le_compat_l; [exact H | discriminate]. Qed.

Lemma pow2_lt (a b : Z) : (a < b)%Z -> pow2 a < pow2 b.
Proof. intro H. apply Qpower_lt_compat_l; [exact H | reflexivity]. Qed.

Lemma pow2_lt_inv (a b : Z) : pow2 a < pow2 b -> (a < b)%Z.
Proof. intro H. apply (Qpower_lt_compat_l_inv 2); [exact H | reflexivity]. Qed.

Lemma pow2_Z (e : Z) : (0 <= e)%Z -> pow2 e == inject_Z (2 ^ e).
Proof. intro H. unfold pow2. now rewrite Zpower_Qpower. Qed.

Lemma pow2_sub (a b : Z) : pow2 (a - b) == pow2 a / pow2 b.
Proof. apply Qpower_minus. discriminate. Qed.

(** *** Rounding to the nearest integer *)

Lemma nearest_even_comp (x y : Q) : x == y -> nearest_even x = nearest_even y.
Proof.
  intro E. unfold nearest_even. cbv zeta. rewrite (Qfloor_comp x y E).
  now rewrite (Qcompare_comp (x - inject_Z (Qfloor y)) (y - inject_Z (Qfloor y))
                 ltac:(now rewrite E) (1 # 2) (1 # 2) ltac:(reflexivity)).
Qed.

Lemma nearest_even_Z (z : Z) : nearest_even (inject_Z z) = z.
Proof.
  unfold nearest_even. cbv zeta. rewrite Qfloor_Z.
  destruct (Qcompare_spec (inject_Z z - inject_Z z) (1 # 2)) as [H | H | H];
    [lra | reflexivity | lra].
Qed.

Lemma nearest_even_mono (x y : Q) : x <= y -> (nearest_even x <= nearest_even y)%Z.
Proof.
  intro L. pose proof (Qfloor_resp_le x y L) as F.
  pose proof (Qfloor_le x) as X1. pose proof (Qlt_floor x) as X2.
  pose proof (Qfloor_le y) as Y1. pose proof (Qlt_floor y) as Y2.
  unfold nearest_even. cbv zeta.
  destruct (Z.eq_dec (Qfloor x) (Qfloor y)) as [E | NE].
  - rewrite E in *.
    destruct (Qcompare_spec (x - inject_Z (Qfloor y)) (1 # 2)) as [Hx | Hx | Hx];
      destruct (Qcompare_spec (y - inject_Z (Qfloor y)) (1 # 2)) as [Hy | Hy | Hy];
      try destruct (Z.even (Qfloor y)); try lia; lra.
  - assert (S : (Qfloor x + 1 <= Qfloor y)%Z) by lia.
    destruct (Qcompare_spec (x - inject_Z (Qfloor x)) (1 # 2)) as [Hx | Hx | Hx];
      destruct (Qcompare_spec (y - inject_Z (Qfloor y)) (1 # 2)) as [Hy | Hy | Hy];
      try destruct (Z.even (Qfloor x)); try destruct (Z.even (Qfloor y)); lia.
Qed.

(** *** The binade of a positive number *)

Lemma Qmake_lt_pow2 (n : Z) (d : positive) (a b : Z) :
  (0 <= a)%Z -> (0 <= b)%Z ->
  (n * 2 ^ b < 2 ^ a * Zpos d)%Z -> n # d < pow2 (a - b).
Proof.
  intros Ha Hb H. rewrite pow2_sub, !pow2_Z by assumption.
  assert (P : 0 < inject_Z (2 ^ b)).
  { change 0 with (inject_Z 0). rewrite <- Zlt_Qlt. lia. }
  apply Qlt_shift_div_l; [exact P |].
  rewrite (Qmake_Qdiv n d).
  unfold Qdiv. rewrite <- Qmult_assoc, (Qmult_comm (/ _)), Qmult_assoc.
  apply Qlt_shift_div_r; [reflexivity |].
  rewrite <- !inject_Z_mult, <- Zlt_Qlt. exact H.
Qed.

Lemma Qmake_le_pow2 (n : Z) (d : positive) (a b : Z) :
  (0 <= a)%Z -> (0 <= b)%Z ->
  (2 ^ a * Zpos d <= n * 2 ^ b)%Z -> pow2 (a - b) <= n # d.
Proof.
  intros Ha Hb H. rewrite pow2_sub, !pow2_Z by assumption.
  assert (P : 0 < inject_Z (2 ^ b)).
  { change 0 with (inject_Z 0). rewrite <- Zlt_Qlt. lia. }
  apply Qle_shift_div_r; [exact P |].
  rewrite (Qmake_Qdiv n d).
  unfold Qdiv. rewrite <- Qmult_assoc, (Qmult_comm (/ _)), Qmult_assoc.
  apply Qle_shift_div_l; [reflexivity |].
  rewrite <- !inject_Z_mult, <- Zle_Qle. exact H.
Qed.

Lemma binade_spec (x : Q) : 0 < x -> pow2 (binade x) <= x < pow2 (binade x + 1).
Proof.
  destruct x as [n d]. intro P.
  assert (N : (0 < n)%Z).
  { unfold Qlt in P. simpl in P. lia. }
  pose proof (Z.log2_spec n N) as [A1 A2].
  pose proof (Z.log2_spec (Zpos d) ltac:(lia)) as [B1 B2].
  pose proof (Z.log2_nonneg n) as A0. pose proof (Z.log2_nonneg (Zpos d)) as B0.
  unfold binade. cbn [Qnum Qden].
  set (a := Z.log2 n) in *. set (b := Z.log2 (Zpos d)) in *.
  assert (U : n # d < pow2 (a - b + 1)).
  { replace (a - b + 1)%Z with (Z.succ a - b)%Z by lia.
    apply Qmake_lt_pow2; [lia | lia |]. nia. }
  assert (L : pow2 (a - b - 1) <= n # d).
  { replace (a - b - 1)%Z with (a - Z.succ b)%Z by lia.
    apply Qmake_le_pow2; [lia | lia |]. nia. }
  destruct (Qle_bool (pow2 (a - b)) (n # d)) eqn:C.
  - apply Qle_bool_iff in C. split; assumption.
  - split; [exact L |]. replace (a - b - 1 + 1)%Z with (a - b)%Z by lia.
    apply Qnot_le_lt. intro H. apply Qle_bool_iff in H. congruence.
Qed.

Lemma binade_unique (x : Q) (e e' : Z) :
  pow2 e <= x < pow2 (e + 1) -> pow2 e' <= x < pow2 (e' + 1) -> e = e'.
Proof.
  intros [L U] [L' U'].
  assert (H1 : (e < e' + 1)%Z) by (apply pow2_lt_inv; lra).
  assert (H2 : (e' < e + 1)%Z) by (apply pow2_lt_inv; lra).
  lia.
Qed.

Lemma binade_comp (x y : Q) : 0 < x -> x == y -> binade x = binade y.
Proof.
  intros P E. apply (binade_unique x); [now apply binade_spec |].
  rewrite E. apply binade_spec. now rewrite <- E.
Qed.

Lemma binade_mono (x y : Q) : 0 < x -> x <= y -> (binade x <= binade y)%Z.
Proof.
  intros P L. pose proof (binade_spec x P) as [X _].
  pose proof (binade_spec y ltac:(lra)) as [_ Y].
  assert (H : (binade x < binade y + 1)%Z) by (apply pow2_lt_inv; lra).
  lia.
Qed.

Lemma binade_below (x : Q) (e : Z) : 0 < x -> x < pow2 e -> (binade x < e)%Z.
Proof.
  intros P L. pose proof (binade_spec x P) as [X _]. apply pow2_lt_inv. lra.
Qed.

(** *** Rounding to binary64 *)

Lemma round64_pos_comp (x y : Q) : 0 < x -> x == y -> round64_pos x == round64_pos y.
Proof.
  intros P E. unfold round64_pos. cbv zeta. rewrite (binade_comp x y P E).
  rewrite (nearest_even_comp (x / pow2 (Z.max (binade y) (-1022) - 52))
             (y / pow2 (Z.max (binade y) (-1022) - 52))) by (now rewrite E).
  reflexivity.
Qed.

Lemma round64_pos_nonneg (x : Q) : 0 <= x -> 0 <= round64_pos x.
Proof.
  intro P. unfold round64_pos. cbv zeta.
  set (u := pow2 (Z.max (binade x) (-1022) - 52)).
  assert (U : 0 < u) by apply pow2_pos.
  apply Qmult_le_0_compat; [| lra].
  change 0 with (inject_Z 0). rewrite <- Zle_Qle.
  rewrite <- (nearest_even_Z 0). apply nearest_even_mono.
  apply Qle_shift_div_l; [exact U |]. change (inject_Z 0) with 0. lra.
Qed.

(** A number below the top of its binade does not round above it. *)
Lemma round64_pos_upper (x : Q) :
  0 < x -> round64_pos x <= pow2 (Z.max (binade x) (-1022) + 1).
Proof.
  intro P. unfold round64_pos. cbv zeta.
  set (e := Z.max (binade x) (-1022)).
  pose proof (pow2_pos (e - 52)) as U.
  pose proof (binade_spec x P) as [_ X].
  assert (X' : x <= pow2 (e + 1)).
  { apply Qle_trans with (pow2 (binade x + 1)); [lra | apply pow2_le; lia]. }
  assert (S : pow2 (e + 1) == inject_Z (2 ^ 53) * pow2 (e - 52)).
  { rewrite <- pow2_Z by lia. rewrite <- pow2_add. unfold pow2. apply Qpower_comp; [reflexivity | lia]. }
  rewrite S. apply Qmult_le_compat_r; [| lra].
  rewrite <- Zle_Qle. rewrite <- (nearest_even_Z (2 ^ 53)).
  apply nearest_even_mono. apply Qle_shift_div_r; [exact U |]. now rewrite <- S.
Qed.

(** A normal number does not round below the bottom of its binade. *)
Lemma round64_pos_lower (x : Q) :
  0 < x -> (-1022 <= binade x)%Z -> pow2 (binade x) <= round64_pos x.
Proof.
  intros P N. unfold round64_pos. cbv zeta.
  rewrite Z.max_l by exact N.
  pose proof (pow2_pos (binade x - 52)) as U.
  pose proof (binade_spec x P) as [X _].
  assert (S : pow2 (binade x) == inject_Z (2 ^ 52) * pow2 (binade x - 52)).
  { rewrite <- pow2_Z by lia. rewrite <- pow2_add. unfold pow2. apply Qpower_comp; [reflexivity | lia]. }
  rewrite S at 1. apply Qmult_le_compat_r; [| lra].
  rewrite <- Zle_Qle. rewrite <- (nearest_even_Z (2 ^ 52)) at 1.
  apply nearest_even_mono. apply Qle_shift_div_l; [exact U |]. now rewrite <- S.
Qed.

Lemma round64_pos_mono (x y : Q) : 0 < x -> x <= y -> round64_pos x <= round64_pos y.
Proof.
  intros P L. assert (Py : 0 < y) by lra.
  pose proof (binade_mono x y P L) as B.
  destruct (Z.eq_dec (Z.max (binade x) (-1022)) (Z.max (binade y) (-1022))) as [E | NE].
  - unfold round64_pos. cbv zeta. rewrite E.
    pose proof (pow2_pos (Z.max (binade y) (-1022) - 52)) as U.
    apply Qmult_le_compat_r; [| lra].
    rewrite <- Zle_Qle. apply nearest_even_mono.
    apply Qmult_le_compat_r; [exact L |]. apply Qlt_le_weak, Qinv_lt_0_compat, U.
  - assert (Ny : (-1022 <= binade y)%Z) by lia.
    apply Qle_trans with (pow2 (Z.max (binade x) (-1022) + 1));
      [now apply round64_pos_upper |].
    apply Qle_trans with (pow2 (binade y)); [apply pow2_le; lia |].
    now apply round64_pos_lower.
Qed.

(** The binary64 numbers [m * 2^j] are not moved. *)
Lemma round64_pos_exact (m j : Z) :
  (0 < m < 2 ^ 53)%Z -> (-1074 <= j)%Z ->
  round64_pos (inject_Z m * pow2 j) == inject_Z m * pow2 j.
Proof.
  intros M J. set (x := inject_Z m * pow2 j).
  pose proof (pow2_pos j) as Pj.
  assert (M0 : 0 < inject_Z m).
  { change 0 with (inject_Z 0). rewrite <- Zlt_Qlt. lia. }
  assert (P : 0 < x) by (unfold x; nra).
  assert (X : x < pow2 (53 + j)).
  { unfold x. rewrite pow2_add, (pow2_Z 53) by lia.
    apply Qmult_lt_compat_r; [exact Pj |]. rewrite <- Zlt_Qlt. lia. }
  pose proof (binade_below x (53 + j) P X) as B.
  unfold round64_pos. cbv zeta. fold x.
  set (e := Z.max (binade x) (-1022)).
  set (t := (j - (e - 52))%Z).
  assert (T : (0 <= t)%Z) by lia.
  pose proof (pow2_pos (e - 52)) as U.
  assert (S : pow2 j == inject_Z (2 ^ t) * pow2 (e - 52)).
  { rewrite <- pow2_Z by exact T. rewrite <- pow2_add.
    unfold pow2. apply Qpower_comp; [reflexivity | lia]. }
  assert (D : x / pow2 (e - 52) == inject_Z (m * 2 ^ t)).
  { unfold x. rewrite S, inject_Z_mult. field. lra. }
  rewrite (nearest_even_comp _ _ D), nearest_even_Z.
  unfold x. rewrite S, inject_Z_mult. ring.
Qed.

Lemma round64_comp (x y : Q) : x == y -> round64 x == round64 y.
Proof.
  intro E. unfold round64. rewrite (Qcompare_comp x y E 0 0 ltac:(reflexivity)).
  destruct (Qcompare_spec y 0) as [H | H | H]; [reflexivity | |].
  - apply Qopp_comp, round64_pos_comp; [rewrite E; lra | now rewrite E].
  - apply round64_pos_comp; [rewrite E; lra | exact E].
Qed.

Lemma round64_of_pos (x : Q) : 0 < x -> round64 x = round64_pos x.
Proof.
  intro P. unfold round64. destruct (Qcompare_spec x 0) as [H | H | H]; [lra | lra | reflexivity].
Qed.

Lemma round64_0 (x : Q) : x == 0 -> round64 x = 0.
Proof.
  intro E. unfold round64. destruct (Qcompare_spec x 0) as [H | H | H]; [reflexivity | lra | lra].
Qed.

Lemma round64_nonneg (x : Q) : 0 <= x -> 0 <= round64 x.
Proof.
  intro P. destruct (Qlt_le_dec 0 x) as [H | H].
  - rewrite round64_of_pos by exact H. apply round64_pos_nonneg. lra.
  - rewrite round64_0 by lra. lra.
Qed.

(** Rounding keeps the order (of numbers that are not negative). *)
Lemma round64_mono (x y : Q) : 0 <= x -> x <= y -> round64 x <= round64 y.
Proof.
  intros P L. destruct (Qlt_le_dec 0 x) as [H | H].
  - rewrite !round64_of_pos by lra. now apply round64_pos_mono.
  - rewrite (round64_0 x) by lra. apply round64_nonneg. lra.
Qed.

(** The whole numbers up to 2^53 are binary64 numbers. *)
Lemma round64_Z (z : Z) : (0 <= z <= 2 ^ 53)%Z -> round64 (inject_Z z) == inject_Z z.
Proof.
  intro H. destruct (Z.eq_dec z 0) as [-> | N0]; [reflexivity |].
  assert (P : 0 < inject_Z z).
  { change 0 with (inject_Z 0). rewrite <- Zlt_Qlt. lia. }
  rewrite round64_of_pos by exact P.
  destruct (Z.eq_dec z (2 ^ 53)) as [-> | N].
  - rewrite (round64_pos_comp (inject_Z (2 ^ 53)) (inject_Z 1 * pow2 53)).
    + rewrite round64_pos_exact by lia. rewrite pow2_Z by lia. ring.
    + reflexivity.
    + rewrite pow2_Z by lia. ring.
  - rewrite (round64_pos_comp (inject_Z z) (inject_Z z * pow2 0)).
    + rewrite round64_pos_exact by lia. unfold pow2. simpl. ring.
    + exact P.
    + unfold pow2. simpl. ring.
Qed.

(** So are their sixty-fourths, up to 2^47. *)
Lemma round64_sixty_fourths (z : Z) :
  (0 <= z < 2 ^ 53)%Z -> round64 (inject_Z z / 64) == inject_Z z / 64.
Proof.
  intro H. destruct (Z.eq_dec z 0) as [-> | N0]; [reflexivity |].
  assert (P : 0 < inject_Z z).
  { change 0 with (inject_Z 0). rewrite <- Zlt_Qlt. lia. }
  assert (E : inject_Z z / 64 == inject_Z z * pow2 (-6)).
  { unfold pow2. simpl. field. }
  assert (P' : 0 < inject_Z z / 64).
  { rewrite E. pose proof (pow2_pos (-6)). nra. }
  rewrite round64_of_pos by exact P'.
  rewrite (round64_pos_comp _ _ P' E), round64_pos_exact by lia.
  now rewrite E.
Qed.

End Binary64.

Lemma requested_perPage_bounds (body : Body.t) :
  (5 <= requested_perPage body <= 50)%Q.
Proof.
  unfold requested_perPage.
  set (x := or_number (Number_or (Body.perPage body) (Fin 10)) 10).
  split.
  - apply Q.min_glb; [lra | apply Q.le_max_l].
  - apply Q.le_min_l.
Qed.

Lemma requested_page_bound (body : Body.t) : (1 <= requested_page body)%Q.
Proof.
  unfold requested_page. apply Q.le_max_l.
Qed.

Lemma total_pages_positive (n : nat) (pp : Q) : (1 <= total_pages n pp)%Z.
Proof.
  unfold total_pages. lia.
Qed.

(** The code's number of pages is at most a whole number of pages that
    hold the list. *)
Lemma total_pages_le (T : nat) (pp : Q) (K : Z) :
  (0 < pp)%Q -> (1 <= K <= 2 ^ 53)%Z ->
  (inject_Z (Z.of_nat T) <= inject_Z K * pp)%Q ->
  (total_pages T pp <= K)%Z.
Proof.
  intros Hpp HK H. unfold total_pages. apply Z.max_lub; [lia |].
  rewrite <- (Qceiling_Z K). apply Qceiling_resp_le.
  apply Qle_trans with (round64 (inject_Z K)).
  - apply round64_mono.
    + apply Qle_shift_div_l; [exact Hpp |].
      rewrite Qmult_0_l. change 0%Q with (inject_Z 0). rewrite <- Zle_Qle. lia.
    + apply Qle_shift_div_r; [exact Hpp | exact H].
  - rewrite round64_Z by lia. apply Qle_refl.
Qed.

Lemma truncate_ge (x : Q) (z : Z) : (0 <= z)%Z -> (inject_Z z <= x)%Q -> (z <= truncate x)%Z.
Proof.
  intros Hz H.
  assert (P : (0 <= x)%Q).
  { apply Qle_trans with (inject_Z z); [| exact H].
    change 0%Q with (inject_Z 0). rewrite <- Zle_Qle. exact Hz. }
  rewrite truncate_nonneg by exact P.
  rewrite <- (Qfloor_Z z). now apply Qfloor_resp_le.
Qed.

(** The first page of a non-empty list is not empty. *)
Lemma first_page_nonempty (items : list Scored) (pc pp : Q) :
  items <> [] -> (pc == 1)%Q -> (5 <= pp)%Q -> page_of items pc pp <> [].
Proof.
  intros Hitems Hpc Hpp. unfold page_of. cbv zeta.
  rewrite (round64_0 (pc - 1)) by (rewrite Hpc; reflexivity).
  rewrite (round64_0 (0 * pp)) by ring.
  change (truncate 0) with 0%Z.
  apply slice_nonempty; [lia | destruct items; [congruence | simpl; lia] |].
  apply Z.lt_le_trans with 5%Z; [lia |].
  apply truncate_ge; [lia |].
  apply Qle_trans with (round64 (inject_Z 5)).
  - rewrite round64_Z by lia. apply Qle_refl.
  - apply round64_mono; [discriminate |]. change (inject_Z 5) with 5%Q. lra.
Qed.

(** With a whole page size the clamped page of a non-empty list is not
    empty. *)
Lemma whole_page_nonempty (items : list Scored) (page pp : Q) (n : Z) :
  items <> [] -> (1 <= page)%Q -> (5 <= pp <= 50)%Q -> (pp == inject_Z n)%Q ->
  (Z.of_nat (List.length items) < 2 ^ 32)%Z ->
  page_of items (Qmin page (inject_Z (total_pages (List.length items) pp))) pp <> [].
Proof.
  intros Hitems Hpage [Hpp Hpp'] Hn Hsmall.
  set (T := Z.of_nat (List.length items)) in *.
  assert (T1 : (1 <= T)%Z) by (subst T; destruct items; [congruence | simpl; lia]).
  assert (N5 : (5 <= n <= 50)%Z).
  { rewrite !Zle_Qle. change (inject_Z 5) with 5%Q. change (inject_Z 50) with 50%Q.
    now rewrite <- Hn. }
  set (K := ((T + n - 1) / n)%Z).
  assert (KD : (T + n - 1 = n * K + (T + n - 1) mod n)%Z) by (apply Z.div_mod; lia).
  pose proof (Z.mod_pos_bound (T + n - 1) n ltac:(lia)) as KR.
  assert (K1 : (1 <= K)%Z) by nia.
  assert (KT : (K <= T)%Z) by nia.
  assert (KU : (T <= K * n)%Z) by nia.
  assert (KL : ((K - 1) * n < T)%Z) by nia.
  assert (TP : (total_pages (List.length items) pp <= K)%Z).
  { apply total_pages_le; [lra | lia |].
    rewrite Hn, <- inject_Z_mult, <- Zle_Qle. exact KU. }
  pose proof (total_pages_positive (List.length items) pp) as TP1.
  set (pc := Qmin page (inject_Z (total_pages (List.length items) pp))).
  assert (P1 : (1 <= pc)%Q).
  { apply Q.min_glb; [exact Hpage |]. change 1%Q with (inject_Z 1). now rewrite <- Zle_Qle. }
  assert (P2 : (pc <= inject_Z K)%Q).
  { apply Qle_trans with (inject_Z (total_pages (List.length items) pp));
      [apply Q.le_min_r | now rewrite <- Zle_Qle]. }
  unfold page_of. cbv zeta.
  set (d := round64 (pc - 1)).
  assert (D0 : (0 <= d)%Q) by (apply round64_nonneg; lra).
  assert (D1 : (d <= inject_Z (K - 1))%Q).
  { apply Qle_trans with (round64 (inject_Z (K - 1))).
    - apply round64_mono; [lra |]. unfold Zminus. rewrite inject_Z_plus, inject_Z_opp.
      change (inject_Z 1) with 1%Q. lra.
    - rewrite round64_Z by lia. apply Qle_refl. }
  set (start := round64 (d * pp)).
  assert (S0 : (0 <= start)%Q) by (apply round64_nonneg; nra).
  assert (S1 : (start <= inject_Z ((K - 1) * n))%Q).
  { apply Qle_trans with (round64 (inject_Z ((K - 1) * n))).
    - apply round64_mono; [nra |]. rewrite inject_Z_mult, <- Hn.
      apply Qmult_le_compat_r; [exact D1 | lra].
    - rewrite round64_Z by nia. apply Qle_refl. }
  pose proof (Qfloor_nonneg start S0) as F0.
  pose proof (Qfloor_le start) as F1.
  assert (F2 : (Qfloor start <= (K - 1) * n)%Z).
  { rewrite <- (Qfloor_Z ((K - 1) * n)). now apply Qfloor_resp_le. }
  rewrite (truncate_nonneg start S0).
  apply slice_nonempty; [exact F0 | fold T; lia |].
  apply Z.lt_le_trans with (Qfloor start + n)%Z; [lia |].
  apply truncate_ge; [lia |].
  apply Qle_trans with (round64 (inject_Z (Qfloor start + n))).
  - rewrite round64_Z; [apply Qle_refl |]. split; [lia |].
    apply Z.le_trans with (2 ^ 32 + 50)%Z; [nia | vm_compute; discriminate].
  - apply round64_mono.
    + change 0%Q with (inject_Z 0). rewrite <- Zle_Qle. lia.
    + rewrite inject_Z_plus, Hn. lra.
Qed.

(** ** The brute-force tier *)

Lemma strided_sample (N c : nat) :
  0 < c -> c < N ->
  forall fuel k,
    k <= c -> c - k <= fuel ->
    strided fuel (Z.of_nat (k * (N / c))) (Z.of_nat N) (Z.of_nat c) (Z.of_nat (N / c))
      (map (fun j => j * (N / c)) (seq 0 k))
    = map (fun j => j * (N / c)) (seq 0 c).
Proof.
  intros Hc HN.
  assert (Hs : 0 < N / c) by (apply Nat.div_str_pos; lia).
  pose proof (Nat.Div0.mul_div_le N c) as Hm.
  induction fuel as [| fuel IH]; intros k Hk Hf.
  - assert (k = c) by lia. subst k. reflexivity.
  - cbn [strided]. rewrite length_map, length_seq.
    destruct (Nat.eq_dec k c) as [E | E].
    + subst k.
      replace (Z.of_nat c <? Z.of_nat c)%Z with false by (symmetry; apply Z.ltb_ge; lia).
      now rewrite andb_false_r.
    + assert (Hlt : k * (N / c) < N).
      { apply Nat.le_lt_trans with ((c - 1) * (N / c)).
        - apply Nat.mul_le_mono_r. lia.
        - rewrite Nat.mul_sub_distr_r. lia. }
      replace (Z.of_nat (k * (N / c)) <? Z.of_nat N)%Z with true
        by (symmetry; apply Z.ltb_lt; lia).
      replace (Z.of_nat k <? Z.of_nat c)%Z with true by (symmetry; apply Z.ltb_lt; lia).
      cbn [andb]. rewrite Nat2Z.id.
      replace (Z.of_nat (k * (N / c)) + Z.of_nat (N / c))%Z
        with (Z.of_nat (S k * (N / c))) by lia.
      replace (map (fun j => j * (N / c)) (seq 0 k) ++ [k * (N / c)])
        with (map (fun j => j * (N / c)) (seq 0 (S k)))
        by (rewrite seq_S, map_app; reflexivity).
      apply IH; lia.
Qed.

(** The loop of the source visits exactly the strided sample. *)
Lemma strided_is_sample (N : nat) (cap : Z) :
  (0 < cap)%Z -> (cap < Z.of_nat N)%Z ->
  strided N 0 (Z.of_nat N) cap (Z.max 1 (Z.of_nat N / cap)) []
  = map (fun k => k * (N / Z.to_nat cap)) (seq 0 (Z.to_nat cap)).
Proof.
  intros Hc HN.
  assert (E : cap = Z.of_nat (Z.to_nat cap)) by lia.
  set (c := Z.to_nat cap) in *. rewrite E.
  assert (Hs : 0 < N / c) by (apply Nat.div_str_pos; lia).
  rewrite <- Nat2Z.inj_div, Z.max_r by lia.
  apply (strided_sample N c ltac:(lia) ltac:(lia) N 0); lia.
Qed.

Lemma brute_force_sample_in_range (N : nat) (cap : Z) :
  (0 < cap)%Z -> Forall (fun i => i < N) (brute_force_sample N cap).
Proof.
  intro Hc. unfold brute_force_sample.
  destruct (cap <? Z.of_nat N)%Z eqn:E.
  - apply Z.ltb_lt in E. set (c := Z.to_nat cap).
    assert (0 < c /\ c < N) as [H1 H2] by lia.
    assert (Hs : 0 < N / c) by (apply Nat.div_str_pos; lia).
    pose proof (Nat.Div0.mul_div_le N c) as Hm.
    apply Forall_map, Forall_forall. intros k Hk. apply in_seq in Hk.
    apply Nat.le_lt_trans with ((c - 1) * (N / c)).
    + apply Nat.mul_le_mono_r. lia.
    + rewrite Nat.mul_sub_distr_r. lia.
  - apply Forall_forall. intros k Hk. apply in_seq in Hk. lia.
Qed.

Lemma brute_force_sample_nonempty (N : nat) (cap : Z) :
  N <> 0 -> (0 < cap)%Z -> brute_force_sample N cap <> [].
Proof.
  intros HN Hc. unfold brute_force_sample.
  destruct (cap <? Z.of_nat N)%Z.
  - destruct (Z.to_nat cap) eqn:E; [lia | discriminate].
  - destruct N; [congruence | discriminate].
Qed.

Lemma length_sort_by {A : Type} (cmp : A -> A -> Q) (l : list A) :
  List.length (sort_by cmp l) = List.length l.
Proof.
  symmetry. apply Permutation_length, sort_by_perm.
Qed.

Section Tiers.

Context {parser : URLParser} {dep : Deployment}.

Lemma score_at_scored_position (pre : Pre.t) (i : nat) (s : Scored) :
  score_at pre i = Some s -> scored_position pre i s.
Proof.
  unfold score_at, scored_position. rewrite nth_error_profiles.
  destruct (nth_error catalog i) as [p |]; [| discriminate].
  simpl. intro H. inversion H. subst s. simpl. auto.
Qed.

Lemma brute_force_scores_sample (pre : Pre.t) :
  catalog <> [] -> (1 <= MAX_BRUTE_FORCE)%Z ->
  exists sampled,
    Forall2 (scored_position pre)
      (brute_force_sample (List.length catalog) MAX_BRUTE_FORCE) sampled /\
    sampled <> [] /\
    brute_force pre = Some (firstn 10 (sort_by by_score_desc sampled)).
Proof.
  intros Hcat Hcap.
  assert (HN : List.length catalog <> 0) by (destruct catalog; simpl; congruence).
  destruct (score_all_in_range parser dep pre
              (brute_force_sample (List.length catalog) MAX_BRUTE_FORCE))
    as [sampled E].
  { apply brute_force_sample_in_range. lia. }
  exists sampled. split; [| split].
  - apply map_opt_Forall2 in E. eapply Forall2_impl; [| exact E].
    intros i s. apply score_at_scored_position.
  - apply map_opt_length in E. intro Hnil. subst sampled. simpl in E.
    symmetry in E. apply length_zero_iff_nil in E.
    apply (brute_force_sample_nonempty (List.length catalog) MAX_BRUTE_FORCE HN); [lia |].
    exact E.
  - unfold brute_force. rewrite length_profiles.
    unfold brute_force_sample in E.
    destruct (Z.min MAX_BRUTE_FORCE (Z.of_nat (List.length catalog))
              <? Z.of_nat (List.length catalog))%Z eqn:C.
    + apply Z.ltb_lt in C.
      assert (M : Z.min MAX_BRUTE_FORCE (Z.of_nat (List.length catalog)) = MAX_BRUTE_FORCE)
        by lia.
      rewrite M in *.
      rewrite strided_is_sample by lia.
      replace (MAX_BRUTE_FORCE <? Z.of_nat (List.length catalog))%Z with true in E
        by (symmetry; apply Z.ltb_lt; lia).
      rewrite E. change 10%Z with (Z.of_nat 10). now rewrite slice_top.
    + apply Z.ltb_ge in C.
      replace (MAX_BRUTE_FORCE <? Z.of_nat (List.length catalog))%Z with false in E
        by (symmetry; apply Z.ltb_ge; lia).
      rewrite E. change 10%Z with (Z.of_nat 10). now rewrite slice_top.
Qed.


Lemma fuzzy_candidate_in_range (r : FuseResult unit) :
  refIndex r < List.length catalog -> exists s, fuzzy_candidate r = Some s.
Proof.
  intro H. unfold fuzzy_candidate. rewrite nth_error_profiles.
  destruct (nth_error catalog (refIndex r)) as [p |] eqn:E; [simpl; eauto |].
  apply nth_error_None in E. lia.
Qed.

Lemma all_zero_forallb (scored : list Scored) :
  Forall (fun s => (score s == 0)%Q) scored ->
  forallb (fun s => Qeq_bool (score s) 0) scored = true.
Proof.
  intro H. apply forallb_forall. rewrite Forall_forall in H.
  intros s Hs. apply Qeq_bool_iff. now apply H.
Qed.

(** The safety net on a list without a positive score. *)
Lemma safety_net_without_signal (body : Body.t) (pre : Pre.t) (scored : list Scored) :
  any_field body = true ->
  Forall (fun s => (score s == 0)%Q) scored ->
  safety_net body pre scored
  = if nonempty (fuzzy_hits body) then map_opt fuzzy_candidate (fuzzy_hits body)
    else brute_force pre.
Proof.
  intros asked zero. unfold safety_net, fuzzy_hits.
  rewrite (all_zero_forallb scored zero), orb_true_r, asked. cbn [andb].
  change 10%Z with (Z.of_nat 10). rewrite !slice_top.
  destruct (firstn 10 (fuzzyIndex (query_text body))) as [| r rest]; reflexivity.
Qed.

Lemma safety_net_with_signal (body : Body.t) (pre : Pre.t) (scored : list Scored) :
  scored <> [] ->
  ~ Forall (fun s => (score s == 0)%Q) scored ->
  safety_net body pre scored = Some scored.
Proof.
  intros ne pos. unfold safety_net.
  destruct scored as [| s rest]; [congruence |]. cbn [List.length Nat.eqb orb].
  destruct (forallb (fun s => Qeq_bool (score s) 0) (s :: rest)) eqn:E; [| reflexivity].
  exfalso. apply pos. apply Forall_forall. intros x Hx.
  rewrite forallb_forall in E. apply Qeq_bool_iff. now apply E.
Qed.

End Tiers.

(** ** The response is never empty-handed *)

Section Response.

Context {parser : URLParser} {dep : Deployment}.

Lemma apply_filters_off (body : Body.t) (scored : list Scored) :
  (min_score body <= 0)%Q -> contains_filter body = "" ->
  apply_filters body scored = scored.
Proof.
  intros Hm Hc. unfold apply_filters.
  apply Qle_bool_iff in Hm. rewrite Hm, Hc. reflexivity.
Qed.

Lemma finalize_nonempty (body : Body.t) (scored : list Scored) :
  scored <> [] -> (min_score body <= 0)%Q -> contains_filter body = "" ->
  (Z.of_nat (List.length scored) < 2 ^ 32)%Z ->
  (requested_page body == 1)%Q \/ (exists n : Z, (requested_perPage body == inject_Z n)%Q) ->
  candidates (finalize body scored) <> [].
Proof.
  intros ne Hm Hc small paging. unfold finalize. cbn [candidates].
  assert (F : final_list body scored = sort_by (compare_candidates (sort_key body) (sort_dir body)) scored).
  { unfold final_list.
    destruct scored as [| s rest] eqn:E; [congruence |]. cbn [List.length Nat.eqb].
    rewrite <- E in *. unfold ranked. now rewrite (apply_filters_off body scored Hm Hc). }
  assert (L : List.length (final_list body scored) = List.length scored).
  { rewrite F. apply length_sort_by. }
  assert (N : final_list body scored <> []).
  { intro Z0. rewrite Z0 in L. destruct scored; [congruence | discriminate]. }
  destruct paging as [first | [n whole]].
  - apply first_page_nonempty; [exact N | | apply requested_perPage_bounds].
    rewrite first. apply Q.min_l. change 1%Q with (inject_Z 1). rewrite <- Zle_Qle.
    apply total_pages_positive.
  - apply (whole_page_nonempty _ _ _ n);
      [exact N | apply requested_page_bound | apply requested_perPage_bounds | exact whole |].
    now rewrite L.
Qed.

End Response.



(** C4, as stated, fails: with the cap configured as 0 the sampling loop
    never runs, the brute-force tier scores nothing, and a query that no
    index matches gets an empty candidate list from a non-empty catalog. *)
Lemma zero_cap_returns_no_candidates :
  any_field (query (Some "zzz") None None None) = true /\
  @catalog (silent [acme] 0) <> [] /\
  exists r,
    @match_handler whatwg (silent [acme] 0) (query (Some "zzz") None None None) = OK r /\
    candidates r = [] /\ best r = None.
Proof.
  split; [reflexivity |]. split; [discriminate |].
  eexists. split; [vm_compute; reflexivity |]. split; reflexivity.
Qed.

(** A page size that is not whole can leave the last page empty: of 17
    candidates and the page size 5.666666666666666 the code makes
    [17 / perPage = 3.0000000000000004], so four pages, and page 4 starts at
    [3 * perPage = 17], behind the last candidate. *)
Lemma fractional_perPage_empties_last_page :
  exists r,
    @match_handler whatwg (silent (repeat branch 17) 5000)
      (Body.mk None None (Some "4155551212") None (Some (Fin 4))
         (Some (Fin (round64 (5666666666666666 # 1000000000000000)))) None None None None)
    = OK r /\
    total (meta r) = 17 /\ totalPages (meta r) = 4%Z /\ candidates r = [].
Proof.
  eexists. split; [vm_compute; reflexivity |]. repeat split.
Qed.

(** ** Canonical forms that are fixed points *)

Lemma host_char_facts (c : ascii) :
  is_host_char c = true ->
  url_safe c = true /\ WHATWG.is_authority_end c = false /\ Ascii.eqb c "@" = false /\
  Ascii.eqb c "[" = false /\ Ascii.eqb c "%" = false /\ Ascii.eqb c "/" = false /\
  lower_char c = c /\ WHATWG.forbidden_domain c = false.
Proof.
  destruct c as [[] [] [] [] [] [] [] []]; vm_compute; intro H;
    try discriminate H; repeat split.
Qed.

Lemma segment_char_facts (c : ascii) :
  is_segment_char c = true ->
  url_safe c = true /\ WHATWG.is_slash c = false /\ WHATWG.is_path_end c = false /\
  WHATWG.path_encode_set c = false /\ Ascii.eqb c "/" = false.
Proof.
  destruct c as [[] [] [] [] [] [] [] []]; vm_compute; intro H;
    try discriminate H; repeat split.
Qed.

Lemma url_safe_facts (c : ascii) :
  url_safe c = true ->
  WHATWG.is_c0_or_space c = false /\ WHATWG.is_tab_or_newline c = false /\
  is_ws c = false /\ Ascii.eqb c ":" = false /\ Ascii.eqb ":" (lower_char c) = false.
Proof.
  destruct c as [[] [] [] [] [] [] [] []]; vm_compute; intro H;
    try discriminate H; repeat split.
Qed.

Lemma lower_char_slash (c : ascii) : Ascii.eqb "/" (lower_char c) = Ascii.eqb "/" c.
Proof.
  destruct c as [[] [] [] [] [] [] [] []]; reflexivity.
Qed.

Lemma forall_str_impl (p q : ascii -> bool) (s : string) :
  (forall c, p c = true -> q c = true) -> forall_str p s = true -> forall_str q s = true.
Proof.
  intro H. induction s as [| c s IH]; simpl; [reflexivity |].
  rewrite !andb_true_iff. intros [Hc Hs]. split; [now apply H | now apply IH].
Qed.

Lemma forall_str_cons (p : ascii -> bool) (c : ascii) (s : string) :
  forall_str p (String c s) = true <-> p c = true /\ forall_str p s = true.
Proof. simpl. apply andb_true_iff. Qed.

Lemma trimEnd_safe (s : string) : forall_str url_safe s = true -> trimEnd s = s.
Proof.
  induction s as [| c s IH]; [reflexivity |].
  rewrite forall_str_cons. intros [Hc Hs]. cbn [trimEnd]. rewrite (IH Hs).
  destruct (url_safe_facts c Hc) as [_ [_ [W _]]]. rewrite W. now destruct s.
Qed.

Lemma trim_safe (s : string) : forall_str url_safe s = true -> trim s = s.
Proof.
  intro H. unfold trim.
  assert (S : trimStart s = s).
  { destruct s as [| c s]; [reflexivity |]. apply forall_str_cons in H.
    destruct (url_safe_facts c (proj1 H)) as [_ [_ [W _]]]. simpl. now rewrite W. }
  rewrite S. now apply trimEnd_safe.
Qed.

Lemma strip_trailing_safe (s : string) :
  forall_str url_safe s = true -> WHATWG.strip_trailing s = s.
Proof.
  induction s as [| c s IH]; [reflexivity |].
  rewrite forall_str_cons. intros [Hc Hs]. cbn [WHATWG.strip_trailing]. rewrite (IH Hs).
  destruct (url_safe_facts c Hc) as [W _]. rewrite W. now destruct s.
Qed.

Lemma filter_tabs_safe (s : string) :
  forall_str url_safe s = true ->
  filter_str (fun c => negb (WHATWG.is_tab_or_newline c)) s = s.
Proof.
  induction s as [| c s IH]; [reflexivity |].
  rewrite forall_str_cons. intros [Hc Hs]. simpl.
  destruct (url_safe_facts c Hc) as [_ [T _]]. rewrite T. simpl. now rewrite IH.
Qed.

Lemma strip_prefix_colon (s rest : string) :
  forall_str url_safe s = true -> strip_prefix (String ":" rest) s = None.
Proof.
  destruct s as [| c s]; [reflexivity |]. rewrite forall_str_cons. intros [Hc _].
  destruct (url_safe_facts c Hc) as [_ [_ [_ [C _]]]]. cbn [strip_prefix].
  rewrite Ascii.eqb_sym, C. reflexivity.
Qed.

Lemma strip_prefix_ci_safe (p s r : string) :
  forall_str url_safe s = true -> strip_prefix_ci p s = Some r -> forall_str url_safe r = true.
Proof.
  revert s. induction p as [| a p IH]; intros s H E; simpl in E.
  - now inversion E; subst.
  - destruct s as [| b s]; [discriminate |].
    destruct (Ascii.eqb a (lower_char b)); [| discriminate].
    apply forall_str_cons in H. now apply (IH s).
Qed.

Lemma strip_http_scheme_safe (s : string) :
  forall_str url_safe s = true -> strip_http_scheme true s = None.
Proof.
  intro H. unfold strip_http_scheme.
  destruct (strip_prefix_ci "http" s) as [r |] eqn:E; [| reflexivity].
  pose proof (strip_prefix_ci_safe _ _ _ H E) as Hr.
  destruct (strip_prefix_ci "s" r) as [r' |] eqn:E'.
  - apply strip_prefix_colon. now apply (strip_prefix_ci_safe _ _ _ Hr E').
  - now apply strip_prefix_colon.
Qed.

Lemma replace_first_ci_colon (pat r s : string) :
  forall_str url_safe s = true -> replace_first_ci (String ":" pat) r s = s.
Proof.
  induction s as [| c s IH]; [reflexivity |].
  rewrite forall_str_cons. intros [Hc Hs].
  destruct (url_safe_facts c Hc) as [_ [_ [_ [_ C]]]].
  cbn [replace_first_ci strip_prefix_ci]. rewrite C. now rewrite (IH Hs).
Qed.

Lemma includes_colon (rest s : string) :
  forall_str url_safe s = true -> includes (String ":" rest) s = false.
Proof.
  induction s as [| c s IH]; [reflexivity |].
  rewrite forall_str_cons. intros [Hc Hs].
  destruct (url_safe_facts c Hc) as [_ [_ [_ [C _]]]].
  cbn [includes]. unfold startsWith. cbn [strip_prefix].
  rewrite Ascii.eqb_sym, C. cbn [orb]. now apply IH.
Qed.

Lemma strip_prefix_ci_double_slash (p s : string) :
  single_slashes s = true -> strip_prefix_ci (p ++ "//") s = None.
Proof.
  revert s. induction p as [| a p IH]; intros s H.
  - destruct s as [| x [| y s]]; cbn [append strip_prefix_ci]; try reflexivity.
    + now destruct (Ascii.eqb "/" (lower_char x)).
    + cbn [single_slashes] in H. rewrite !lower_char_slash.
      rewrite (Ascii.eqb_sym "/" x), (Ascii.eqb_sym "/" y).
      destruct (Ascii.eqb x "/"), (Ascii.eqb y "/"); try reflexivity. discriminate.
  - destruct s as [| x s]; [reflexivity |]. cbn [append strip_prefix_ci].
    destruct (Ascii.eqb a (lower_char x)); [| reflexivity].
    apply IH. destruct s; [reflexivity |]. cbn [single_slashes] in H.
    now apply andb_true_iff in H.
Qed.

(** A string without colon, white space or doubled slash passes through
    [preSanitizeUrl] unchanged and gets the [https] scheme. *)
Lemma preSanitizeUrl_safe (s : string) :
  forall_str url_safe s = true -> single_slashes s = true ->
  preSanitizeUrl s = s /\ with_scheme s = ("https://" ++ s)%string.
Proof.
  intros H D. split.
  - unfold preSanitizeUrl. rewrite (trim_safe s H), (strip_http_scheme_safe s H).
    rewrite !(replace_first_ci_colon _ _ s H).
    unfold replace_prefix_ci.
    change "https//" with ("https" ++ "//")%string.
    change "http//" with ("http" ++ "//")%string.
    now rewrite !(strip_prefix_ci_double_slash _ s D).
  - unfold with_scheme. now rewrite (includes_colon _ s H).
Qed.

Lemma append_empty_r (s : string) : (s ++ "")%string = s.
Proof.
  induction s as [| c s IH]; simpl; [reflexivity | now rewrite IH].
Qed.

Lemma append_assoc (a b c : string) : ((a ++ b) ++ c)%string = (a ++ (b ++ c))%string.
Proof.
  induction a as [| x a IH]; simpl; [reflexivity | now rewrite IH].
Qed.

Lemma strip_trailing_cons (a : ascii) (s : string) :
  WHATWG.is_c0_or_space a = false ->
  WHATWG.strip_trailing (String a s) = String a (WHATWG.strip_trailing s).
Proof.
  intro H. cbn [WHATWG.strip_trailing]. destruct (WHATWG.strip_trailing s); now rewrite ?H.
Qed.

Lemma span_until_app (stop : ascii -> bool) (a b : string) :
  forall_str (fun c => negb (stop c)) a = true ->
  (b = "" \/ exists c b', b = String c b' /\ stop c = true) ->
  WHATWG.span_until stop (a ++ b) = (a, b).
Proof.
  intros Ha Hb. induction a as [| x a IH].
  - simpl. destruct Hb as [E | [c [b' [E S]]]]; subst; simpl; [reflexivity |].
    now rewrite S.
  - apply forall_str_cons in Ha. destruct Ha as [Hx Ha].
    apply negb_true_iff in Hx. cbn [append WHATWG.span_until]. rewrite Hx.
    now rewrite (IH Ha).
Qed.

Lemma span_until_all (stop : ascii -> bool) (a : string) :
  forall_str (fun c => negb (stop c)) a = true -> WHATWG.span_until stop a = (a, "").
Proof.
  intro H. rewrite <- (append_empty_r a) at 1. apply span_until_app; auto.
Qed.

Lemma includes_char (d : ascii) (s : string) :
  forall_str (fun c => negb (Ascii.eqb c d)) s = true -> includes (String d "") s = false.
Proof.
  induction s as [| c s IH]; [reflexivity |].
  rewrite forall_str_cons, negb_true_iff. intros [Hc Hs].
  cbn [includes]. unfold startsWith. cbn [strip_prefix].
  rewrite Ascii.eqb_sym, Hc. cbn [orb]. now apply IH.
Qed.

Lemma toLowerCase_fixed (s : string) :
  forall_str (fun c => Ascii.eqb (lower_char c) c) s = true -> toLowerCase s = s.
Proof.
  unfold toLowerCase. induction s as [| c s IH]; [reflexivity |].
  rewrite forall_str_cons. intros [Hc Hs]. apply Ascii.eqb_eq in Hc.
  simpl. now rewrite Hc, IH.
Qed.

Lemma forall_str_negb (p : ascii -> bool) (s : string) :
  forall_str (fun c => negb (p c)) s = true ->
  forall_str p s = true -> s = "".
Proof.
  destruct s as [| c s]; [reflexivity |]. rewrite !forall_str_cons.
  intros [H _] [H' _]. rewrite H' in H. discriminate.
Qed.

(** The host parser accepts a plain host as it is. *)
Lemma parse_host_plain (h : string) : plain_host h = true -> WHATWG.parse_host h = Some h.
Proof.
  unfold plain_host. rewrite !andb_true_iff, !negb_true_iff.
  intros [[[[T F] W] X] N].
  assert (L : toLowerCase h = h).
  { apply toLowerCase_fixed. eapply forall_str_impl; [| exact F].
    intros c Hc. destruct (host_char_facts c Hc) as [_ [_ [_ [_ [_ [_ [E _]]]]]]].
    rewrite E. apply Ascii.eqb_refl. }
  unfold WHATWG.parse_host. rewrite L, T. cbn [negb].
  assert (B : startsWith "[" h = false).
  { destruct h as [| c h]; [reflexivity |]. apply forall_str_cons in F.
    destruct (host_char_facts c (proj1 F)) as [_ [_ [_ [E _]]]].
    unfold startsWith. cbn [strip_prefix]. now rewrite Ascii.eqb_sym, E. }
  assert (P : includes "%" h = false).
  { apply includes_char. eapply forall_str_impl; [| exact F].
    intros c Hc. destruct (host_char_facts c Hc) as [_ [_ [_ [_ [E _]]]]]. now rewrite E. }
  rewrite B, P, X. cbn [orb].
  assert (D : forall_str (fun c => negb (WHATWG.forbidden_domain c)) h = true).
  { eapply forall_str_impl; [| exact F].
    intros c Hc. destruct (host_char_facts c Hc) as [_ [_ [_ [_ [_ [_ [_ E]]]]]]].
    now rewrite E. }
  rewrite D, N. reflexivity.
Qed.

Lemma encode_path_unreserved (seg : string) :
  forall_str is_segment_char seg = true -> WHATWG.encode_path seg = seg.
Proof.
  induction seg as [| c seg IH]; [reflexivity |].
  rewrite forall_str_cons. intros [Hc Hs].
  destruct (segment_char_facts c Hc) as [_ [_ [_ [E _]]]].
  cbn [WHATWG.encode_path]. now rewrite E, IH.
Qed.

Lemma lower_segment_char (c : ascii) :
  is_segment_char c = true ->
  Ascii.eqb (lower_char c) "%" = false /\ (lower_char c = "."%char -> c = "."%char).
Proof.
  destruct c as [[] [] [] [] [] [] [] []]; vm_compute; intro H;
    try discriminate H; split; try reflexivity; intro E; try discriminate E; reflexivity.
Qed.

Lemma toLowerCase_no_percent (seg : string) :
  forall_str is_segment_char seg = true ->
  forall_str (fun c => negb (Ascii.eqb c "%")) (toLowerCase seg) = true.
Proof.
  unfold toLowerCase. induction seg as [| c seg IH]; [reflexivity |].
  rewrite forall_str_cons. intros [Hc Hs]. simpl.
  destruct (lower_segment_char c Hc) as [E _]. rewrite E. now apply IH.
Qed.

(** An unreserved segment is no dot segment, in any spelling. *)
Lemma unreserved_not_dots (seg : string) :
  unreserved_segment seg = true ->
  WHATWG.is_single_dot seg = false /\ WHATWG.is_double_dot seg = false.
Proof.
  unfold unreserved_segment. rewrite !andb_true_iff, !negb_true_iff.
  intros [[F D1] D2].
  pose proof (toLowerCase_no_percent seg F) as NP.
  apply String.eqb_neq in D1, D2.
  assert (one : toLowerCase seg <> ".").
  { intro E. apply D1. destruct seg as [| c [| d seg]]; try discriminate.
    apply forall_str_cons in F. inversion E as [E1].
    now rewrite (proj2 (lower_segment_char c (proj1 F)) E1). }
  assert (two : toLowerCase seg <> "..").
  { intro E. apply D2. destruct seg as [| c [| d [| e seg]]]; try discriminate.
    apply forall_str_cons in F. destruct F as [Fc F]. apply forall_str_cons in F.
    inversion E as [[E1 E2]]. rewrite E1 in E2.
    rewrite (proj2 (lower_segment_char c Fc) E1).
    now rewrite (proj2 (lower_segment_char d (proj1 F)) E2). }
  unfold WHATWG.is_single_dot, WHATWG.is_double_dot, has. cbn [existsb].
  split.
  - destruct (String.eqb_spec (toLowerCase seg) "."); [contradiction |].
    destruct (String.eqb_spec (toLowerCase seg) "%2e") as [E |]; [| reflexivity].
    rewrite E in NP. discriminate.
  - destruct (String.eqb_spec (toLowerCase seg) ".."); [contradiction |].
    destruct (String.eqb_spec (toLowerCase seg) ".%2e") as [E |];
      [rewrite E in NP; discriminate |].
    destruct (String.eqb_spec (toLowerCase seg) "%2e.") as [E |];
      [rewrite E in NP; discriminate |].
    destruct (String.eqb_spec (toLowerCase seg) "%2e%2e") as [E |];
      [rewrite E in NP; discriminate |].
    reflexivity.
Qed.

Lemma walk_unreserved (segs : list string) :
  forallb unreserved_segment segs = true ->
  forall path, WHATWG.walk_segments segs path = (path ++ segs)%list.
Proof.
  induction segs as [| seg segs IH]; intros H path.
  - simpl. now rewrite app_nil_r.
  - cbn [forallb] in H. apply andb_true_iff in H. destruct H as [Hs Hr].
    cbn [WHATWG.walk_segments].
    assert (F : forall_str is_segment_char seg = true).
    { unfold unreserved_segment in Hs. rewrite !andb_true_iff in Hs. tauto. }
    rewrite (encode_path_unreserved seg F).
    destruct (unreserved_not_dots seg Hs) as [D1 D2]. rewrite D1, D2.
    rewrite (IH Hr). now rewrite <- app_assoc.
Qed.

Lemma unreserved_chars (seg : string) :
  unreserved_segment seg = true -> forall_str is_segment_char seg = true.
Proof.
  unfold unreserved_segment. rewrite !andb_true_iff. tauto.
Qed.

Lemma split_serialized (segs : list string) :
  forallb unreserved_segment segs = true ->
  forall seg, forall_str is_segment_char seg = true ->
    split_on WHATWG.is_slash (seg ++ WHATWG.serialize_path segs) = seg :: segs.
Proof.
  induction segs as [| s1 rest IH]; intros H seg F.
  - cbn [WHATWG.serialize_path]. rewrite append_empty_r.
    induction seg as [| c seg IHs]; [reflexivity |].
    apply forall_str_cons in F. destruct F as [Fc F].
    destruct (segment_char_facts c Fc) as [_ [S _]].
    cbn [split_on]. rewrite S, (IHs F). reflexivity.
  - cbn [forallb] in H. apply andb_true_iff in H. destruct H as [H1 Hr].
    induction seg as [| c seg IHs].
    + cbn [append WHATWG.serialize_path split_on].
      change (WHATWG.is_slash "/") with true. cbn iota.
      now rewrite (IH Hr s1 (unreserved_chars s1 H1)).
    + apply forall_str_cons in F. destruct F as [Fc F].
      destruct (segment_char_facts c Fc) as [_ [S _]].
      cbn [append split_on]. rewrite S, (IHs F). reflexivity.
Qed.

Lemma serialized_chars (p : ascii -> bool) (segs : list string) :
  p "/"%char = true ->
  forallb (forall_str p) segs = true ->
  forall_str p (WHATWG.serialize_path segs) = true.
Proof.
  intros Hs. induction segs as [| seg segs IH]; intro H; [reflexivity |].
  cbn [forallb] in H. apply andb_true_iff in H. destruct H as [H1 Hr].
  cbn [WHATWG.serialize_path append forall_str]. rewrite Hs, forall_str_app, H1, (IH Hr).
  reflexivity.
Qed.

Lemma forallb_impl {A : Type} (p q : A -> bool) (l : list A) :
  (forall x, p x = true -> q x = true) -> forallb p l = true -> forallb q l = true.
Proof.
  intro H. induction l as [| x l IH]; simpl; [reflexivity |].
  rewrite !andb_true_iff. intros [Hx Hl]. split; [now apply H | now apply IH].
Qed.

Lemma serialized_start (segs : list string) :
  WHATWG.serialize_path segs = "" \/
  exists c b', WHATWG.serialize_path segs = String c b' /\ c = "/"%char.
Proof.
  destruct segs as [| seg segs]; [now left |]. right.
  cbn [WHATWG.serialize_path append]. eauto.
Qed.

(** The parser on a plain host followed by unreserved segments. *)
Lemma parse_plain (h : string) (segs : list string) :
  plain_host h = true -> forallb unreserved_segment segs = true ->
  WHATWG.parse ("https://" ++ h ++ WHATWG.serialize_path segs)
  = Some (mkURL h (match segs with
                   | [] => "/"
                   | _ => WHATWG.serialize_path segs
                   end)).
Proof.
  intros Hh Hsegs.
  pose proof Hh as Hh'. unfold plain_host in Hh'. rewrite !andb_true_iff in Hh'.
  destruct Hh' as [[[[T F] _] _] _].
  set (p := WHATWG.serialize_path segs).
  assert (Fp : forall q, q "/"%char = true ->
                         (forall c, is_segment_char c = true -> q c = true) ->
                         forall_str q p = true).
  { intros q Q1 Q2. apply serialized_chars; [exact Q1 |].
    eapply forallb_impl; [| exact Hsegs]. intros seg Hs.
    eapply forall_str_impl; [exact Q2 | now apply unreserved_chars]. }
  assert (safe : forall_str url_safe (h ++ p) = true).
  { rewrite forall_str_app. apply andb_true_iff. split.
    - eapply forall_str_impl; [| exact F]. intros c Hc. now apply host_char_facts.
    - apply Fp; [reflexivity |]. intros c Hc. now apply segment_char_facts. }
  unfold WHATWG.parse, WHATWG.preprocess.
  assert (pre : filter_str (fun c => negb (WHATWG.is_tab_or_newline c))
                  (WHATWG.strip_trailing (WHATWG.strip_leading ("https://" ++ h ++ p)))
                = ("https://" ++ h ++ p)%string).
  { cbn [append WHATWG.strip_leading]. change (WHATWG.is_c0_or_space "h") with false.
    cbn iota. rewrite !strip_trailing_cons by reflexivity.
    rewrite (strip_trailing_safe _ safe). cbn [filter_str].
    change (negb (WHATWG.is_tab_or_newline "h")) with true.
    change (negb (WHATWG.is_tab_or_newline "t")) with true.
    change (negb (WHATWG.is_tab_or_newline "p")) with true.
    change (negb (WHATWG.is_tab_or_newline "s")) with true.
    change (negb (WHATWG.is_tab_or_newline ":")) with true.
    change (negb (WHATWG.is_tab_or_newline "/")) with true.
    cbn iota. now rewrite (filter_tabs_safe _ safe). }
  rewrite pre.
  change (WHATWG.split_scheme ("https://" ++ h ++ p))
    with (Some ("https", String "/" (String "/" (h ++ p)))).
  change (WHATWG.is_special "https") with true. cbn iota.
  unfold WHATWG.parse_special.
  assert (skip : WHATWG.skip_slashes (String "/" (String "/" (h ++ p))) = (h ++ p)%string).
  { cbn [WHATWG.skip_slashes]. change (WHATWG.is_slash "/") with true. cbn iota.
    destruct h as [| c h]; [discriminate |]. apply forall_str_cons in F.
    destruct (host_char_facts c (proj1 F)) as [_ [A _]].
    unfold WHATWG.is_authority_end in A. apply orb_false_iff in A. destruct A as [A _].
    apply orb_false_iff in A. destruct A as [A _].
    cbn [append WHATWG.skip_slashes]. now rewrite A. }
  rewrite skip.
  rewrite (span_until_app WHATWG.is_authority_end h p).
  2:{ eapply forall_str_impl; [| exact F]. intros c Hc.
      destruct (host_char_facts c Hc) as [_ [A _]]. now rewrite A. }
  2:{ destruct (serialized_start segs) as [E | [c [b' [E C]]]]; [now left |].
      right. exists c, b'. subst c. split; [exact E | reflexivity]. }
  assert (noat : includes "@" h = false).
  { apply includes_char. eapply forall_str_impl; [| exact F]. intros c Hc.
    destruct (host_char_facts c Hc) as [_ [_ [A _]]]. now rewrite A. }
  rewrite noat.
  rewrite (span_until_all (Ascii.eqb ":") h).
  2:{ eapply forall_str_impl; [| exact F]. intros c Hc.
      destruct (host_char_facts c Hc) as [U _].
      destruct (url_safe_facts c U) as [_ [_ [_ [A _]]]].
      now rewrite Ascii.eqb_sym, A. }
  rewrite (parse_host_plain h Hh). cbn [WHATWG.port_ok].
  rewrite (span_until_all WHATWG.is_path_end p).
  2:{ apply Fp; [reflexivity |]. intros c Hc.
      destruct (segment_char_facts c Hc) as [_ [_ [A _]]]. now rewrite A. }
  f_equal. f_equal. subst p.
  destruct segs as [| seg rest]; [reflexivity |].
  cbn [forallb] in Hsegs. apply andb_true_iff in Hsegs. destruct Hsegs as [H1 Hr].
  cbn [WHATWG.serialize_path append]. change (WHATWG.is_slash "/") with true. cbn iota.
  rewrite (split_serialized rest Hr seg (unreserved_chars seg H1)).
  rewrite walk_unreserved by (cbn [forallb]; now rewrite H1, Hr).
  reflexivity.
Qed.

Lemma single_slashes_cons (a b : ascii) (r : string) :
  single_slashes (String a (String b r))
  = negb (Ascii.eqb a "/" && Ascii.eqb b "/") && single_slashes (String b r).
Proof. reflexivity. Qed.

Lemma single_slashes_head (c : ascii) (s : string) :
  Ascii.eqb c "/" = false -> single_slashes s = true -> single_slashes (String c s) = true.
Proof.
  intros Hc Hs. destruct s as [| d s]; [reflexivity |].
  rewrite single_slashes_cons, Hc. exact Hs.
Qed.

Lemma single_slashes_serialized (segs : list string) :
  forallb plain_segment segs = true ->
  forall seg, forall_str (fun c => negb (Ascii.eqb c "/")) seg = true ->
    single_slashes (seg ++ WHATWG.serialize_path segs) = true.
Proof.
  induction segs as [| s1 rest IH]; intros H seg F.
  - cbn [WHATWG.serialize_path]. rewrite append_empty_r.
    induction seg as [| c seg IHs]; [reflexivity |].
    apply forall_str_cons in F. destruct F as [Fc F]. apply negb_true_iff in Fc.
    apply single_slashes_head; [exact Fc | now apply IHs].
  - cbn [forallb] in H. apply andb_true_iff in H. destruct H as [H1 Hr].
    unfold plain_segment in H1. apply andb_true_iff in H1. destruct H1 as [T1 U1].
    assert (F1 : forall_str (fun c => negb (Ascii.eqb c "/")) s1 = true).
    { eapply forall_str_impl; [| exact (unreserved_chars s1 U1)]. intros c Hc.
      destruct (segment_char_facts c Hc) as [_ [_ [_ [_ E]]]]. now rewrite E. }
    pose proof (IH Hr s1 F1) as tail.
    destruct s1 as [| c1 s1]; [discriminate |].
    apply forall_str_cons in F1. destruct F1 as [Fc1 _]. apply negb_true_iff in Fc1.
    induction seg as [| c seg IHs].
    + cbn [append WHATWG.serialize_path]. cbn [append] in tail.
      rewrite single_slashes_cons, Fc1, andb_false_r. exact tail.
    + apply forall_str_cons in F. destruct F as [Fc F]. apply negb_true_iff in Fc.
      cbn [append]. apply single_slashes_head; [exact Fc | now apply IHs].
Qed.

Lemma ends_with_char_app (d : ascii) (a b : string) :
  b <> "" -> ends_with_char d (a ++ b) = ends_with_char d b.
Proof.
  intro H. induction a as [| c a IH]; [reflexivity |].
  cbn [append ends_with_char]. rewrite <- IH.
  destruct (a ++ b)%string eqn:E; [| reflexivity].
  destruct a; simpl in E; [contradiction | discriminate].
Qed.

Lemma ends_with_char_absent (d : ascii) (s : string) :
  forall_str (fun c => negb (Ascii.eqb c d)) s = true -> ends_with_char d s = false.
Proof.
  induction s as [| c s IH]; [reflexivity |].
  rewrite forall_str_cons, negb_true_iff. intros [Hc Hs].
  cbn [ends_with_char]. destruct s; [exact Hc | now apply IH].
Qed.

Lemma serialized_no_trailing_slash (segs : list string) :
  segs <> [] -> forallb plain_segment segs = true ->
  ends_with_char "/" (WHATWG.serialize_path segs) = false.
Proof.
  induction segs as [| seg rest IH]; intros N H; [congruence |].
  cbn [forallb] in H. apply andb_true_iff in H. destruct H as [H1 Hr].
  unfold plain_segment in H1. apply andb_true_iff in H1. destruct H1 as [T1 U1].
  cbn [WHATWG.serialize_path].
  destruct rest as [| s2 rest].
  - cbn [WHATWG.serialize_path]. rewrite append_empty_r.
    change (String "/" seg) with ("/" ++ seg)%string.
    rewrite ends_with_char_app by (now apply truthy_true).
    apply ends_with_char_absent.
    eapply forall_str_impl; [| exact (unreserved_chars seg U1)]. intros c Hc.
    destruct (segment_char_facts c Hc) as [_ [_ [_ [_ E]]]]. now rewrite E.
  - change (String "/" seg ++ WHATWG.serialize_path (s2 :: rest))%string
      with (("/" ++ seg) ++ WHATWG.serialize_path (s2 :: rest))%string.
    rewrite ends_with_char_app by discriminate.
    apply IH; [discriminate | exact Hr].
Qed.

Lemma plain_segments_unreserved (segs : list string) :
  forallb plain_segment segs = true -> forallb unreserved_segment segs = true.
Proof.
  apply forallb_impl. intros seg H. unfold plain_segment in H.
  now apply andb_true_iff in H.
Qed.

(** A plain host followed by plain segments is its own canonical form. *)
Lemma canonicalUrl_plain (h : string) (segs : list string) :
  plain_host h = true -> forallb plain_segment segs = true ->
  canonicalUrl (h ++ WHATWG.serialize_path segs) = (h ++ WHATWG.serialize_path segs)%string.
Proof.
  intros Hh Hsegs.
  pose proof Hh as Hh'. unfold plain_host in Hh'.
  rewrite !andb_true_iff, !negb_true_iff in Hh'.
  destruct Hh' as [[[[T F] W] _] _].
  pose proof (plain_segments_unreserved segs Hsegs) as Hun.
  assert (safe : forall_str url_safe (h ++ WHATWG.serialize_path segs) = true).
  { rewrite forall_str_app. apply andb_true_iff. split.
    - eapply forall_str_impl; [| exact F]. intros c Hc. now apply host_char_facts.
    - apply serialized_chars; [reflexivity |].
      eapply forallb_impl; [| exact Hun]. intros seg Hs.
      eapply forall_str_impl; [| exact (unreserved_chars seg Hs)].
      intros c Hc. now apply segment_char_facts. }
  assert (single : single_slashes (h ++ WHATWG.serialize_path segs) = true).
  { apply single_slashes_serialized; [exact Hsegs |].
    eapply forall_str_impl; [| exact F]. intros c Hc.
    destruct (host_char_facts c Hc) as [_ [_ [_ [_ [_ [E _]]]]]]. now rewrite E. }
  destruct (preSanitizeUrl_safe _ safe single) as [P S].
  unfold canonicalUrl. rewrite P, S. unfold new_URL, whatwg.
  rewrite (parse_plain h segs Hh Hun). cbn [hostname pathname].
  assert (L : toLowerCase h = h).
  { apply toLowerCase_fixed. eapply forall_str_impl; [| exact F].
    intros c Hc. destruct (host_char_facts c Hc) as [_ [_ [_ [_ [_ [_ [E _]]]]]]].
    rewrite E. apply Ascii.eqb_refl. }
  assert (R : replace_prefix "www." "" h = h).
  { unfold replace_prefix. unfold startsWith in W.
    now destruct (strip_prefix "www." h). }
  rewrite L, R.
  destruct segs as [| seg rest].
  - cbn [WHATWG.serialize_path]. rewrite (append_empty_r h). reflexivity.
  - pose proof (serialized_no_trailing_slash (seg :: rest) ltac:(discriminate) Hsegs) as E.
    cbn [forallb] in Hsegs. apply andb_true_iff in Hsegs. destruct Hsegs as [H1 _].
    unfold plain_segment in H1. apply andb_true_iff in H1. destruct H1 as [T1 _].
    assert (shape : exists c q, WHATWG.serialize_path (seg :: rest) = String "/" (String c q)).
    { destruct seg as [| c seg]; [discriminate |]. cbn [WHATWG.serialize_path append]. eauto. }
    destruct shape as [c [q Q]].
    cbv zeta. rewrite Q in *.
    change (truthy (String "/" (String c q))) with true. cbn iota.
    change (String.eqb (String "/" (String c q)) "/") with false.
    change (String.eqb (String "/" (String c q)) "") with false.
    cbn [orb]. rewrite E. reflexivity.
Qed.

Lemma replace_runs_absent (cls : ascii -> bool) (r s : string) :
  forall_str (fun c => negb (cls c)) s = true -> replace_runs cls r s = s.
Proof.
  induction s as [| c s IH]; [reflexivity |].
  rewrite forall_str_cons, negb_true_iff. intros [Hc Hs].
  cbn [replace_runs]. now rewrite Hc, IH.
Qed.

Lemma split_on_absent (sep : ascii -> bool) (s : string) :
  forall_str (fun c => negb (sep c)) s = true -> split_on sep s = [s].
Proof.
  induction s as [| c s IH]; [reflexivity |].
  rewrite forall_str_cons, negb_true_iff. intros [Hc Hs].
  cbn [split_on]. now rewrite Hc, IH.
Qed.

(** [facebook.com/<handle>] is its own canonical form. *)
Lemma canonicalFacebook_handle (seg : string) :
  unreserved_segment seg = true ->
  canonicalFacebook ("facebook.com/" ++ seg) = ("facebook.com/" ++ seg)%string.
Proof.
  intro Hs. pose proof (unreserved_chars seg Hs) as F.
  assert (noslash : forall_str (fun c => negb (Ascii.eqb "/" c)) seg = true).
  { eapply forall_str_impl; [| exact F]. intros c Hc.
    destruct (segment_char_facts c Hc) as [_ [_ [_ [_ E]]]].
    now rewrite Ascii.eqb_sym, E. }
  assert (safe : forall_str url_safe ("facebook.com/" ++ seg) = true).
  { rewrite forall_str_app. apply andb_true_iff. split; [reflexivity |].
    eapply forall_str_impl; [| exact F]. intros c Hc. now apply segment_char_facts. }
  unfold canonicalFacebook, with_scheme. rewrite (includes_colon _ _ safe).
  unfold new_URL, whatwg.
  replace ("https://" ++ "facebook.com/" ++ seg)%string
    with ("https://" ++ "facebook.com" ++ WHATWG.serialize_path [seg])%string
    by (cbn [WHATWG.serialize_path append]; now rewrite append_empty_r).
  rewrite (parse_plain "facebook.com" [seg]) by (reflexivity || (cbn [forallb]; now rewrite Hs)).
  cbn [hostname pathname WHATWG.serialize_path]. rewrite append_empty_r.
  change (toLowerCase "facebook.com") with "facebook.com".
  change (replace_prefix "m." "" "facebook.com") with "facebook.com".
  change (replace_prefix "www." "" "facebook.com") with "facebook.com".
  change (String.eqb "facebook.com" "fb.com") with false.
  change (String.eqb "facebook.com" "facebook.com") with true.
  cbn [negb].
  assert (runs : replace_runs (Ascii.eqb "/") "/" (String "/" seg) = String "/" seg).
  { cbn [replace_runs]. change (Ascii.eqb "/" "/") with true. cbn iota.
    destruct seg as [| c seg]; [reflexivity |].
    pose proof noslash as N. apply forall_str_cons in N. destruct N as [Nc _].
    apply negb_true_iff in Nc. rewrite Nc.
    now rewrite (replace_runs_absent _ _ _ noslash). }
  change (String "/" seg ++ "")%string with (String "/" (seg ++ "")).
  rewrite runs. unfold split_char. cbn [split_on]. change (Ascii.eqb "/" "/") with true.
  cbn iota. rewrite (split_on_absent _ _ noslash).
  unfold filter_Boolean. cbn [filter truthy String.eqb negb].
  destruct seg as [| c seg]; reflexivity.
Qed.

(** C6, as the code has it.  Canonicalisation is stable on plain forms: when
    the canonical form of a website is a plain lower-case host followed by
    plain path segments, canonicalising it again changes nothing, and
    likewise for a facebook form [facebook.com/<handle>] with an unreserved
    handle. *)
Theorem canonicalization_idempotent_on_plain_forms
  (x y : string)
  (site : site_shape (canonicalUrl x))
  (handle : handle_shape (canonicalFacebook y)) :
  canonicalUrl (canonicalUrl x) = canonicalUrl x /\
  canonicalFacebook (canonicalFacebook y) = canonicalFacebook y.
Proof.
  split.
  - destruct site as [h [segs [E [Hh Hs]]]]. rewrite E. now apply canonicalUrl_plain.
  - destruct handle as [seg [E Hs]]. rewrite E. now apply canonicalFacebook_handle.
Qed.

Lemma canonicalization_idempotent_witness :
  canonicalUrl (canonicalUrl "https://https//WWW.Forcht-Law.com/about/Team/")
  = canonicalUrl "https://https//WWW.Forcht-Law.com/about/Team/" /\
  canonicalFacebook (canonicalFacebook "https://m.facebook.com/acme/photos?ref=x")
  = canonicalFacebook "https://m.facebook.com/acme/photos?ref=x".
Proof.
  apply canonicalization_idempotent_on_plain_forms.
  - exists "forcht-law.com", ["about"; "Team"]. repeat split.
  - exists "acme". repeat split.
Defined.

(** C6, as stated, fails for both functions: only one trailing slash is
    removed, so "http://example.com//" becomes "example.com/", and that
    becomes "example.com". *)
Lemma canonicalization_is_not_idempotent :
  canonicalUrl "http://example.com//" = "example.com/" /\
  canonicalUrl (canonicalUrl "http://example.com//") = "example.com" /\
  canonicalFacebook "http://example.com//" = "example.com/" /\
  canonicalFacebook (canonicalFacebook "http://example.com//") = "example.com".
Proof.
  repeat split.
Qed.
(** * Further properties of the code *)

(** ** Token similarity *)

Lemma length_filter_le {A : Type} (p : A -> bool) (l : list A) :
  List.length (filter p l) <= List.length l.
Proof.
  induction l as [| x l IH]; simpl; [lia |]. destruct (p x); simpl; lia.
Qed.

Lemma length_filter_all {A : Type} (p : A -> bool) (l : list A) :
  List.length (filter p l) = List.length l <-> forallb p l = true.
Proof.
  induction l as [| x l IH]; simpl; [tauto |].
  pose proof (length_filter_le p l). destruct (p x); simpl.
  - rewrite <- IH. lia.
  - split; [lia | discriminate].
Qed.

Lemma new_Set_nonempty (a : list string) : a <> [] -> new_Set a <> [].
Proof. destruct a; [congruence | discriminate]. Qed.

(** The two ways of counting the common tokens agree. *)
Lemma common_tokens_sym (a b : list string) :
  List.length (filter (fun x => has x (new_Set b)) (new_Set a))
  = List.length (filter (fun x => has x (new_Set a)) (new_Set b)).
Proof.
  apply nodup_same_length.
  - apply NoDup_filter, new_Set_NoDup.
  - apply NoDup_filter, new_Set_NoDup.
  - intro x. rewrite !filter_In, !has_In. tauto.
Qed.

Lemma Qdiv_nat_range (i u : nat) :
  i <= u -> 0 < u ->
  (0 <= inject_Z (Z.of_nat i) / inject_Z (Z.of_nat u) <= 1)%Q.
Proof.
  intros Hi Hu.
  assert (P : (0 < inject_Z (Z.of_nat u))%Q).
  { change 0%Q with (inject_Z 0). rewrite <- Zlt_Qlt. lia. }
  split.
  - apply Qle_shift_div_l; [exact P |]. rewrite Qmult_0_l.
    change 0%Q with (inject_Z 0). rewrite <- Zle_Qle. lia.
  - apply Qle_shift_div_r; [exact P |]. rewrite Qmult_1_l.
    rewrite <- Zle_Qle. lia.
Qed.

Lemma Qdiv_nat_one (i u : nat) :
  0 < u -> ((inject_Z (Z.of_nat i) / inject_Z (Z.of_nat u) == 1)%Q <-> i = u).
Proof.
  intro Hu.
  assert (P : ~ (inject_Z (Z.of_nat u) == 0)%Q).
  { change 0%Q with (inject_Z 0). rewrite inject_Z_injective. lia. }
  split.
  - intro E.
    assert (X : (inject_Z (Z.of_nat i) == inject_Z (Z.of_nat u))%Q).
    { transitivity (inject_Z (Z.of_nat u)
                    * (inject_Z (Z.of_nat i) / inject_Z (Z.of_nat u)))%Q.
      - symmetry. now apply Qmult_div_r.
      - rewrite E. ring. }
    rewrite inject_Z_injective in X. lia.
  - intro E. subst i. unfold Qdiv. now rewrite Qmult_inv_r.
Qed.

(** X1.  [jaccard] is a similarity on token sets: it does not depend on the
    order of its arguments, lies between 0 and 1, and is 1 exactly when the
    two arrays hold the same tokens (for arrays that are not empty; it is 0
    as soon as one of them is). *)
Theorem jaccard_is_a_similarity (a b : list string) :
  (jaccard a b == jaccard b a)%Q /\
  (0 <= jaccard a b <= 1)%Q /\
  (a = [] \/ b = [] -> jaccard a b = 0%Q) /\
  (a <> [] -> b <> [] ->
   ((jaccard a b == 1)%Q <-> forall x, In x a <-> In x b)).
Proof.
  assert (sizes : forall a b : list string,
             a <> [] -> b <> [] ->
             let i := List.length (filter (fun x => has x (new_Set b)) (new_Set a)) in
             i <= List.length (new_Set a) /\ i <= List.length (new_Set b) /\
             0 < List.length (new_Set a)).
  { intros a0 b0 Ha Hb i. split; [apply length_filter_le |]. split.
    - unfold i. rewrite common_tokens_sym. apply length_filter_le.
    - pose proof (new_Set_nonempty a0 Ha). destruct (new_Set a0); simpl; [congruence | lia]. }
  split; [| split; [| split]].
  - destruct a as [| x a], b as [| y b]; try reflexivity.
    unfold jaccard. cbv zeta. rewrite (common_tokens_sym (x :: a) (y :: b)).
    now rewrite (Nat.add_comm (List.length (new_Set (x :: a)))).
  - destruct a as [| x a], b as [| y b]; try (simpl; lra).
    destruct (sizes (x :: a) (y :: b)) as [S1 [S2 S3]]; try discriminate.
    unfold jaccard. cbv zeta. apply Qdiv_nat_range; lia.
  - intros [E | E]; subst; [reflexivity | now destruct a].
  - intros Ha Hb.
    destruct (sizes a b Ha Hb) as [S1 [S2 S3]].
    assert (J : jaccard a b
                = (inject_Z (Z.of_nat (List.length
                                         (filter (fun x => has x (new_Set b)) (new_Set a))))
                   / inject_Z (Z.of_nat (List.length (new_Set a) + List.length (new_Set b)
                                         - List.length
                                             (filter (fun x => has x (new_Set b)) (new_Set a)))))%Q).
    { destruct a, b; try congruence. reflexivity. }
    rewrite J, Qdiv_nat_one by lia.
    pose proof (common_tokens_sym a b) as C.
    split.
    + intros E x.
      assert (Ea : List.length (filter (fun x => has x (new_Set b)) (new_Set a))
                   = List.length (new_Set a)) by lia.
      assert (Eb : List.length (filter (fun x => has x (new_Set a)) (new_Set b))
                   = List.length (new_Set b)) by lia.
      apply length_filter_all in Ea, Eb. rewrite forallb_forall in Ea, Eb.
      split; intro Hx.
      * apply new_Set_In in Hx. apply Ea in Hx. apply has_In in Hx. now apply new_Set_In.
      * apply new_Set_In in Hx. apply Eb in Hx. apply has_In in Hx. now apply new_Set_In.
    + intro same.
      assert (Ea : List.length (filter (fun x => has x (new_Set b)) (new_Set a))
                   = List.length (new_Set a)).
      { apply length_filter_all, forallb_forall. intros x Hx.
        apply has_In, new_Set_In, same. now apply new_Set_In. }
      assert (Eb : List.length (filter (fun x => has x (new_Set a)) (new_Set b))
                   = List.length (new_Set b)).
      { apply length_filter_all, forallb_forall. intros x Hx.
        apply has_In, new_Set_In, same. now apply new_Set_In. }
      lia.
Qed.

(** ** Edit distance *)

Lemma firstn_S_nth {A : Type} (l : list A) (i : nat) (d : A) :
  i < List.length l -> firstn (S i) l = firstn i l ++ [nth i l d].
Proof.
  revert i. induction l as [| x l IH]; intros i H; [simpl in H; lia |].
  destruct i as [| i]; [reflexivity |].
  simpl in H. cbn [firstn nth app]. cbn [firstn] in IH. rewrite (IH i) by lia. reflexivity.
Qed.

Section EditDistanceFacts.

Variables a b : list ascii.

Lemma levenshtein_at_unfold (i j : nat) :
  levenshtein_at a b (S i) (S j)
  = Nat.min (Nat.min (levenshtein_at a b i (S j) + 1) (levenshtein_at a b (S i) j + 1))
            (levenshtein_at a b i j
             + if Ascii.eqb (nth i a zero) (nth j b zero) then 0 else 1).
Proof. reflexivity. Qed.

Lemma levenshtein_at_le_max (i j : nat) : levenshtein_at a b i j <= Nat.max i j.
Proof.
  revert j. induction i as [| i IH]; intro j; [simpl; lia |].
  induction j as [| j IHj]; [simpl; lia |].
  rewrite levenshtein_at_unfold. pose proof (IH j).
  destruct (Ascii.eqb (nth i a zero) (nth j b zero)); lia.
Qed.

(** Distance 0 between two prefixes: they are equal. *)
Lemma levenshtein_at_zero (i j : nat) :
  i <= List.length a -> j <= List.length b ->
  levenshtein_at a b i j = 0 -> i = j /\ firstn i a = firstn j b.
Proof.
  revert j. induction i as [| i IH]; intros j Hi Hj.
  - simpl. intro E. subst j. now split.
  - induction j as [| j IHj]; [simpl; discriminate |].
    rewrite levenshtein_at_unfold. intro E.
    destruct (Ascii.eqb_spec (nth i a zero) (nth j b zero)) as [C | C]; [| lia].
    destruct (IH j) as [E1 E2]; [lia | lia | lia |]. subst j.
    split; [reflexivity |].
    rewrite (firstn_S_nth a i zero), (firstn_S_nth b i zero) by lia.
    now rewrite E2, C.
Qed.

End EditDistanceFacts.

Lemma levenshtein_at_refl (a : list ascii) (i : nat) : levenshtein_at a a i i = 0.
Proof.
  induction i as [| i IH]; [reflexivity |].
  rewrite levenshtein_at_unfold, IH, Ascii.eqb_refl. lia.
Qed.

Lemma levenshtein_at_sym (a b : list ascii) (i j : nat) :
  levenshtein_at a b i j = levenshtein_at b a j i.
Proof.
  revert j. induction i as [| i IH]; intro j.
  - destruct j; reflexivity.
  - induction j as [| j IHj]; [reflexivity |].
    rewrite !levenshtein_at_unfold, IHj, (IH (S j)), (IH j).
    rewrite (Ascii.eqb_sym (nth i a zero)). lia.
Qed.

Lemma list_ascii_inj (s t : string) :
  list_ascii_of_string s = list_ascii_of_string t -> s = t.
Proof.
  intro E. rewrite <- (string_of_list_ascii_of_string s), <- (string_of_list_ascii_of_string t).
  now rewrite E.
Qed.

(** The distance of the table is 0 exactly between equal strings, is at most
    the longer length, and does not depend on the order of the strings. *)
Lemma levenshtein_facts (s t : string) :
  levenshtein s t <= Nat.max (String.length s) (String.length t) /\
  (levenshtein s t = 0 <-> s = t) /\
  levenshtein s t = levenshtein t s.
Proof.
  unfold levenshtein. split; [apply levenshtein_at_le_max |]. split.
  - split.
    + intro E. apply levenshtein_at_zero in E; rewrite ?length_list_ascii; try lia.
      destruct E as [_ Ef].
      rewrite <- (length_list_ascii s), <- (length_list_ascii t), !firstn_all in Ef.
      now apply list_ascii_inj.
    + intro E. subst t. apply levenshtein_at_refl.
  - apply levenshtein_at_sym.
Qed.

Lemma Qratio_nat (d m : nat) :
  d <= m -> 0 < m ->
  (0 <= 1 - inject_Z (Z.of_nat d) / inject_Z (Z.of_nat m) <= 1)%Q /\
  ((1 - inject_Z (Z.of_nat d) / inject_Z (Z.of_nat m) == 1)%Q <-> d = 0).
Proof.
  intros Hd Hm. pose proof (Qdiv_nat_range d m Hd Hm) as R.
  assert (P : ~ (inject_Z (Z.of_nat m) == 0)%Q).
  { change 0%Q with (inject_Z 0). rewrite inject_Z_injective. lia. }
  split; [lra |]. split.
  - intro E.
    assert (X : (inject_Z (Z.of_nat d) == inject_Z 0)%Q).
    { transitivity (inject_Z (Z.of_nat m)
                    * (inject_Z (Z.of_nat d) / inject_Z (Z.of_nat m)))%Q.
      - symmetry. now apply Qmult_div_r.
      - assert (Z0 : (inject_Z (Z.of_nat d) / inject_Z (Z.of_nat m) == 0)%Q) by lra.
        rewrite Z0. change (inject_Z 0) with 0%Q. ring. }
    rewrite inject_Z_injective in X. lia.
  - intro E. subst d. change (inject_Z (Z.of_nat 0)) with 0%Q. rewrite Qdiv_0_l. lra.
Qed.

(** X2.  [levenshteinRatio] lies between 0 and 1, is 1 exactly on equal
    strings, and does not depend on the order of its arguments. *)
Theorem levenshteinRatio_is_a_similarity (s t : string) :
  (0 <= levenshteinRatio s t <= 1)%Q /\
  ((levenshteinRatio s t == 1)%Q <-> s = t) /\
  (levenshteinRatio s t == levenshteinRatio t s)%Q.
Proof.
  rewrite !levenshteinRatio_is_edit_distance_ratio. unfold edit_distance_ratio.
  destruct (levenshtein_facts s t) as [B [Z0 S]].
  rewrite <- S, (Nat.max_comm (String.length t)).
  assert (both : s = "" /\ t = "" \/
                 String.eqb s "" && String.eqb t "" = false /\
                 0 < Nat.max (String.length s) (String.length t)).
  { destruct s, t; simpl; try (right; split; [reflexivity | lia]). now left. }
  destruct both as [[Es Et] | [F P]].
  - subst. cbn [String.eqb andb]. split; [lra |]. split; [split; reflexivity | reflexivity].
  - rewrite F, (andb_comm (String.eqb t "")), F.
    destruct (Qratio_nat _ _ B P) as [R O].
    split; [exact R |]. split; [| reflexivity]. now rewrite O.
Qed.

(** ** Tokens *)

Lemma trimEnd_no_ws (s : string) :
  forall_str (fun c => negb (is_ws c)) s = true -> trimEnd s = s.
Proof.
  induction s as [| c s IH]; [reflexivity |].
  rewrite forall_str_cons, negb_true_iff. intros [Hc Hs].
  cbn [trimEnd]. rewrite (IH Hs), Hc. now destruct s.
Qed.

Lemma trim_no_ws (s : string) :
  forall_str (fun c => negb (is_ws c)) s = true -> trim s = s.
Proof.
  intro H. unfold trim.
  assert (S : trimStart s = s).
  { destruct s as [| c s]; [reflexivity |]. apply forall_str_cons in H.
    destruct H as [Hc _]. apply negb_true_iff in Hc. cbn [trimStart]. now rewrite Hc. }
  rewrite S. now apply trimEnd_no_ws.
Qed.

Lemma replace_runs_chars (cls q : ascii -> bool) (r s : string) :
  (forall c, cls c = false -> q c = true) -> forall_str q r = true ->
  forall_str q (replace_runs cls r s) = true.
Proof.
  intros Hq Hr. induction s as [| c s IH]; [reflexivity |].
  cbn [replace_runs]. destruct (cls c) eqn:C.
  - destruct s as [| c' s]; [exact Hr |].
    destruct (cls c'); [exact IH |]. rewrite forall_str_app, Hr. exact IH.
  - apply forall_str_cons. split; [now apply Hq | exact IH].
Qed.

Lemma split_on_chars (sep q : ascii -> bool) (s : string) :
  forall_str q s = true ->
  Forall (fun piece => forall_str (fun c => q c && negb (sep c)) piece = true)
    (split_on sep s).
Proof.
  induction s as [| c s IH]; [repeat constructor |].
  rewrite forall_str_cons. intros [Hc Hs]. specialize (IH Hs).
  cbn [split_on]. destruct (sep c) eqn:C; [constructor; [reflexivity | exact IH] |].
  destruct (split_on sep s) as [| h t].
  - repeat constructor. cbn [forall_str]. now rewrite Hc, C.
  - inversion IH as [| ? ? Hh Ht]. subst. constructor; [| exact Ht].
    cbn [forall_str]. now rewrite Hc, C, Hh.
Qed.

Lemma token_char_facts (c : ascii) :
  ((is_lower c || is_digit c) || Ascii.eqb c " ") && negb (Ascii.eqb " " c) = true ->
  is_lower c || is_digit c = true /\ negb (is_ws c) = true.
Proof.
  destruct c as [[] [] [] [] [] [] [] []]; vm_compute; intro H;
    try discriminate H; split; reflexivity.
Qed.

Lemma tokenize_clean (s : string) :
  Forall (fun t => 2 <= String.length t /\
                   forall_str (fun c => is_lower c || is_digit c) t = true /\
                   has t STOP = false)
    (tokenize s).
Proof.
  unfold tokenize. apply Forall_forall. intros t Ht.
  apply filter_In in Ht. destruct Ht as [Ht Hf].
  apply andb_true_iff in Hf. destruct Hf as [Hl Hs].
  apply Nat.ltb_lt in Hl. apply negb_true_iff in Hs.
  apply in_map_iff in Ht. destruct Ht as [piece [E Hp]].
  assert (R : forall_str (fun c => (is_lower c || is_digit c) || Ascii.eqb c " ")
                (replace_runs (fun c => negb (is_lower c || is_digit c)) " " s) = true).
  { apply replace_runs_chars; [| reflexivity].
    intros c Hc. apply negb_false_iff in Hc. now rewrite Hc. }
  pose proof (split_on_chars (Ascii.eqb " ") _ _ R) as P.
  rewrite Forall_forall in P. specialize (P piece Hp).
  assert (clean : forall_str (fun c => is_lower c || is_digit c) piece = true).
  { eapply forall_str_impl; [| exact P]. intros c Hc. now apply token_char_facts. }
  assert (T : trim piece = piece).
  { apply trim_no_ws. eapply forall_str_impl; [| exact P]. intros c Hc.
    now apply token_char_facts. }
  rewrite T in E. subst piece. repeat split; [lia | exact clean | exact Hs].
Qed.

(** X3.  Every token of a name or of a host has at least two characters,
    consists of lower-case letters and digits only, and is no stop word. *)
Theorem tokens_are_clean (s : string) :
  let clean t :=
    2 <= String.length t /\
    forall_str (fun c => is_lower c || is_digit c) t = true /\
    has t STOP = false in
  Forall clean (nameTokens s) /\ Forall clean (domainTokens s).
Proof.
  cbv zeta. split; [apply tokenize_clean |]. unfold domainTokens. apply tokenize_clean.
Qed.

(** ** The range of the scores *)

Lemma bucket_range (table : list (Q * Q)) (top : Q) (x : Q) :
  Forall (fun row => (0.5 <= snd row <= top)%Q) table ->
  (bucket table x == 0 \/ 0.5 <= bucket table x)%Q /\ (0 <= bucket table x)%Q /\
  ((0.5 <= top)%Q -> (bucket table x <= top)%Q).
Proof.
  induction table as [| [t pts] table IH]; intro H.
  - simpl. split; [left; reflexivity |]. split; lra.
  - inversion H as [| ? ? Hrow Hrest]. subst. simpl in Hrow.
    cbn [bucket]. destruct (Qle_bool t x).
    + split; [right; lra |]. split; lra.
    + now apply IH.
Qed.

Lemma fast_name_range (g e : bool) (j l : Q) :
  let part := (if g then if e then 3
                         else bucket name_jaccard_table j + bucket edit_ratio_table l
               else 0)%Q in
  (part == 0 \/ 0.5 <= part)%Q /\ (0 <= part <= 3.5)%Q.
Proof.
  cbv zeta.
  destruct (bucket_range name_jaccard_table 2 j) as [J1 [J2 J3]];
    [repeat constructor; simpl; lra |].
  destruct (bucket_range edit_ratio_table 1.5 l) as [L1 [L2 L3]];
    [repeat constructor; simpl; lra |].
  destruct g; [| split; [left; reflexivity | lra]].
  destruct e; [split; [right; lra | lra] |].
  split; [| lra]. destruct J1, L1; [left | right | right | right]; lra.
Qed.

Lemma fastScore_bounds (pre : Pre.t) (c : AugProfile) :
  (0 <= fastScore pre c <= 17.5)%Q /\
  (fastScore pre c == 0 \/ 0.5 <= fastScore pre c)%Q.
Proof.
  rewrite !fastScore_sum.
  pose proof (fast_name_range
                (truthy (Pre.nameNorm pre) && truthy (_nameNorm c))
                (String.eqb (Pre.nameNorm pre) (_nameNorm c))
                (jaccard (Pre.nameTokens pre) (_nameTokens c))
                (levenshteinRatio (Pre.nameNorm pre) (_nameNorm c))) as N.
  cbv zeta in N. destruct N as [N1 N2].
  destruct (bucket_range domain_jaccard_table 2
              (jaccard (Pre.domainTokens pre) (_domainTokens c))) as [D1 [D2 D3]];
    [repeat constructor; simpl; lra |].
  set (name_part := (if truthy (Pre.nameNorm pre) && truthy (_nameNorm c) then _ else _)%Q) in *.
  set (dom := bucket domain_jaccard_table _) in *.
  destruct (truthy (Pre.canonSite pre) && String.eqb (Pre.canonSite pre) (_canonSite c)),
    (nonempty (Pre.domainTokens pre) && nonempty (_domainTokens c)),
    (truthy (Pre.phone10 pre) && has (Pre.phone10 pre) (_last10Phones c)),
    (truthy (Pre.fbHandle pre) && has (Pre.fbHandle pre) (_fbHandles c));
    (split; [lra |]); destruct N1, D1; try (right; lra); left; lra.
Qed.

(** X4.  The score of a record lies between 0 and 17.5, and a score that is
    not 0 is at least 0.5. *)
Theorem fastScore_range (pre : Pre.t) (c : AugProfile) :
  (0 <= fastScore pre c <= 17.5)%Q /\
  (fastScore pre c == 0 \/ 0.5 <= fastScore pre c)%Q.
Proof. exact (fastScore_bounds pre c). Qed.

(** X5.  A candidate found by fuzzy text search alone scores at least 0.1
    and, for a distance that is not negative, at most 0.5 (0.4 for a stub of
    the names dataset): never more than a record with a signal match. *)
Theorem fuzzy_score_below_signal_score
  (raw : option Q) (positive : match raw with Some d => (0 <= d)%Q | None => True end)
  (pre : Pre.t) (c : AugProfile) :
  (0.1 <= fuzzy_score 0.5 raw <= 0.5)%Q /\
  (0.1 <= fuzzy_score 0.4 raw <= 0.4)%Q /\
  (~ (fastScore pre c == 0)%Q -> (fuzzy_score 0.5 raw <= fastScore pre c)%Q).
Proof.
  assert (R : forall f : Q, (0.1 <= f)%Q -> (0.1 <= fuzzy_score f raw <= f)%Q).
  { intros f Hf. unfold fuzzy_score. split; [apply Q.le_max_l |].
    apply Q.max_lub; [exact Hf |]. destruct raw as [d |]; nra. }
  split; [apply R; lra |]. split; [apply R; lra |].
  intro S. destruct (fastScore_bounds pre c) as [_ [Z | P]]; [contradiction |].
  destruct (R 0.5%Q ltac:(lra)). lra.
Qed.

Lemma fuzzy_score_below_signal_score_witness :
  (0.1 <= fuzzy_score 0.5 (Some 0.25) <= 0.5)%Q.
Proof.
  exact (proj1 (fuzzy_score_below_signal_score (Some 0.25%Q) ltac:(simpl; lra)
                  (precompute (query None None None None)) (augment 0 acme))).
Defined.

(** ** Request validation *)

Lemma trimStart_trimEnd (s : string) :
  trimStart (trimEnd (trimStart s)) = trimEnd (trimStart s).
Proof.
  destruct (trimStart s) as [| c t] eqn:E; [reflexivity |].
  pose proof (trimStart_head s c t E) as Hc.
  destruct (trimEnd_head c t Hc) as [t' Et]. rewrite Et.
  cbn [trimStart]. now rewrite Hc.
Qed.

Lemma trimEnd_idem (s : string) : trimEnd (trimEnd s) = trimEnd s.
Proof.
  induction s as [| c s IH]; [reflexivity |].
  cbn [trimEnd]. destruct (trimEnd s) as [| d t] eqn:E.
  - destruct (is_ws c) eqn:C; [reflexivity |]. cbn [trimEnd]. now rewrite C.
  - cbn [trimEnd]. cbn [trimEnd] in IH. rewrite IH. reflexivity.
Qed.

Lemma trim_idem (s : string) : trim (trim s) = trim s.
Proof.
  unfold trim. rewrite trimStart_trimEnd. apply trimEnd_idem.
Qed.

Lemma limitStr_spec (max : nat) (field out : option string) :
  limitStr max field = Some out ->
  limitStr max out = Some out /\
  match field, out with
  | Some s, Some t => t = trim s /\ String.length t <= max
  | None, None => True
  | _, _ => False
  end.
Proof.
  unfold limitStr. destruct field as [s |].
  - destruct (String.length (trim s) <=? max) eqn:L; [| discriminate].
    intro E. inversion E. subst out. rewrite trim_idem, L.
    apply Nat.leb_le in L. auto.
  - intro E. inversion E. auto.
Qed.

(** X6.  A request that passes the schema has its five string fields
    trimmed and within their limits (256, 2048, 64, 2048 and 256
    characters), keeps its other fields, and passes the schema unchanged. *)
Theorem QuerySchema_trims_and_bounds (raw body : Body.t)
  (valid : QuerySchema raw = Some body) :
  let bounded (max : nat) (sent kept : option string) :=
    match sent, kept with
    | Some s, Some t => t = trim s /\ String.length t <= max
    | None, None => True
    | _, _ => False
    end in
  bounded 256 (Body.name raw) (Body.name body) /\
  bounded 2048 (Body.website raw) (Body.website body) /\
  bounded 64 (Body.phone raw) (Body.phone body) /\
  bounded 2048 (Body.facebook raw) (Body.facebook body) /\
  bounded 256 (Body.contains raw) (Body.contains body) /\
  (Body.page body, Body.perPage body, Body.sort body, Body.dir body, Body.minScore body)
  = (Body.page raw, Body.perPage raw, Body.sort raw, Body.dir raw, Body.minScore raw) /\
  QuerySchema body = Some body.
Proof.
  cbv zeta. unfold QuerySchema in valid.
  destruct (limitStr 256 (Body.name raw)) as [n |] eqn:N; [| discriminate].
  destruct (limitStr 2048 (Body.website raw)) as [w |] eqn:W; [| discriminate].
  destruct (limitStr 64 (Body.phone raw)) as [p |] eqn:P; [| discriminate].
  destruct (limitStr 2048 (Body.facebook raw)) as [f |] eqn:F; [| discriminate].
  destruct (limitStr 256 (Body.contains raw)) as [c |] eqn:C; [| discriminate].
  inversion valid. subst body. cbn.
  destruct (limitStr_spec _ _ _ N) as [N1 N2], (limitStr_spec _ _ _ W) as [W1 W2],
    (limitStr_spec _ _ _ P) as [P1 P2], (limitStr_spec _ _ _ F) as [F1 F2],
    (limitStr_spec _ _ _ C) as [C1 C2].
  repeat (split; [assumption || reflexivity |]).
  unfold QuerySchema. cbn. now rewrite N1, W1, P1, F1, C1.
Qed.

Lemma QuerySchema_trims_and_bounds_witness :
  Body.name (query (Some "Acme Inc") None (Some "+1 415 555 1212") None) = Some "Acme Inc" /\
  QuerySchema (query (Some "Acme Inc") None (Some "+1 415 555 1212") None)
  = Some (query (Some "Acme Inc") None (Some "+1 415 555 1212") None).
Proof.
  assert (valid : QuerySchema (query (Some "  Acme Inc ") None (Some "+1 415 555 1212 ") None)
                  = Some (query (Some "Acme Inc") None (Some "+1 415 555 1212") None))
    by (vm_compute; reflexivity).
  split; [reflexivity |].
  exact (proj2 (proj2 (proj2 (proj2 (proj2 (proj2
           (QuerySchema_trims_and_bounds _ _ valid))))))).
Defined.

(** ** The lookup maps *)

Lemma lookup_addToIndex (m : Lookup) (t k : string) (i : nat) :
  lookup (addToIndex m t i) k
  = lookup m k ++ (if truthy t && String.eqb t k then [i] else []).
Proof.
  destruct (truthy t) eqn:T.
  - cbn [andb]. induction m as [| [k' arr] m IH].
    + cbn [addToIndex]. rewrite T. cbn [negb lookup]. now destruct (String.eqb t k).
    + cbn [addToIndex]. rewrite T. cbn [negb].
      destruct (String.eqb_spec k' t) as [E | E].
      * subst k'. cbn [lookup]. destruct (String.eqb t k); [reflexivity |].
        now rewrite app_nil_r.
      * cbn [lookup]. destruct (String.eqb_spec k' k) as [E' | E'].
        -- subst k'. destruct (String.eqb_spec t k); [congruence |]. now rewrite app_nil_r.
        -- exact IH.
  - cbn [andb]. rewrite app_nil_r. destruct m as [| [k' arr] m]; cbn [addToIndex];
      now rewrite T.
Qed.

(** How often [i] is filed under [k] by the keys of one record. *)
Lemma lookup_fold_addToIndex (keys : list string) (m : Lookup) (k : string) (i : nat) :
  lookup (fold_left (fun acc t => addToIndex acc t i) keys m) k
  = lookup m k
    ++ repeat i (List.length (filter (fun t => truthy t && String.eqb t k) keys)).
Proof.
  revert m. induction keys as [| t keys IH]; intro m; cbn [fold_left filter].
  - now rewrite app_nil_r.
  - rewrite IH, lookup_addToIndex, <- app_assoc.
    destruct (truthy t && String.eqb t k); reflexivity.
Qed.

Lemma count_in_set (keys : list string) (k : string) :
  NoDup keys ->
  List.length (filter (fun t => truthy t && String.eqb t k) keys)
  = if truthy k && has k keys then 1 else 0.
Proof.
  induction 1 as [| t keys Hnotin Hnd IH]; [now rewrite andb_false_r |].
  cbn [filter has existsb]. fold (has k keys).
  destruct (String.eqb_spec t k) as [E | E].
  - subst t. rewrite (String.eqb_refl k). cbn [orb]. rewrite andb_true_r.
    assert (N : has k keys = false).
    { destruct (has k keys) eqn:H; [| reflexivity]. apply has_In in H. contradiction. }
    rewrite N, andb_false_r in IH. destruct (truthy k); cbn [andb List.length]; lia.
  - rewrite andb_false_r. rewrite IH.
    destruct (String.eqb_spec k t); [congruence | reflexivity].
Qed.

Section MapsContent.

Context {parser : URLParser}.

(** The four maps after the records [cs], each as a fold of its own. *)
Lemma index_profiles_maps (cs : list AugProfile) (m : Maps) :
  let file (K : AugProfile -> list string) (m0 : Lookup) :=
    fold_left (fun acc c => fold_left (fun acc t => addToIndex acc t (_id c)) (K c) acc)
      cs m0 in
  byCanonSite (fold_left index_profile cs m) = file (fun c => [_canonSite c]) (byCanonSite m) /\
  byPhone10 (fold_left index_profile cs m) = file _last10Phones (byPhone10 m) /\
  byFacebook (fold_left index_profile cs m) = file _fbHandles (byFacebook m) /\
  byDomainToken (fold_left index_profile cs m) = file _domainTokens (byDomainToken m).
Proof.
  cbv zeta. revert m. induction cs as [| c cs IH]; intro m; [now cbn |].
  cbn [fold_left]. destruct (IH (index_profile m c)) as [A [B [C D]]].
  rewrite A, B, C, D. repeat split.
Qed.

Lemma lookup_file (K : AugProfile -> list string) (cs : list AugProfile) (m : Lookup)
  (k : string) :
  lookup
    (fold_left (fun acc c => fold_left (fun acc t => addToIndex acc t (_id c)) (K c) acc) cs m)
    k
  = lookup m k
    ++ flat_map (fun c => repeat (_id c)
                            (List.length
                               (filter (fun t => truthy t && String.eqb t k) (K c)))) cs.
Proof.
  revert m. induction cs as [| c cs IH]; intro m; cbn [fold_left flat_map].
  - now rewrite app_nil_r.
  - now rewrite IH, lookup_fold_addToIndex, <- app_assoc.
Qed.

Lemma flat_map_sets (K : AugProfile -> list string) (cs : list AugProfile) (k : string) :
  Forall (fun c => NoDup (K c)) cs ->
  flat_map (fun c => repeat (_id c)
                       (List.length (filter (fun t => truthy t && String.eqb t k) (K c)))) cs
  = map _id (filter (fun c => truthy k && has k (K c)) cs).
Proof.
  induction 1 as [| c cs Hc Hcs IH]; [reflexivity |].
  cbn [flat_map filter]. rewrite IH, (count_in_set _ k Hc).
  destruct (truthy k && has k (K c)); reflexivity.
Qed.

Lemma in_flat_map_repeat (K : AugProfile -> list string) (cs : list AugProfile) (k : string)
  (i : nat) :
  In i (flat_map (fun c => repeat (_id c)
                             (List.length
                                (filter (fun t => truthy t && String.eqb t k) (K c)))) cs)
  <-> In i (map _id (filter (fun c => truthy k && has k (K c)) cs)).
Proof.
  rewrite in_flat_map, in_map_iff. split.
  - intros [c [Hc Hi]]. exists c.
    destruct (filter (fun t => truthy t && String.eqb t k) (K c)) as [| t rest] eqn:F;
      [contradiction |].
    apply repeat_spec in Hi. split; [now symmetry |]. apply filter_In. split; [exact Hc |].
    assert (Ht : In t (filter (fun t => truthy t && String.eqb t k) (K c)))
      by (rewrite F; now left).
    apply filter_In in Ht. destruct Ht as [Ht Hk]. apply andb_true_iff in Hk.
    destruct Hk as [T E]. apply String.eqb_eq in E. subst t. rewrite T. cbn [andb].
    now apply has_In.
  - intros [c [E Hc]]. apply filter_In in Hc. destruct Hc as [Hc Hk].
    apply andb_true_iff in Hk. destruct Hk as [T H]. apply has_In in H.
    exists c. split; [exact Hc |]. subst i.
    destruct (filter (fun t => truthy t && String.eqb t k) (K c)) as [| t rest] eqn:F.
    + exfalso. assert (X : In k (filter (fun t => truthy t && String.eqb t k) (K c))).
      { apply filter_In. split; [exact H |]. now rewrite T, String.eqb_refl. }
      now rewrite F in X.
    + now left.
Qed.

End MapsContent.

Section MapsOfCatalog.

Context {parser : URLParser} {dep : Deployment}.

Lemma profiles_augmented :
  Forall (fun c => exists i p, c = augment i p) profiles.
Proof.
  unfold profiles, load_profiles. generalize 0.
  induction catalog as [| p ps IH]; intro k; cbn [augment_from]; constructor; eauto.
Qed.

Lemma lookup_byCanonSite (k : string) :
  lookup (byCanonSite maps) k
  = positions (fun c => truthy k && String.eqb (_canonSite c) k).
Proof.
  unfold maps, load_maps. fold profiles.
  destruct (index_profiles_maps profiles (mkMaps [] [] [] [])) as [A _].
  cbv zeta in A. rewrite A, lookup_file. cbn [byCanonSite lookup app].
  rewrite flat_map_sets by (apply Forall_forall; intros; repeat constructor; simpl; tauto).
  unfold positions. f_equal. apply filter_ext. intro c. cbn [has existsb].
  now rewrite orb_false_r, String.eqb_sym.
Qed.

Lemma lookup_byPhone10 (k : string) :
  lookup (byPhone10 maps) k = positions (fun c => has k (_last10Phones c)).
Proof.
  unfold maps, load_maps. fold profiles.
  destruct (index_profiles_maps profiles (mkMaps [] [] [] [])) as [_ [A _]].
  cbv zeta in A. rewrite A, lookup_file. cbn [byPhone10 lookup app].
  rewrite flat_map_sets.
  - unfold positions. f_equal. apply filter_ext_in. intros c Hc.
    pose proof profiles_augmented as P. rewrite Forall_forall in P.
    destruct (P c Hc) as [i [p E]]. subst c.
    destruct (truthy k) eqn:T; [reflexivity |]. apply truthy_false in T. subst k.
    now rewrite no_empty_phone_key.
  - eapply Forall_impl; [| exact profiles_augmented]. intros c [i [p E]]. subst c.
    apply new_Set_NoDup.
Qed.

Lemma lookup_byFacebook (k : string) :
  lookup (byFacebook maps) k = positions (fun c => has k (_fbHandles c)).
Proof.
  unfold maps, load_maps. fold profiles.
  destruct (index_profiles_maps profiles (mkMaps [] [] [] [])) as [_ [_ [A _]]].
  cbv zeta in A. rewrite A, lookup_file. cbn [byFacebook lookup app].
  rewrite flat_map_sets.
  - unfold positions. f_equal. apply filter_ext_in. intros c Hc.
    pose proof profiles_augmented as P. rewrite Forall_forall in P.
    destruct (P c Hc) as [i [p E]]. subst c.
    destruct (truthy k) eqn:T; [reflexivity |]. apply truthy_false in T. subst k.
    now rewrite no_empty_fb_handle.
  - eapply Forall_impl; [| exact profiles_augmented]. intros c [i [p E]]. subst c.
    apply new_Set_NoDup.
Qed.

Lemma lookup_byDomainToken (k : string) (i : nat) :
  In i (lookup (byDomainToken maps) k) <-> In i (positions (fun c => has k (_domainTokens c))).
Proof.
  unfold maps, load_maps. fold profiles.
  destruct (index_profiles_maps profiles (mkMaps [] [] [] [])) as [_ [_ [_ A]]].
  cbv zeta in A. rewrite A, lookup_file. cbn [byDomainToken lookup app].
  rewrite in_flat_map_repeat. unfold positions.
  assert (E : filter (fun c => truthy k && has k (_domainTokens c)) profiles
              = filter (fun c => has k (_domainTokens c)) profiles).
  { apply filter_ext_in. intros c Hc.
    pose proof profiles_augmented as P. rewrite Forall_forall in P.
    destruct (P c Hc) as [j [p E]]. subst c.
    destruct (truthy k) eqn:T; [reflexivity |]. apply truthy_false in T. subst k.
    cbn [andb]. symmetry. cbn [augment _domainTokens].
    destruct (truthy (getHost (website p))); [| reflexivity].
    destruct (has "" (tokenizeDomain (getHost (website p)))) eqn:H; [| reflexivity].
    apply has_In in H. pose proof (tokenize_clean
      (toLowerCase (join "." (let parts := split_char "." (getHost (website p)) in
         if (1 <? List.length parts) && has (last parts "") COMMON_TLDS
         then removelast parts else parts)))) as C.
    rewrite Forall_forall in C. apply C in H. simpl in H. lia. }
  now rewrite E.
Qed.

End MapsOfCatalog.

Lemma positions_from (parser : URLParser) (p : AugProfile -> bool) (ps : list Profile)
  (k : nat) :
  (forall i, In i (map _id (filter p (augment_from k ps)))
             <-> exists q, k <= i /\ nth_error ps (i - k) = Some q /\ p (augment i q) = true) /\
  StronglySorted lt (map _id (filter p (augment_from k ps))).
Proof.
  revert k. induction ps as [| q ps IH]; intro k.
  - split; [| constructor]. intro i. cbn. split; [tauto |]. intros [x [_ [E _]]].
    destruct (i - k); discriminate.
  - destruct (IH (S k)) as [IH1 IH2]. cbn [augment_from filter]. split.
    + intro i.
      assert (tail : In i (map _id (filter p (augment_from (S k) ps)))
                     <-> exists x, k <= i /\ i <> k /\ nth_error (q :: ps) (i - k) = Some x
                                   /\ p (augment i x) = true).
      { rewrite IH1. split.
        - intros [x [L [E P]]]. exists x. repeat split; [lia | lia | | exact P].
          replace (i - k) with (S (i - S k)) by lia. exact E.
        - intros [x [L [N [E P]]]]. exists x. repeat split; [lia | | exact P].
          replace (i - k) with (S (i - S k)) in E by lia. exact E. }
      destruct (p (augment k q)) eqn:P.
      * cbn [map In _id augment]. rewrite tail. split.
        -- intros [E | [x [L [N [E P']]]]].
           ++ subst i. exists q. rewrite Nat.sub_diag. repeat split; [lia | exact P].
           ++ exists x. tauto.
        -- intros [x [L [E P']]]. destruct (Nat.eq_dec i k) as [D | D].
           ++ now left.
           ++ right. exists x. tauto.
      * rewrite tail. split.
        -- intros [x [L [N [E P']]]]. exists x. tauto.
        -- intros [x [L [E P']]]. exists x. repeat split; try assumption.
           intro D. subst i. rewrite Nat.sub_diag in E. inversion E. subst x. congruence.
    + destruct (p (augment k q)); [| exact IH2].
      cbn [map]. constructor; [exact IH2 |]. apply Forall_forall. intros i Hi.
      apply IH1 in Hi. destruct Hi as [x [L _]]. cbn. lia.
Qed.

Lemma positions_spec (parser : URLParser) (dep : Deployment) (p : AugProfile -> bool) :
  (forall i, In i (positions p)
             <-> exists q, nth_error catalog i = Some q /\ p (augment i q) = true) /\
  StronglySorted lt (positions p).
Proof.
  destruct (positions_from parser p catalog 0) as [A B]. split; [| exact B].
  intro i. unfold positions, profiles, load_profiles. rewrite A, Nat.sub_0_r.
  split; intros [q H]; exists q; [tauto | repeat split; try tauto; lia].
Qed.

(** X7.  The lookup maps index the catalog: under a key, [byCanonSite],
    [byPhone10] and [byFacebook] hold exactly the positions of the records
    with that canonical site (never filed under the empty key), that phone
    key or that facebook handle, once each and in catalog order, and
    [byDomainToken] holds the positions of the records with that token.
    ([positions p] lists, in increasing order, the catalog positions whose
    augmented record satisfies [p].) *)
Theorem lookup_maps_index_the_catalog
  (parser : URLParser) (dep : Deployment) (k : string) :
  lookup (byCanonSite maps) k
  = positions (fun c => truthy k && String.eqb (_canonSite c) k) /\
  lookup (byPhone10 maps) k = positions (fun c => has k (_last10Phones c)) /\
  lookup (byFacebook maps) k = positions (fun c => has k (_fbHandles c)) /\
  (forall i, In i (lookup (byDomainToken maps) k)
             <-> In i (positions (fun c => has k (_domainTokens c)))) /\
  (forall p : AugProfile -> bool,
      StronglySorted lt (positions p) /\
      forall i, In i (positions p)
                <-> exists q, nth_error catalog i = Some q /\ p (augment i q) = true).
Proof.
  split; [apply lookup_byCanonSite |]. split; [apply lookup_byPhone10 |].
  split; [apply lookup_byFacebook |]. split; [apply lookup_byDomainToken |].
  intro p. destruct (positions_spec parser dep p). now split.
Qed.

(** ** The outcomes of the handler *)


Section Total.

Context {parser : URLParser} {dep : Deployment}.


Hypothesis mini_ok : forall q, Forall (fun i => i < List.length catalog) (miniSearch q).
Hypothesis fuse_ok :
  forall q, Forall (fun r => refIndex r < List.length catalog) (fuzzyIndex q).
Hypothesis loose_ok :
  forall q, Forall (fun r => refIndex r < List.length catalog) (fuzzyIndexLoose q).


(** The scored list that reaches the ranking is empty only over an empty
    catalog or with a brute-force cap below 1. *)
Lemma safety_net_nonempty (body : Body.t) (scored out : list Scored) :
  catalog <> [] -> (1 <= MAX_BRUTE_FORCE)%Z -> any_field body = true ->
  safety_net body (precompute body) scored = Some out -> out <> [].
Proof.
  intros stocked cap asked S.
  destruct (brute_force_scores_sample (precompute body) stocked cap)
    as [sampled [_ [Sne B]]].
  assert (decide : Forall (fun s => (score s == 0)%Q) scored
                   \/ (scored <> [] /\ ~ Forall (fun s => (score s == 0)%Q) scored)).
  { destruct (forallb (fun s => Qeq_bool (score s) 0) scored) eqn:E.
    - left. apply Forall_forall. intros s Hs. rewrite forallb_forall in E.
      apply Qeq_bool_iff. now apply E.
    - right. split.
      + intro N. subst scored. discriminate.
      + intro F. rewrite (all_zero_forallb scored F) in E. discriminate. }
  destruct decide as [zero | [ne pos]].
  - rewrite (safety_net_without_signal body _ scored asked zero) in S.
    destruct (fuzzy_hits body) as [| h rest] eqn:H; cbn [nonempty] in S.
    + rewrite B in S.
      assert (O : out = firstn 10 (sort_by by_score_desc sampled)) by congruence.
      rewrite O. intro E.
      apply (f_equal (@List.length Scored)) in E.
      rewrite length_firstn, length_sort_by in E.
      destruct sampled; [congruence | simpl in E; lia].
    + apply map_opt_length in S. destruct out; [discriminate | discriminate].
  - rewrite (safety_net_with_signal body _ scored ne pos) in S. congruence.
Qed.


End Total.

(** A request that is not a form post, with the names dataset at hand, is
    answered as [match_handler] says. *)
Lemma post_match_json (parser : URLParser) (dep : Deployment) (post : Post) :
  isForm post = false -> post_match true post = match_handler (fields post).
Proof.
  intro J. unfold post_match, match_handler. rewrite J. cbn [andb negb].
  destruct (QuerySchema (fields post)) as [body |]; [| reflexivity].
  destruct (any_field body); [| reflexivity]. cbn [negb].
  destruct (map_opt (score_at (precompute body)) (gather body)) as [scored |]; [| reflexivity].
  destruct (safety_net body (precompute body) scored) as [out |]; [| reflexivity].
  now rewrite andb_false_r.
Qed.

(** So is a request that passes the CSRF check, whatever the state of the
    names dataset, over a non-empty catalog with a brute-force cap of at
    least 1: something is scored, and the names dataset is not read. *)
Lemma post_match_scored
  (parser : URLParser) (dep : Deployment) (names_at_hand : bool) (post : Post)
  (body : Body.t) :
  QuerySchema (fields post) = Some body -> any_field body = true ->
  isForm post = false \/ csrf_valid post = true ->
  catalog <> [] -> (1 <= MAX_BRUTE_FORCE)%Z ->
  post_match names_at_hand post = match_handler (fields post).
Proof.
  intros valid asked passes stocked cap. unfold post_match, match_handler.
  rewrite valid, asked. cbn [negb].
  assert (C : isForm post && negb (csrf_valid post) = false).
  { destruct passes as [H | H]; rewrite H; [reflexivity | apply andb_false_r]. }
  rewrite C.
  destruct (map_opt (score_at (precompute body)) (gather body)) as [scored |]; [| reflexivity].
  destruct (safety_net body (precompute body) scored) as [out |] eqn:S; [| reflexivity].
  pose proof (safety_net_nonempty body scored out stocked cap asked S) as N.
  destruct out; [congruence | reflexivity].
Qed.



(** ** Pages, with the rounding of the code *)

Lemma truncate_comp (x y : Q) : (x == y)%Q -> truncate x = truncate y.
Proof.
  intro E. unfold truncate.
  assert (C : Qle_bool 0 x = Qle_bool 0 y).
  { destruct (Qle_bool 0 x) eqn:X, (Qle_bool 0 y) eqn:Y; try reflexivity.
    - apply Qle_bool_iff in X. rewrite E in X. apply Qle_bool_iff in X. congruence.
    - apply Qle_bool_iff in Y. rewrite <- E in Y. apply Qle_bool_iff in Y. congruence. }
  rewrite C. destruct (Qle_bool 0 y); [now apply Qfloor_comp | now apply Qceiling_comp].
Qed.

Lemma truncate_inject_Z (z : Z) : truncate (inject_Z z) = z.
Proof.
  unfold truncate. destruct (Qle_bool 0 (inject_Z z)); [apply Qfloor_Z | apply Qceiling_Z].
Qed.

Lemma slice_nat {A : Type} (l : list A) (a b : nat) :
  slice l (Z.of_nat a) (Z.of_nat b) = firstn (b - a) (skipn a l).
Proof.
  unfold slice, relative_index.
  replace (Z.of_nat a <? 0)%Z with false by (symmetry; apply Z.ltb_ge; lia).
  replace (Z.of_nat b <? 0)%Z with false by (symmetry; apply Z.ltb_ge; lia).
  rewrite !Nat2Z.id.
  destruct (Nat.le_gt_cases (List.length l) a) as [H | H].
  - rewrite (Nat.min_r a) by exact H. rewrite !skipn_all2 by lia. now rewrite !firstn_nil.
  - rewrite (Nat.min_l a) by lia.
    rewrite <- (firstn_min (b - a)), length_skipn.
    f_equal. lia.
Qed.

Lemma slice_segment {A : Type} (l : list A) (x y : Z) :
  exists before after, l = before ++ slice l x y ++ after.
Proof.
  unfold slice. set (from := relative_index (List.length l) x).
  set (to := relative_index (List.length l) y).
  exists (firstn from l), (skipn (to - from) (skipn from l)).
  now rewrite firstn_skipn, firstn_skipn.
Qed.

(** Consecutive chunks of [n] elements make up a prefix. *)
Lemma chunks_prefix {A : Type} (l : list A) (n pages : nat) :
  flat_map (fun p => firstn n (skipn ((p - 1) * n) l)) (seq 1 pages) = firstn (pages * n) l.
Proof.
  induction pages as [| k IH]; [reflexivity |].
  rewrite seq_S, flat_map_app, IH. cbn [flat_map Nat.add]. rewrite app_nil_r.
  replace (S k - 1) with k by lia.
  rewrite <- (firstn_skipn (k * n) (firstn (S k * n) l)).
  rewrite firstn_firstn, Nat.min_l by lia.
  f_equal. rewrite skipn_firstn_comm. f_equal. lia.
Qed.

Lemma Qceiling_gt (x : Q) (z : Z) : (inject_Z z < x)%Q -> (z < Qceiling x)%Z.
Proof. intro H. pose proof (Qle_ceiling x). rewrite Zlt_Qlt. lra. Qed.

(** An empty list has one page. *)
Lemma total_pages_of_none (pp : Q) : total_pages 0 pp = 1%Z.
Proof.
  unfold total_pages.
  rewrite (round64_0 (inject_Z (Z.of_nat 0) / pp)) by apply Qdiv_0_l.
  reflexivity.
Qed.

(** For a whole page size the rounded quotient has the ceiling of the exact
    one: the quotient of two whole numbers is a whole number or at least
    1/50 away from one, and the sixty-fourths up to 2^47 are binary64
    numbers. *)
Lemma total_pages_whole (T : nat) (pp : Q) (n : Z) :
  (pp == inject_Z n)%Q -> (5 <= n <= 50)%Z -> (Z.of_nat T < 2 ^ 32)%Z ->
  total_pages T pp = Z.max 1 ((Z.of_nat T + n - 1) / n).
Proof.
  intros Hn N Hsmall. destruct T as [| T'].
  - rewrite total_pages_of_none. cbn [Z.of_nat Z.add].
    rewrite Z.div_small by lia. reflexivity.
  - set (T := Z.of_nat (S T')) in *.
    assert (T1 : (1 <= T)%Z) by (subst T; lia).
    assert (B32 : (2 ^ 32 = 4294967296)%Z) by reflexivity.
    assert (B53 : (2 ^ 53 = 9007199254740992)%Z) by reflexivity.
    set (K := ((T + n - 1) / n)%Z).
    assert (KD : (T + n - 1 = n * K + (T + n - 1) mod n)%Z) by (apply Z.div_mod; lia).
    pose proof (Z.mod_pos_bound (T + n - 1) n ltac:(lia)) as KR.
    assert (K1 : (1 <= K)%Z) by nia.
    assert (KT : (K <= T)%Z) by nia.
    assert (KU : (T <= K * n)%Z) by nia.
    assert (KL : ((K - 1) * n + 1 <= T)%Z) by nia.
    assert (Ppos : (0 < pp)%Q).
    { rewrite Hn. change 0%Q with (inject_Z 0). rewrite <- Zlt_Qlt. lia. }
    rewrite Z.max_r by exact K1. apply Z.le_antisymm.
    + apply total_pages_le; [exact Ppos | lia |].
      rewrite Hn, <- inject_Z_mult, <- Zle_Qle. exact KU.
    + unfold total_pages. apply Z.le_trans with (Qceiling (round64 (inject_Z T / pp)));
        [| apply Z.le_max_r].
      assert (G : (K - 1 < Qceiling (round64 (inject_Z T / pp)))%Z); [| lia].
      apply Qceiling_gt.
      apply Qlt_le_trans with (inject_Z (64 * (K - 1) + 1) / 64)%Q.
      * apply Qlt_shift_div_l; [reflexivity |].
        change 64%Q with (inject_Z 64). rewrite <- inject_Z_mult, <- Zlt_Qlt. lia.
      * apply Qle_trans with (round64 (inject_Z (64 * (K - 1) + 1) / 64)).
        -- rewrite round64_sixty_fourths by lia. apply Qle_refl.
        -- apply round64_mono.
           ++ apply Qle_shift_div_l; [reflexivity |]. rewrite Qmult_0_l.
              change 0%Q with (inject_Z 0). rewrite <- Zle_Qle. lia.
           ++ apply Qle_shift_div_l; [exact Ppos |]. rewrite Hn.
              setoid_replace (inject_Z (64 * (K - 1) + 1) / 64 * inject_Z n)%Q
                with (inject_Z ((64 * (K - 1) + 1) * n) / 64)%Q
                by (rewrite inject_Z_mult; field).
              apply Qle_shift_div_r; [reflexivity |].
              change 64%Q with (inject_Z 64).
              rewrite <- inject_Z_mult, <- Zle_Qle. nia.
Qed.

(** For a whole page number and a whole page size the bounds of the slice
    are exact. *)
Lemma page_of_whole (items : list Scored) (pc pp : Q) (p n : Z) :
  (pc == inject_Z p)%Q -> (pp == inject_Z n)%Q ->
  (1 <= p)%Z -> (1 <= n)%Z -> (p * n <= 2 ^ 53)%Z ->
  page_of items pc pp = slice items ((p - 1) * n) (p * n).
Proof.
  intros Hp Hn P N B. unfold page_of. cbv zeta.
  assert (B53 : (2 ^ 53 = 9007199254740992)%Z) by reflexivity.
  assert (D : (round64 (pc - 1) == inject_Z (p - 1))%Q).
  { rewrite (round64_comp (pc - 1) (inject_Z (p - 1))).
    - apply round64_Z. nia.
    - rewrite Hp. unfold Zminus. rewrite inject_Z_plus, inject_Z_opp. reflexivity. }
  assert (S : (round64 (round64 (pc - 1) * pp) == inject_Z ((p - 1) * n))%Q).
  { rewrite (round64_comp (round64 (pc - 1) * pp) (inject_Z ((p - 1) * n))).
    - apply round64_Z. nia.
    - rewrite D, Hn, inject_Z_mult. reflexivity. }
  assert (E : (round64 (round64 (round64 (pc - 1) * pp) + pp) == inject_Z (p * n))%Q).
  { rewrite (round64_comp (round64 (round64 (pc - 1) * pp) + pp) (inject_Z (p * n))).
    - apply round64_Z. nia.
    - rewrite S, Hn, <- inject_Z_plus. apply inject_Z_injective. ring. }
  now rewrite (truncate_comp _ _ S), (truncate_comp _ _ E), !truncate_inject_Z.
Qed.

Lemma length_slice_le {A : Type} (l : list A) (a b : Z) :
  (0 <= a <= b)%Z -> List.length (slice l a b) <= Z.to_nat (b - a).
Proof.
  intro H. rewrite <- (Z2Nat.id a), <- (Z2Nat.id b) by lia.
  rewrite slice_nat, length_firstn, !Z2Nat.id by lia. lia.
Qed.

Section Pagination.

Context {parser : URLParser} {dep : Deployment}.

Lemma page_clamped (body : Body.t) (n : nat) (pp : Q) :
  let T := total_pages n pp in
  (1 <= Qmin (requested_page body) (inject_Z T) <= inject_Z T)%Q.
Proof.
  cbv zeta. pose proof (requested_page_bound body) as P.
  pose proof (total_pages_positive n pp) as T1.
  assert (T1' : (1 <= inject_Z (total_pages n pp))%Q).
  { change 1%Q with (inject_Z 1). now rewrite <- Zle_Qle. }
  split; [apply Q.min_glb; assumption | apply Q.le_min_r].
Qed.

(** The page that a whole page number asks for. *)
Lemma requested_whole_page (body : Body.t) (p : Z) :
  (requested_page (with_page body p) == inject_Z (Z.max 1 p))%Q.
Proof.
  unfold requested_page, with_page. cbn [Body.page Number_or or_number].
  destruct (Qeq_bool (inject_Z p) 0) eqn:Z0.
  - apply Qeq_bool_iff in Z0. change 0%Q with (inject_Z 0) in Z0.
    rewrite inject_Z_injective in Z0. subst p. reflexivity.
  - destruct (Z.max_spec 1 p) as [[L E] | [L E]]; rewrite E.
    + apply Q.max_r. change 1%Q with (inject_Z 1). rewrite <- Zle_Qle. lia.
    + apply Q.max_l. change 1%Q with (inject_Z 1). rewrite <- Zle_Qle. lia.
Qed.

(** The response to a whole page number, for a whole page size. *)
Lemma finalize_whole (body : Body.t) (scored : list Scored) (n p : Z) :
  (requested_perPage body == inject_Z n)%Q ->
  (Z.of_nat (List.length (final_list body scored)) < 2 ^ 32)%Z ->
  let items := final_list body scored in
  let T := Z.max 1 ((Z.of_nat (List.length items) + n - 1) / n) in
  let c := Z.min (Z.max 1 p) T in
  (5 <= n <= 50)%Z /\
  totalPages (meta (finalize body scored)) = T /\
  candidates (finalize (with_page body p) scored) = slice items ((c - 1) * n) (c * n).
Proof.
  intros Hn Hsmall items T c.
  pose proof (requested_perPage_bounds body) as [B5 B50].
  assert (N : (5 <= n <= 50)%Z).
  { rewrite !Zle_Qle. change (inject_Z 5) with 5%Q. change (inject_Z 50) with 50%Q.
    now rewrite <- Hn. }
  assert (TP : total_pages (List.length items) (requested_perPage body) = T).
  { now apply total_pages_whole. }
  split; [exact N |]. split; [exact TP |].
  change (candidates (finalize (with_page body p) scored))
    with (page_of items
            (Qmin (requested_page (with_page body p))
               (inject_Z (total_pages (List.length items) (requested_perPage body))))
            (requested_perPage body)).
  rewrite TP.
  assert (B32 : (2 ^ 32 = 4294967296)%Z) by reflexivity.
  assert (B53 : (2 ^ 53 = 9007199254740992)%Z) by reflexivity.
  assert (TB : (1 <= T <= 2 ^ 32)%Z).
  { subst T. split; [lia |]. apply Z.max_lub; [lia |].
    apply Z.div_le_upper_bound; [lia |]. fold items in Hsmall. nia. }
  apply page_of_whole; [| exact Hn | lia | lia | nia].
  rewrite (requested_whole_page body p). subst c.
  destruct (Z.min_spec (Z.max 1 p) T) as [[L E] | [L E]]; rewrite E.
  - apply Q.min_l. rewrite <- Zle_Qle. lia.
  - apply Q.min_r. rewrite <- Zle_Qle. lia.
Qed.

End Pagination.

Section Pages.

Context {parser : URLParser} {dep : Deployment}.

Lemma finalize_meta (body : Body.t) (scored : list Scored) :
  let r := finalize body scored in
  let items := final_list body scored in
  (5 <= meta_perPage (meta r) <= 50)%Q /\
  (1 <= totalPages (meta r))%Z /\
  (1 <= meta_page (meta r) <= inject_Z (totalPages (meta r)))%Q /\
  total (meta r) = List.length items /\
  (total (meta r) = 0 -> totalPages (meta r) = 1%Z) /\
  (exists before after, items = before ++ candidates r ++ after) /\
  best r = option_map profile (hd_error items) /\
  forall n : Z,
    (meta_perPage (meta r) == inject_Z n)%Q -> (Z.of_nat (total (meta r)) < 2 ^ 32)%Z ->
    (Z.of_nat (total (meta r)) <= totalPages (meta r) * n)%Z /\
    (total (meta r) <> 0 -> ((totalPages (meta r) - 1) * n < Z.of_nat (total (meta r)))%Z).
Proof.
  cbv zeta. unfold finalize. cbn [meta candidates best total totalPages meta_page meta_perPage].
  pose proof (requested_perPage_bounds body) as B.
  split; [exact B |]. split; [apply total_pages_positive |]. split; [apply page_clamped |].
  split; [reflexivity |]. split.
  { intro E. rewrite E. apply total_pages_of_none. }
  split; [apply slice_segment |]. split; [now destruct (final_list body scored) |].
  intros n Hn Hsmall.
  assert (N : (5 <= n <= 50)%Z).
  { rewrite !Zle_Qle. change (inject_Z 5) with 5%Q. change (inject_Z 50) with 50%Q.
    now rewrite <- Hn. }
  rewrite (total_pages_whole _ _ n Hn N Hsmall).
  set (T := Z.of_nat (List.length (final_list body scored))) in *.
  assert (T0 : (0 <= T)%Z) by (subst T; lia).
  set (K := ((T + n - 1) / n)%Z).
  assert (KD : (T + n - 1 = n * K + (T + n - 1) mod n)%Z) by (apply Z.div_mod; lia).
  pose proof (Z.mod_pos_bound (T + n - 1) n ltac:(lia)) as KR.
  split.
  - destruct (Z.max_spec 1 K) as [[L E] | [L E]]; rewrite E; nia.
  - intro ne. assert (T1 : (1 <= T)%Z) by (subst T; lia).
    assert (K1 : (1 <= K)%Z) by nia.
    rewrite Z.max_r by exact K1. nia.
Qed.

Lemma finalize_integer (body : Body.t) (scored : list Scored) (n : nat) :
  (requested_perPage body == inject_Z (Z.of_nat n))%Q ->
  (Z.of_nat (List.length (final_list body scored)) < 2 ^ 32)%Z ->
  (forall p : Z, List.length (candidates (finalize (with_page body p) scored)) <= n) /\
  all_pages body scored = final_list body scored.
Proof.
  intros E Hsmall. split.
  - intro p.
    destruct (finalize_whole body scored (Z.of_nat n) p E Hsmall) as [N [_ C]].
    rewrite C.
    set (T := Z.max 1 ((Z.of_nat (List.length (final_list body scored)) + Z.of_nat n - 1)
                       / Z.of_nat n)) in *.
    set (c := Z.min (Z.max 1 p) T) in *.
    assert (C1 : (1 <= c)%Z) by (subst c T; lia).
    etransitivity; [apply length_slice_le; nia |].
    replace (c * Z.of_nat n - (c - 1) * Z.of_nat n)%Z with (Z.of_nat n) by ring.
    now rewrite Nat2Z.id.
  - unfold all_pages.
    destruct (finalize_whole body scored (Z.of_nat n) 1 E Hsmall) as [N [TP _]].
    rewrite TP.
    set (items := final_list body scored) in *.
    set (T := Z.max 1 ((Z.of_nat (List.length items) + Z.of_nat n - 1) / Z.of_nat n)) in *.
    assert (KD : (Z.of_nat (List.length items) + Z.of_nat n - 1
                  = Z.of_nat n * ((Z.of_nat (List.length items) + Z.of_nat n - 1) / Z.of_nat n)
                    + (Z.of_nat (List.length items) + Z.of_nat n - 1) mod Z.of_nat n)%Z)
      by (apply Z.div_mod; lia).
    pose proof (Z.mod_pos_bound (Z.of_nat (List.length items) + Z.of_nat n - 1) (Z.of_nat n)
                  ltac:(lia)) as KR.
    assert (T1 : (1 <= T)%Z) by (subst T; lia).
    assert (T2 : (Z.of_nat (List.length items) <= T * Z.of_nat n)%Z).
    { subst T. destruct (Z.max_spec 1 ((Z.of_nat (List.length items) + Z.of_nat n - 1)
                                       / Z.of_nat n)) as [[L Em] | [L Em]]; rewrite Em; nia. }
    rewrite flat_map_concat_map.
    rewrite (map_ext_in _ (fun p => firstn n (skipn ((p - 1) * n) items))).
    + rewrite <- flat_map_concat_map, chunks_prefix. apply firstn_all2. nia.
    + intros p Hp. apply in_seq in Hp.
      destruct (finalize_whole body scored (Z.of_nat n) (Z.of_nat p) E Hsmall) as [_ [_ C]].
      fold items in C. fold T in C.
      rewrite C, Z.max_r, Z.min_l by lia.
      replace ((Z.of_nat p - 1) * Z.of_nat n)%Z with (Z.of_nat ((p - 1) * n)) by nia.
      replace (Z.of_nat p * Z.of_nat n)%Z with (Z.of_nat (p * n)) by nia.
      rewrite slice_nat. f_equal. nia.
Qed.

End Pages.

(** X9.  The paging data of every response: the page size is between 5 and
    50; [totalPages] is at least 1, and 1 when [total] is 0; the page number
    is between 1 and [totalPages]; [total] counts the filtered and sorted
    list; the candidates are a contiguous part of that list and [best] is
    its first entry.  When the page size is a whole number and the list has
    fewer than 2^32 entries, [totalPages] is the least number of pages of
    that size which hold [total] entries. *)
Theorem response_meta_is_consistent
  (dep : Deployment) (body : Body.t) (scored : list Scored) :
  let r := finalize body scored in
  let items := final_list body scored in
  (5 <= meta_perPage (meta r) <= 50)%Q /\
  (1 <= totalPages (meta r))%Z /\
  (1 <= meta_page (meta r) <= inject_Z (totalPages (meta r)))%Q /\
  total (meta r) = List.length items /\
  (total (meta r) = 0 -> totalPages (meta r) = 1%Z) /\
  (exists before after, items = before ++ candidates r ++ after) /\
  best r = option_map profile (hd_error items) /\
  forall n : Z,
    (meta_perPage (meta r) == inject_Z n)%Q -> (Z.of_nat (total (meta r)) < 2 ^ 32)%Z ->
    (Z.of_nat (total (meta r)) <= totalPages (meta r) * n)%Z /\
    (total (meta r) <> 0 -> ((totalPages (meta r) - 1) * n < Z.of_nat (total (meta r)))%Z).
Proof. exact (finalize_meta body scored). Qed.

(** X10.  When the page size is a whole number [n] and the filtered and
    sorted list has fewer than 2^32 entries, the response to a whole page
    number holds at most [n] candidates, and the pages 1 to [totalPages] of
    a request, one after another, are that list: every entry once, in
    order. *)
Theorem whole_page_size_partitions_the_list
  (dep : Deployment) (body : Body.t) (scored : list Scored) (n : nat)
  (whole : (requested_perPage body == inject_Z (Z.of_nat n))%Q)
  (small : (Z.of_nat (List.length (final_list body scored)) < 2 ^ 32)%Z) :
  (forall p : Z, List.length (candidates (finalize (with_page body p) scored)) <= n) /\
  all_pages body scored = final_list body scored.
Proof. exact (finalize_integer body scored n whole small). Qed.

Lemma whole_page_size_partitions_the_list_witness :
  @all_pages (silent (repeat branch 16) 5000)
    (Body.mk None None (Some "4155551212") None None (Some (Fin 7)) None None None None)
    (map (fun i => mkScored i branch 3) (seq 0 16))
  = @final_list (silent (repeat branch 16) 5000)
      (Body.mk None None (Some "4155551212") None None (Some (Fin 7)) None None None None)
      (map (fun i => mkScored i branch 3) (seq 0 16)).
Proof.
  refine (proj2 (whole_page_size_partitions_the_list (silent (repeat branch 16) 5000)
                   _ _ 7 _ _)).
  - vm_compute. reflexivity.
  - vm_compute. reflexivity.
Defined.

(** ** Candidate discovery *)

Lemma set_add_spec (s : list nat) (y : nat) :
  (forall x, In x (set_add s y) <-> In x s \/ x = y) /\
  (NoDup s -> NoDup (set_add s y)).
Proof.
  unfold set_add. destruct (existsb (Nat.eqb y) s) eqn:E.
  - apply existsb_exists in E. destruct E as [z [Hz Ez]]. apply Nat.eqb_eq in Ez. subst z.
    split; [| tauto]. intro x. split; [tauto |]. intros [H | H]; [exact H | now subst].
  - split.
    + intro x. rewrite in_app_iff. cbn [In]. split; intros [H | H]; auto.
      destruct H as [H | []]. now right.
    + intro N. apply NoDup_app; [exact N | repeat constructor; simpl; tauto |].
      intros a Ha [Hy | []]. subst a.
      assert (X : existsb (Nat.eqb y) s = true).
      { apply existsb_exists. exists y. split; [exact Ha | apply Nat.eqb_refl]. }
      congruence.
Qed.

Lemma add_each_spec (xs s : list nat) :
  (forall x, In x (add_each s xs) <-> In x s \/ In x xs) /\
  (NoDup s -> NoDup (add_each s xs)).
Proof.
  unfold add_each. revert s. induction xs as [| y xs IH]; intro s; cbn [fold_left].
  - split; [| tauto]. intro x. cbn [In]. tauto.
  - destruct (IH (set_add s y)) as [I N]. destruct (set_add_spec s y) as [I' N']. split.
    + intro x. rewrite I, I'. cbn [In]. intuition.
    + intro H. apply N, N', H.
Qed.

Lemma add_each_fresh (xs s : list nat) :
  NoDup (s ++ xs) -> add_each s xs = s ++ xs.
Proof.
  unfold add_each. revert s. induction xs as [| y xs IH]; intros s H; cbn [fold_left].
  - now rewrite app_nil_r.
  - assert (F : set_add s y = s ++ [y]).
    { unfold set_add. destruct (existsb (Nat.eqb y) s) eqn:E; [| reflexivity].
      apply existsb_exists in E. destruct E as [z [Hz Ez]]. apply Nat.eqb_eq in Ez. subst z.
      apply NoDup_remove_2 in H. exfalso. apply H. apply in_app_iff. now left. }
    rewrite F, IH; rewrite <- app_assoc; [reflexivity | exact H].
Qed.

Lemma grows_refl (P : nat -> Prop) (s : list nat) : grows P s s.
Proof. split; [apply incl_refl | tauto]. Qed.

Lemma grows_trans (P : nat -> Prop) (a b c : list nat) :
  grows P a b -> grows P b c -> grows P a c.
Proof.
  intros [I1 [N1 F1]] [I2 [N2 F2]]. split; [eapply incl_tran; eassumption | tauto].
Qed.

Lemma grows_add_each (P : nat -> Prop) (s xs : list nat) :
  Forall P xs -> grows P s (add_each s xs).
Proof.
  intro Hxs. destruct (add_each_spec xs s) as [I N]. split; [| split; [exact N |]].
  - intros x Hx. apply I. now left.
  - intro Hs. apply Forall_forall. intros x Hx. apply I in Hx.
    rewrite Forall_forall in Hs, Hxs. destruct Hx; auto.
Qed.

Lemma grows_fold {A : Type} (P : nat -> Prop) (f : list nat -> A -> list nat)
  (l : list A) (s : list nat) :
  (forall s x, grows P s (f s x)) -> grows P s (fold_left f l s).
Proof.
  intro H. revert s. induction l as [| x l IH]; intro s; cbn [fold_left];
    [apply grows_refl |].
  eapply grows_trans; [apply H | apply IH].
Qed.

Lemma grows_when_present (P : nat -> Prop) (field : option string)
  (f : string -> list nat) (s : list nat) :
  (forall x, grows P s (f x)) -> grows P s (when_present field f s).
Proof.
  intro H. unfold when_present. destruct field as [x |]; [| apply grows_refl].
  destruct (truthy x); [apply H | apply grows_refl].
Qed.

Lemma NoDup_firstn {A : Type} (n : nat) (l : list A) : NoDup l -> NoDup (firstn n l).
Proof.
  intro H. rewrite <- (firstn_skipn n l) in H. now apply NoDup_app_remove_r in H.
Qed.

Lemma NoDup_skipn {A : Type} (n : nat) (l : list A) : NoDup l -> NoDup (skipn n l).
Proof.
  intro H. rewrite <- (firstn_skipn n l) in H. now apply NoDup_app_remove_l in H.
Qed.

Lemma slice_NoDup {A : Type} (l : list A) (x y : Z) : NoDup l -> NoDup (slice l x y).
Proof. intro H. unfold slice. now apply NoDup_firstn, NoDup_skipn. Qed.

Section Discovery.

Context {parser : URLParser} {dep : Deployment}.

Variable P : nat -> Prop.
Hypothesis mini_in : forall q, Forall P (miniSearch q).
Hypothesis fuse_in : forall q, Forall (fun r => P (refIndex r)) (fuzzyIndex q).
Hypothesis maps_in :
  forall k, Forall P (lookup (byCanonSite maps) k) /\ Forall P (lookup (byPhone10 maps) k) /\
            Forall P (lookup (byFacebook maps) k) /\ Forall P (lookup (byDomainToken maps) k).

Lemma grows_search_each (s : list nat) (toks : list string) :
  grows P s (search_each s toks).
Proof.
  unfold search_each. apply grows_fold. intros. apply grows_add_each, mini_in.
Qed.

(** The candidates before the cap. *)
Lemma gather_shape (body : Body.t) :
  exists cands,
    NoDup cands /\ Forall P cands /\
    gather body = (if (MAX_CANDIDATES <? Z.of_nat (List.length cands))%Z
                   then slice cands 0 MAX_CANDIDATES else cands) /\
    (forall w, Body.website body = Some w -> truthy w = true ->
               incl (lookup (byCanonSite maps) (canonicalUrl w)) cands).
Proof.
  unfold gather. cbv zeta.
  set (c1 := when_present (Body.name body) _ []).
  set (c2 := when_present (Body.website body) _ c1).
  set (c3 := when_present (Body.phone body) _ c2).
  set (c4 := when_present (Body.facebook body) _ c3).
  set (c5 := if Nat.eqb (List.length c4) 0 && any_field body then _ else c4).
  exists c5.
  assert (step : forall s tok,
             grows P s (add_each (add_each s (lookup (byDomainToken maps) tok))
                          (miniSearch tok))).
  { intros s tok.
    apply (grows_trans P _ (add_each s (lookup (byDomainToken maps) tok)));
      [apply grows_add_each, maps_in | apply grows_add_each, mini_in]. }
  assert (G1 : grows P [] c1).
  { apply grows_when_present. intro n.
    apply (grows_trans P _ (add_each [] (miniSearch n)));
      [apply grows_add_each, mini_in | apply grows_search_each]. }
  assert (G2 : grows P c1 c2).
  { apply grows_when_present. intro w.
    apply (grows_trans P _ (add_each c1 (miniSearch w)));
      [apply grows_add_each, mini_in |].
    apply (grows_trans P _ (add_each (add_each c1 (miniSearch w))
                              (lookup (byCanonSite maps) (canonicalUrl w))));
      [apply grows_add_each, maps_in |].
    apply grows_fold. exact step. }
  assert (G3 : grows P c2 c3).
  { apply grows_when_present. intro ph. apply grows_add_each, maps_in. }
  assert (G4 : grows P c3 c4).
  { apply grows_when_present. intro fb.
    destruct (new_URL fb); [| apply grows_add_each, maps_in].
    apply (grows_trans P _ (add_each c3 (lookup (byFacebook maps) (canonicalFacebook fb))));
      [apply grows_add_each, maps_in | apply grows_search_each]. }
  assert (G5 : grows P c4 c5).
  { unfold c5. destruct (Nat.eqb (List.length c4) 0 && any_field body);
      [| apply grows_refl].
    apply grows_add_each, Forall_map, Forall_firstn, fuse_in. }
  pose proof (grows_trans _ _ _ _ G1 (grows_trans _ _ _ _ G2
                (grows_trans _ _ _ _ G3 (grows_trans _ _ _ _ G4 G5)))) as [_ [N F]].
  split; [apply N; constructor |]. split; [apply F; constructor |].
  split; [reflexivity |].
  intros w Hw Tw i Hi. apply G5, G4, G3.
  unfold c2, when_present. rewrite Hw, Tw.
  match goal with
  | |- In i (fold_left ?f ?l ?s) => apply (proj1 (grows_fold P f l s step))
  end.
  apply add_each_spec. now right.
Qed.

End Discovery.

Lemma gather_NoDup (parser : URLParser) (dep : Deployment) (body : Body.t) :
  NoDup (gather body) /\
  ((0 <= MAX_CANDIDATES)%Z -> (Z.of_nat (List.length (gather body)) <= MAX_CANDIDATES)%Z).
Proof.
  destruct (gather_shape (fun _ => True)) with (body := body) as [cands [N [_ [E _]]]];
    try (intros; repeat split; apply Forall_forall; intros; exact I).
  rewrite E.
  destruct (MAX_CANDIDATES <? Z.of_nat (List.length cands))%Z eqn:C.
  - split; [now apply slice_NoDup |]. intro H.
    rewrite <- (Z2Nat.id MAX_CANDIDATES) by exact H.
    rewrite slice_top, length_firstn. lia.
  - split; [exact N |]. apply Z.ltb_ge in C. lia.
Qed.

(** X11.  The candidate positions of a request hold no position twice, and
    when the cap [MAX_CANDIDATES] is not negative there are at most that many
    of them. *)
Theorem candidates_are_a_bounded_set
  (parser : URLParser) (dep : Deployment) (body : Body.t) :
  NoDup (gather body) /\
  ((0 <= MAX_CANDIDATES)%Z -> (Z.of_nat (List.length (gather body)) <= MAX_CANDIDATES)%Z).
Proof. exact (gather_NoDup parser dep body). Qed.

(** ** A page of candidates that is not empty *)

Lemma NoDup_bounded_length (l : list nat) (N : nat) :
  NoDup l -> Forall (fun i => i < N) l -> List.length l <= N.
Proof.
  intros ND F. rewrite <- (length_seq N 0).
  apply NoDup_incl_length; [exact ND |].
  intros x Hx. apply in_seq. rewrite Forall_forall in F. specialize (F x Hx). lia.
Qed.

(** The answer to a request that is not a form post, with the names dataset
    at hand. *)
Lemma match_handler_returns_candidates
  (parser : URLParser) (dep : Deployment) (raw body : Body.t)
  (valid : QuerySchema raw = Some body)
  (asked : any_field body = true)
  (stocked : catalog <> [])
  (sized : (Z.of_nat (List.length catalog) < 2 ^ 32)%Z)
  (no_floor : (min_score body <= 0)%Q)
  (no_filter : contains_filter body = "")
  (paging : (requested_page body == 1)%Q \/
            exists n : Z, (requested_perPage body == inject_Z n)%Q)
  (cap_positive : (1 <= MAX_BRUTE_FORCE)%Z)
  (mini_ok : forall q, Forall (fun i => i < List.length catalog) (miniSearch q))
  (fuse_ok : forall q, Forall (fun r => refIndex r < List.length catalog) (fuzzyIndex q))
  (loose_ok : forall q, Forall (fun r => refIndex r < List.length catalog) (fuzzyIndexLoose q)) :
  exists r,
    match_handler raw = OK r /\
    candidates r <> [] /\
    (forall scored,
        map_opt (score_at (precompute body)) (gather body) = Some scored ->
        Forall (fun s => (score s == 0)%Q) scored ->
        fuzzyIndex (query_text body) = [] ->
        fuzzyIndexLoose (query_text body) = [] ->
        exists sampled,
          Forall2 (scored_position (precompute body))
            (brute_force_sample (List.length catalog) MAX_BRUTE_FORCE) sampled /\
          r = finalize body (firstn 10 (sort_by by_score_desc sampled))).
Proof.
  assert (B32 : (2 ^ 32 = 4294967296)%Z) by reflexivity.
  destruct (score_all_in_range parser dep (precompute body) (gather body)) as [scored G].
  { apply gather_ok; assumption. }
  assert (few : (Z.of_nat (List.length scored) < 2 ^ 32)%Z).
  { rewrite (map_opt_length _ _ _ G).
    pose proof (NoDup_bounded_length (gather body) (List.length catalog)
                  (proj1 (gather_NoDup parser dep body))
                  (gather_ok mini_ok fuse_ok body)).
    lia. }
  destruct (brute_force_scores_sample (precompute body) stocked cap_positive)
    as [sampled [S2 [Sne B]]].
  assert (hits_ok : Forall (fun r => refIndex r < List.length catalog) (fuzzy_hits body)).
  { unfold fuzzy_hits.
    destruct (firstn 10 (fuzzyIndex (query_text body))) eqn:E.
    - apply Forall_firstn, loose_ok.
    - rewrite <- E. apply Forall_firstn, fuse_ok. }
  assert (hits_few : List.length (fuzzy_hits body) <= 10).
  { unfold fuzzy_hits.
    destruct (firstn 10 (fuzzyIndex (query_text body))) eqn:E.
    - rewrite length_firstn. lia.
    - rewrite <- E, length_firstn. lia. }
  assert (top : firstn 10 (sort_by by_score_desc sampled) <> []).
  { intro E. apply (f_equal (@List.length Scored)) in E.
    rewrite length_firstn, length_sort_by in E.
    destruct sampled; [congruence | simpl in E; lia]. }
  assert (top_few : (Z.of_nat (List.length (firstn 10 (sort_by by_score_desc sampled)))
                     < 2 ^ 32)%Z).
  { rewrite length_firstn. lia. }
  unfold match_handler. rewrite valid, asked, G. cbn [negb].
  assert (decide : Forall (fun s => (score s == 0)%Q) scored
                   \/ (scored <> [] /\ ~ Forall (fun s => (score s == 0)%Q) scored)).
  { destruct (forallb (fun s => Qeq_bool (score s) 0) scored) eqn:E.
    - left. apply Forall_forall. intros s Hs. rewrite forallb_forall in E.
      apply Qeq_bool_iff. now apply E.
    - right. split.
      + intro N. subst scored. discriminate.
      + intro F. rewrite (all_zero_forallb scored F) in E. discriminate. }
  destruct decide as [zero | [ne pos]].
  - rewrite (safety_net_without_signal body _ scored asked zero).
    destruct (fuzzy_hits body) as [| h rest] eqn:H.
    + cbn [nonempty]. rewrite B. eexists. split; [reflexivity |]. split.
      * now apply finalize_nonempty.
      * intros scored' G' _ _ _. exists sampled. split; [exact S2 | reflexivity].
    + cbn [nonempty].
      destruct (map_opt_total fuzzy_candidate (h :: rest)) as [fuzzy E].
      { eapply Forall_impl; [| exact hits_ok]. intros r. apply fuzzy_candidate_in_range. }
      rewrite E. eexists. split; [reflexivity |]. split.
      * apply map_opt_length in E.
        apply finalize_nonempty; try assumption.
        -- destruct fuzzy; [discriminate | congruence].
        -- rewrite E. lia.
      * intros scored' G' _ F1 F2. exfalso.
        unfold fuzzy_hits in H. rewrite F1, F2 in H. discriminate.
  - rewrite (safety_net_with_signal body _ scored ne pos).
    eexists. split; [reflexivity |]. split.
    + now apply finalize_nonempty.
    + intros scored' G' zero' _ _. exfalso. apply pos. congruence.
Qed.

(** C4, as the code has it.  A non-empty query against a non-empty catalog
    of fewer than 2^32 records, without score floor or substring filter,
    gets a non-empty candidate page when the brute-force cap is at least 1,
    the text engines return positions of the catalog, and the request asks
    for the first page or for a whole page size.  This is the answer to
    every request that passes the CSRF check (one that is not a form post,
    or a form post with a valid token), whatever the state of the names
    dataset.  When nothing scored above 0 and both fuzzy indexes find
    nothing, the candidates come from the brute-force tier: the ten best, by
    the same scorer, of the whole catalog or of the strided sample. *)
Theorem match_returns_candidates
  (parser : URLParser) (dep : Deployment) (raw body : Body.t)
  (valid : QuerySchema raw = Some body)
  (asked : any_field body = true)
  (stocked : catalog <> [])
  (sized : (Z.of_nat (List.length catalog) < 2 ^ 32)%Z)
  (no_floor : (min_score body <= 0)%Q)
  (no_filter : contains_filter body = "")
  (paging : (requested_page body == 1)%Q \/
            exists n : Z, (requested_perPage body == inject_Z n)%Q)
  (cap_positive : (1 <= MAX_BRUTE_FORCE)%Z)
  (mini_ok : forall q, Forall (fun i => i < List.length catalog) (miniSearch q))
  (fuse_ok : forall q, Forall (fun r => refIndex r < List.length catalog) (fuzzyIndex q))
  (loose_ok : forall q, Forall (fun r => refIndex r < List.length catalog) (fuzzyIndexLoose q)) :
  exists r,
    match_handler raw = OK r /\
    (forall names_at_hand post,
        fields post = raw ->
        isForm post = false \/ csrf_valid post = true ->
        post_match names_at_hand post = OK r) /\
    candidates r <> [] /\
    (forall scored,
        map_opt (score_at (precompute body)) (gather body) = Some scored ->
        Forall (fun s => (score s == 0)%Q) scored ->
        fuzzyIndex (query_text body) = [] ->
        fuzzyIndexLoose (query_text body) = [] ->
        exists sampled,
          Forall2 (scored_position (precompute body))
            (brute_force_sample (List.length catalog) MAX_BRUTE_FORCE) sampled /\
          r = finalize body (firstn 10 (sort_by by_score_desc sampled))).
Proof.
  destruct (match_handler_returns_candidates parser dep raw body valid asked stocked sized
              no_floor no_filter paging cap_positive mini_ok fuse_ok loose_ok)
    as [r [E [N B]]].
  exists r. split; [exact E |]. split; [| split; [exact N | exact B]].
  intros names_at_hand post F passes.
  rewrite (post_match_scored parser dep names_at_hand post body); rewrite ?F; assumption.
Qed.

Lemma match_returns_candidates_witness :
  exists r,
    @match_handler whatwg (silent [acme; contoso] 5000)
      (Body.mk (Some "zzz") None None None (Some (Fin 3)) (Some (Fin 7)) None None None None)
    = OK r /\
    candidates r <> [].
Proof.
  destruct (match_returns_candidates whatwg (silent [acme; contoso] 5000)
              (Body.mk (Some "zzz") None None None (Some (Fin 3)) (Some (Fin 7))
                 None None None None)
              (Body.mk (Some "zzz") None None None (Some (Fin 3)) (Some (Fin 7))
                 None None None None))
    as [r [E [_ [N _]]]].
  - vm_compute. reflexivity.
  - reflexivity.
  - discriminate.
  - vm_compute. reflexivity.
  - vm_compute. discriminate.
  - reflexivity.
  - right. exists 7%Z. vm_compute. reflexivity.
  - simpl. lia.
  - intro q. constructor.
  - intro q. constructor.
  - intro q. constructor.
  - exists r. split; assumption.
Defined.

(** ** Queries by one signal *)

Lemma sorted_lt_NoDup (l : list nat) : StronglySorted lt l -> NoDup l.
Proof.
  induction 1 as [| x l S IH F]; constructor; [| exact IH].
  intro H. rewrite Forall_forall in F. apply F in H. lia.
Qed.

Section OneSignal.

Context {parser : URLParser} {dep : Deployment}.

Lemma positions_in_range (p : AugProfile -> bool) :
  Forall (fun i => i < List.length catalog) (positions p).
Proof.
  apply Forall_forall. intros i Hi.
  apply (proj1 (positions_spec parser dep p)) in Hi. destruct Hi as [q [E _]].
  apply nth_error_Some. congruence.
Qed.

Lemma positions_NoDup (p : AugProfile -> bool) : NoDup (positions p).
Proof. apply sorted_lt_NoDup, positions_spec. Qed.

(** Positions of the catalog without repetition are at most as many as the
    records. *)
Lemma in_range_length (l : list nat) :
  NoDup l -> Forall (fun i => i < List.length catalog) l ->
  List.length l <= List.length catalog.
Proof.
  intros N F. rewrite <- (length_seq (List.length catalog) 0).
  apply NoDup_incl_length; [exact N |]. intros i Hi. rewrite Forall_forall in F.
  apply in_seq. specialize (F i Hi). lia.
Qed.

Lemma score_listed (pre : Pre.t) (p : AugProfile -> bool) (l : list nat)
  (scored : list Scored) :
  Forall (fun i => In i (positions p)) l ->
  map_opt (score_at pre) l = Some scored ->
  map idx scored = l /\
  Forall (fun s => nth_error catalog (idx s) = Some (profile s) /\
                   p (augment (idx s) (profile s)) = true /\
                   score s = fastScore pre (augment (idx s) (profile s))) scored.
Proof.
  intros In_pos E. apply map_opt_Forall2 in E.
  induction E as [| i s l scored Hs F IH]; [split; constructor |].
  inversion In_pos as [| ? ? Hi Hl]. subst. destruct (IH Hl) as [M A].
  apply score_at_scored_position in Hs. destruct Hs as [Hi' [Hp Hsc]].
  cbn [map]. rewrite M, Hi'. split; [reflexivity |]. constructor; [| exact A].
  rewrite Hi'. split; [exact Hp |]. split; [| exact Hsc].
  apply (proj1 (positions_spec parser dep p)) in Hi. destruct Hi as [q [Eq Pq]].
  rewrite Hp in Eq. inversion Eq. now subst q.
Qed.

Lemma score_positions (pre : Pre.t) (p : AugProfile -> bool) :
  exists scored,
    map_opt (score_at pre) (positions p) = Some scored /\
    map idx scored = positions p /\
    Forall (fun s => nth_error catalog (idx s) = Some (profile s) /\
                     p (augment (idx s) (profile s)) = true /\
                     score s = fastScore pre (augment (idx s) (profile s))) scored.
Proof.
  destruct (score_all_in_range parser dep pre (positions p) (positions_in_range p))
    as [scored E].
  exists scored. split; [exact E |].
  apply (score_listed pre p (positions p) scored); [| exact E].
  apply Forall_forall. auto.
Qed.

Lemma phone_only_gather (body : Body.t) (ph : string) :
  Body.name body = None -> Body.website body = None -> Body.facebook body = None ->
  Body.phone body = Some ph -> truthy ph = true ->
  positions (fun c => has (last10 ph) (_last10Phones c)) <> [] ->
  (Z.of_nat (List.length catalog) <= MAX_CANDIDATES)%Z ->
  gather body = positions (fun c => has (last10 ph) (_last10Phones c)).
Proof.
  intros Hn Hw Hf Hp T Hhits Hcap. unfold gather.
  rewrite Hn, Hw, Hf, Hp. unfold when_present. rewrite T. cbv zeta.
  unfold lastTenDigits. rewrite lookup_byPhone10.
  set (hits := positions (fun c => has (last10 ph) (_last10Phones c))) in *.
  rewrite (add_each_fresh hits []) by (apply positions_NoDup). cbn [app].
  assert (L : List.length hits <= List.length catalog).
  { apply in_range_length; [apply positions_NoDup | apply positions_in_range]. }
  assert (P : List.length hits <> 0).
  { intro Z0. apply length_zero_iff_nil in Z0. contradiction. }
  apply Nat.eqb_neq in P. rewrite P. cbn [andb].
  replace (MAX_CANDIDATES <? Z.of_nat (List.length hits))%Z with false; [reflexivity |].
  symmetry. apply Z.ltb_ge. lia.
Qed.

Lemma phone_only_score (body : Body.t) (ph : string) (c : AugProfile) :
  Body.name body = None -> Body.website body = None -> Body.facebook body = None ->
  Body.phone body = Some ph -> truthy ph = true ->
  has (last10 ph) (_last10Phones c) = true -> last10 ph <> "" ->
  (fastScore (precompute body) c == 3)%Q.
Proof.
  intros Hn Hw Hf Hp T H K. unfold precompute, fastScore.
  rewrite Hn, Hw, Hf, Hp. unfold when_present. rewrite T.
  cbn [Pre.canonSite Pre.nameNorm Pre.domainTokens Pre.phone10 Pre.fbHandle].
  apply truthy_true in K. rewrite H, K. vm_compute. reflexivity.
Qed.

End OneSignal.

(** X12.  A request by phone alone, when some record lists a phone with the
    same key and the candidate cap is at least the size of the catalog,
    returns exactly the records that list such a phone, in catalog order,
    each with the score 3 (before filtering, sorting and paging). *)
Theorem phone_query_finds_the_records_with_that_phone
  (parser : URLParser) (dep : Deployment) (raw body : Body.t) (ph : string)
  (valid : QuerySchema raw = Some body)
  (by_phone : Body.phone body = Some ph)
  (only : Body.name body = None /\ Body.website body = None /\ Body.facebook body = None)
  (listed : positions (fun c => has (last10 ph) (_last10Phones c)) <> [])
  (cap : (Z.of_nat (List.length catalog) <= MAX_CANDIDATES)%Z) :
  exists scored,
    match_handler raw = OK (finalize body scored) /\
    map idx scored = positions (fun c => has (last10 ph) (_last10Phones c)) /\
    Forall (fun s => nth_error catalog (idx s) = Some (profile s) /\ (score s == 3)%Q) scored.
Proof.
  destruct only as [Hn [Hw Hf]].
  set (p := fun c => has (last10 ph) (_last10Phones c)) in *.
  destruct (score_positions (precompute body) p) as [scored [G [M A]]].
  assert (K : last10 ph <> "").
  { destruct (positions p) as [| i rest] eqn:E; [congruence |].
    assert (Hi : In i (positions p)) by (rewrite E; now left).
    apply (proj1 (positions_spec parser dep p)) in Hi. destruct Hi as [q [_ Hq]].
    unfold p in Hq. intro Z0. rewrite Z0, no_empty_phone_key in Hq. discriminate. }
  assert (T : truthy ph = true).
  { apply truthy_true. intro E. subst ph. now apply K. }
  assert (three : Forall (fun s => nth_error catalog (idx s) = Some (profile s)
                                   /\ (score s == 3)%Q) scored).
  { eapply Forall_impl; [| exact A]. intros s [H1 [H2 H3]]. split; [exact H1 |].
    rewrite H3. now apply (phone_only_score body ph). }
  exists scored. split; [| split; [exact M | exact three]].
  unfold match_handler. rewrite valid.
  assert (F : any_field body = true).
  { unfold any_field. rewrite by_phone. cbn [truthy_opt]. rewrite T.
    now rewrite !orb_true_r. }
  rewrite F. cbn [negb].
  rewrite (phone_only_gather body ph Hn Hw Hf by_phone T listed cap). fold p. rewrite G.
  assert (ne : scored <> []).
  { intro E. subst scored. simpl in M. now symmetry in M. }
  rewrite safety_net_with_signal; [reflexivity | exact ne |].
  intro Z0. destruct scored as [| s rest]; [congruence |].
  inversion Z0 as [| ? ? Hs _]. inversion three as [| ? ? [_ H3] _]. subst. lra.
Qed.

Lemma phone_query_witness :
  exists scored,
    @match_handler whatwg (silent [acme; contoso] 5000)
      (query None None (Some " +1 (415) 555-1212") None)
    = OK (@finalize (silent [acme; contoso] 5000)
            (query None None (Some "+1 (415) 555-1212") None) scored) /\
    map idx scored = [0].
Proof.
  destruct (phone_query_finds_the_records_with_that_phone whatwg
              (silent [acme; contoso] 5000)
              (query None None (Some " +1 (415) 555-1212") None)
              (query None None (Some "+1 (415) 555-1212") None)
              "+1 (415) 555-1212") as [scored [E [M _]]].
  - vm_compute. reflexivity.
  - reflexivity.
  - repeat split.
  - vm_compute. discriminate.
  - simpl. lia.
  - exists scored. split; [exact E | exact M].
Defined.

(** ** The best candidate *)

Lemma StronglySorted_impl {A : Type} (R R' : A -> A -> Prop) (l : list A) :
  (forall a b, R a b -> R' a b) -> StronglySorted R l -> StronglySorted R' l.
Proof.
  intros H S. induction S as [| x l S IH F]; constructor; [exact IH |].
  eapply Forall_impl; [| exact F]. intros b. apply H.
Qed.

Section Best.

Context {parser : URLParser} {dep : Deployment}.

Lemma ranked_by_score (body : Body.t) (scored : list Scored) :
  sort_key body = by_score -> sort_dir body = desc ->
  StronglySorted (fun a b => (score b <= score a)%Q) (ranked body scored) /\
  Permutation (apply_filters body scored) (ranked body scored).
Proof.
  intros K D. unfold ranked. rewrite K, D. split; [| apply sort_by_perm].
  eapply StronglySorted_impl; [| apply sort_by_sorted].
  - intros a b H. unfold compare_candidates in H. lra.
  - intros a b H. unfold compare_candidates in *. lra.
  - intros a b c H1 H2. unfold compare_candidates in *. lra.
Qed.

Lemma best_of_ranked (body : Body.t) (scored : list Scored) (p : Profile) :
  scored <> [] -> sort_key body = by_score -> sort_dir body = desc ->
  best (finalize body scored) = Some p ->
  exists s, In s (apply_filters body scored) /\ profile s = p /\
            forall s', In s' (apply_filters body scored) -> (score s' <= score s)%Q.
Proof.
  intros ne K D B. destruct (ranked_by_score body scored K D) as [S P].
  unfold finalize in B. cbn [best] in B.
  assert (F : final_list body scored = ranked body scored).
  { unfold final_list. destruct scored; [congruence | reflexivity]. }
  rewrite F in B. destruct (ranked body scored) as [| s rest] eqn:R; [discriminate |].
  inversion B. subst p. exists s. split; [| split; [reflexivity |]].
  - eapply Permutation_in; [symmetry; exact P | now left].
  - intros s' Hs'. apply (Permutation_in _ P) in Hs'. destruct Hs' as [E | Hs'].
    + subst s'. lra.
    + inversion S as [| ? ? _ Hall]. subst. rewrite Forall_forall in Hall. now apply Hall.
Qed.

End Best.

Section ExactWebsite.

Context {parser : URLParser} {dep : Deployment}.

Hypothesis mini_ok : forall q, Forall (fun i => i < List.length catalog) (miniSearch q).
Hypothesis fuse_ok :
  forall q, Forall (fun r => refIndex r < List.length catalog) (fuzzyIndex q).
Hypothesis roomy : (Z.of_nat (List.length catalog) <= MAX_CANDIDATES)%Z.

(** With a cap of at least the size of the catalog nothing is cut off. *)
Lemma gather_keeps_site_matches (body : Body.t) (w : string) :
  Body.website body = Some w -> truthy w = true ->
  incl (lookup (byCanonSite maps) (canonicalUrl w)) (gather body).
Proof.
  intros Hw Tw.
  destruct (gather_shape (fun i => i < List.length catalog) mini_ok fuse_ok) with (body := body)
    as [cands [N [F [E I]]]].
  { intro k. destruct load_maps_ok as [M1 [M2 [M3 M4]]].
    repeat split; now apply lookup_ok. }
  rewrite E. pose proof (in_range_length cands N F) as L.
  replace (MAX_CANDIDATES <? Z.of_nat (List.length cands))%Z with false
    by (symmetry; apply Z.ltb_ge; lia).
  now apply I.
Qed.

Lemma website_only_score (body : Body.t) (w : string) (c : AugProfile) :
  Body.name body = None -> Body.phone body = None -> Body.facebook body = None ->
  Body.website body = Some w -> truthy w = true ->
  exists d, (0 <= d <= 2)%Q /\
    (fastScore (precompute body) c
     == (if truthy (canonicalUrl w) && String.eqb (canonicalUrl w) (_canonSite c)
         then 5 else 0) + d)%Q.
Proof.
  intros Hn Hp Hf Hw Tw.
  destruct (bucket_range domain_jaccard_table 2
              (jaccard (domainTokens (extractHost w)) (_domainTokens c))) as [_ [D2 D3]];
    [repeat constructor; simpl; lra |].
  exists (if nonempty (domainTokens (extractHost w)) && nonempty (_domainTokens c)
          then bucket domain_jaccard_table
                 (jaccard (domainTokens (extractHost w)) (_domainTokens c))
          else 0)%Q.
  split; [destruct (nonempty _ && nonempty _); lra |].
  rewrite fastScore_sum. unfold precompute.
  rewrite Hn, Hp, Hf, Hw. unfold when_present. rewrite Tw.
  cbn [Pre.canonSite Pre.nameNorm Pre.domainTokens Pre.phone10 Pre.fbHandle Pre.nameTokens].
  change (truthy "") with false. cbn [andb]. ring.
Qed.

Lemma exact_website_wins (raw body : Body.t) (w : string) (i : nat) (q : Profile) :
  QuerySchema raw = Some body ->
  Body.website body = Some w -> truthy w = true ->
  Body.name body = None -> Body.phone body = None -> Body.facebook body = None ->
  sort_key body = by_score -> sort_dir body = desc ->
  (min_score body <= 0)%Q -> contains_filter body = "" ->
  canonicalUrl w <> "" ->
  nth_error catalog i = Some q -> canonicalUrl (website q) = canonicalUrl w ->
  exists r p,
    match_handler raw = OK r /\ best r = Some p /\ In p catalog /\
    canonicalUrl (website p) = canonicalUrl w.
Proof.
  intros valid Hw Tw Hn Hp Hf K D floor filt nonblank Hi Hq.
  destruct (score_all_in_range parser dep (precompute body) (gather body)) as [scored G].
  { now apply gather_ok. }
  (* the record at [i] is a candidate and scores at least 5 *)
  assert (Ii : In i (gather body)).
  { apply (gather_keeps_site_matches body w Hw Tw). rewrite lookup_byCanonSite.
    apply (proj1 (positions_spec parser dep _)). exists q. split; [exact Hi |].
    cbn [augment _canonSite]. rewrite Hq, String.eqb_refl, andb_true_r.
    now apply truthy_true. }
  assert (each : Forall (fun s => exists j, nth_error catalog j = Some (profile s) /\
                                            score s = fastScore (precompute body)
                                                        (augment j (profile s))) scored).
  { pose proof G as G'. apply map_opt_Forall2 in G'.
    clear -G'. induction G' as [| j s l scored Hs F IH]; constructor; [| exact IH].
    apply score_at_scored_position in Hs. destruct Hs as [_ [H1 H2]]. eauto. }
  assert (top : exists s, In s scored /\ (5 <= score s)%Q).
  { pose proof G as G'. apply map_opt_Forall2 in G'.
    clear -G' Ii Hi Hq Hn Hp Hf Hw Tw nonblank.
    induction G' as [| j s l scored Hs F IH]; [contradiction |].
    destruct Ii as [E | Ii].
    - subst j. exists s. split; [now left |].
      apply score_at_scored_position in Hs. destruct Hs as [_ [H1 H2]].
      rewrite Hi in H1. inversion H1. subst q. rewrite H2.
      destruct (website_only_score body w (augment i (profile s)) Hn Hp Hf Hw Tw)
        as [d [Hd E]].
      rewrite E. cbn [augment _canonSite]. rewrite Hq, String.eqb_refl, andb_true_r.
      apply truthy_true in nonblank. rewrite nonblank. lra.
    - destruct (IH Ii) as [s' [Hs' H5]]. exists s'. split; [now right | exact H5]. }
  destruct top as [s5 [In5 H5]].
  assert (ne : scored <> []) by (intro E; subst; contradiction).
  assert (S : safety_net body (precompute body) scored = Some scored).
  { apply safety_net_with_signal; [exact ne |]. intro Z0.
    rewrite Forall_forall in Z0. specialize (Z0 s5 In5). lra. }
  assert (F : any_field body = true).
  { unfold any_field. rewrite Hw. cbn [truthy_opt]. rewrite Tw. now rewrite !orb_true_r. }
  assert (R : match_handler raw = OK (finalize body scored)).
  { unfold match_handler. rewrite valid, F. cbn [negb]. now rewrite G, S. }
  destruct (best (finalize body scored)) as [p |] eqn:B.
  - exists (finalize body scored), p. split; [exact R |]. split; [exact B |].
    destruct (best_of_ranked body scored p ne K D B) as [s [Hs [Ep Hmax]]].
    rewrite (apply_filters_off body scored floor filt) in Hs, Hmax.
    rewrite Forall_forall in each. destruct (each s Hs) as [j [Hj Sc]].
    subst p. split; [eapply nth_error_In; exact Hj |].
    specialize (Hmax s5 In5).
    destruct (website_only_score body w (augment j (profile s)) Hn Hp Hf Hw Tw)
      as [d [Hd E]].
    rewrite Sc, E in Hmax. cbn [augment _canonSite] in Hmax.
    destruct (String.eqb_spec (canonicalUrl w) (canonicalUrl (website (profile s))))
      as [Eq | Ne]; [now symmetry |].
    rewrite andb_false_r in Hmax. lra.
  - exfalso. unfold finalize in B. cbn [best] in B.
    assert (FL : final_list body scored = ranked body scored).
    { unfold final_list. destruct scored; [congruence | reflexivity]. }
    rewrite FL in B. destruct (ranked body scored) eqn:Rk; [| discriminate].
    pose proof (proj2 (ranked_by_score body scored K D)) as Pm.
    rewrite Rk, (apply_filters_off body scored floor filt) in Pm.
    apply Permutation_sym, Permutation_nil in Pm. contradiction.
Qed.

End ExactWebsite.

(** X13.  Under the default order (score, descending) the best candidate of
    a response that was scored has the highest score of all candidates that
    passed the filters. *)
Theorem best_has_the_highest_score
  (dep : Deployment) (body : Body.t) (scored : list Scored) (p : Profile)
  (some : scored <> [])
  (order : sort_key body = by_score /\ sort_dir body = desc)
  (is_best : best (finalize body scored) = Some p) :
  exists s, In s (apply_filters body scored) /\ profile s = p /\
            forall s', In s' (apply_filters body scored) -> (score s' <= score s)%Q.
Proof.
  destruct order as [K D]. exact (best_of_ranked body scored p some K D is_best).
Qed.

Lemma best_has_the_highest_score_witness :
  exists s, In s [mkScored 0 acme 1.5; mkScored 1 contoso 3] /\ profile s = contoso /\
            forall s', In s' [mkScored 0 acme 1.5; mkScored 1 contoso 3] ->
                       (score s' <= score s)%Q.
Proof.
  refine (best_has_the_highest_score (silent [acme; contoso] 5000)
            (query (Some "contoso") None None None)
            [mkScored 0 acme 1.5; mkScored 1 contoso 3] contoso _ _ _).
  - discriminate.
  - split; reflexivity.
  - vm_compute. reflexivity.
Defined.

(** X14.  A request by website alone, under the default order and without
    filters, has as its best candidate a record with the same canonical site
    whenever the catalog holds one, the canonical form is not empty, the
    text engines return positions of the catalog and the candidate cap is at
    least the size of the catalog. *)
Theorem exact_website_match_is_best
  (parser : URLParser) (dep : Deployment)
  (mini_ok : forall q, Forall (fun i => i < List.length catalog) (miniSearch q))
  (fuse_ok : forall q, Forall (fun r => refIndex r < List.length catalog) (fuzzyIndex q))
  (roomy : (Z.of_nat (List.length catalog) <= MAX_CANDIDATES)%Z)
  (raw body : Body.t) (w : string)
  (valid : QuerySchema raw = Some body)
  (by_website : Body.website body = Some w /\ truthy w = true)
  (only : Body.name body = None /\ Body.phone body = None /\ Body.facebook body = None)
  (order : sort_key body = by_score /\ sort_dir body = desc)
  (unfiltered : (min_score body <= 0)%Q /\ contains_filter body = "")
  (listed : canonicalUrl w <> "" /\
            exists q, In q catalog /\ canonicalUrl (website q) = canonicalUrl w) :
  exists r p,
    match_handler raw = OK r /\ best r = Some p /\ In p catalog /\
    canonicalUrl (website p) = canonicalUrl w.
Proof.
  destruct by_website as [Hw Tw], only as [Hn [Hp Hf]], order as [K D],
    unfiltered as [floor filt], listed as [nonblank [q [Hq Eq]]].
  apply In_nth_error in Hq. destruct Hq as [i Hi].
  exact (exact_website_wins mini_ok fuse_ok roomy raw body w i q valid Hw Tw Hn Hp Hf K D
           floor filt nonblank Hi Eq).
Qed.

Lemma exact_website_match_witness :
  exists r p,
    @match_handler whatwg (silent [acme; contoso] 5000)
      (query None (Some "http://www.acme.com/") None None) = OK r /\
    best r = Some p /\ In p [acme; contoso] /\
    canonicalUrl (website p) = canonicalUrl "http://www.acme.com/".
Proof.
  refine (exact_website_match_is_best whatwg (silent [acme; contoso] 5000) _ _ _
            (query None (Some "http://www.acme.com/") None None)
            (query None (Some "http://www.acme.com/") None None)
            "http://www.acme.com/" _ _ _ _ _ _).
  - intro q. constructor.
  - intro q. constructor.
  - simpl. lia.
  - vm_compute. reflexivity.
  - split; reflexivity.
  - repeat split.
  - split; reflexivity.
  - split; [vm_compute; discriminate | reflexivity].
  - split; [vm_compute; discriminate |]. exists acme. split; [now left |].
    vm_compute. reflexivity.
Defined.

(** ** Addresses with a scheme, [www.], a trailing slash or a query *)

Lemma parse_host_parsable (h : string) :
  parsable_host h = true -> WHATWG.parse_host h = Some h.
Proof.
  unfold parsable_host. rewrite !andb_true_iff, !negb_true_iff.
  intros [[[T F] X] N].
  assert (L : toLowerCase h = h).
  { apply toLowerCase_fixed. eapply forall_str_impl; [| exact F].
    intros c Hc. destruct (host_char_facts c Hc) as [_ [_ [_ [_ [_ [_ [E _]]]]]]].
    rewrite E. apply Ascii.eqb_refl. }
  unfold WHATWG.parse_host. rewrite L, T. cbn [negb].
  assert (B : startsWith "[" h = false).
  { destruct h as [| c h]; [reflexivity |]. apply forall_str_cons in F.
    destruct (host_char_facts c (proj1 F)) as [_ [_ [_ [E _]]]].
    unfold startsWith. cbn [strip_prefix]. now rewrite Ascii.eqb_sym, E. }
  assert (P : includes "%" h = false).
  { apply includes_char. eapply forall_str_impl; [| exact F].
    intros c Hc. destruct (host_char_facts c Hc) as [_ [_ [_ [_ [E _]]]]]. now rewrite E. }
  rewrite B, P, X. cbn [orb].
  assert (D : forall_str (fun c => negb (WHATWG.forbidden_domain c)) h = true).
  { eapply forall_str_impl; [| exact F].
    intros c Hc. destruct (host_char_facts c Hc) as [_ [_ [_ [_ [_ [_ [_ E]]]]]]].
    now rewrite E. }
  rewrite D, N. reflexivity.
Qed.

Lemma split_on_nonempty (sep : ascii -> bool) (s : string) : split_on sep s <> [].
Proof.
  destruct s as [| c s]; [discriminate |]. cbn [split_on].
  destruct (sep c); [discriminate |]. destruct (split_on sep s); discriminate.
Qed.

Lemma last_cons {A : Type} (x d : A) (l : list A) : l <> [] -> last (x :: l) d = last l d.
Proof. destruct l; [congruence | reflexivity]. Qed.

Lemma removelast_cons {A : Type} (x : A) (l : list A) :
  l <> [] -> removelast (x :: l) = x :: removelast l.
Proof. destruct l; [congruence | reflexivity]. Qed.

(** A plain host is parsable, with [www.] in front as well. *)
Lemma plain_host_parsable (h : string) :
  plain_host h = true ->
  parsable_host h = true /\ parsable_host ("www." ++ h) = true.
Proof.
  unfold plain_host, parsable_host. rewrite !andb_true_iff, !negb_true_iff.
  intros [[[[T F] W] X] N]. split; [tauto |].
  assert (NE : split_char "." h <> []) by apply split_on_nonempty.
  assert (S : split_char "." ("www." ++ h) = "www" :: split_char "." h).
  { unfold split_char. cbn [append split_on].
    change (Ascii.eqb "." "w") with false. change (Ascii.eqb "." ".") with true.
    cbn iota. reflexivity. }
  repeat split.
  - cbn [append forall_str]. exact F.
  - rewrite S. cbn [existsb]. exact X.
  - unfold WHATWG.ends_in_number in *. rewrite S. cbv zeta in *.
    rewrite (last_cons "www" "" _ NE).
    destruct (String.eqb (last (split_char "." h) "") "") eqn:E.
    + rewrite (removelast_cons "www" _ NE).
      destruct (removelast (split_char "." h)) as [| p ps] eqn:R; [reflexivity |].
      rewrite last_cons by discriminate. exact N.
    + destruct (split_char "." h) as [| p ps] eqn:R; [congruence |].
      rewrite last_cons by discriminate. exact N.
Qed.

Lemma url_tail_facts (t : string) :
  url_tail t = true ->
  forall_str url_safe t = true /\ single_slashes t = true /\
  (t = "" \/ exists c t', t = String c t' /\ WHATWG.is_path_end c = true).
Proof.
  destruct t as [| c t]; [intros _; repeat split; now left |].
  unfold url_tail. rewrite !andb_true_iff. intros [[P S] D].
  repeat split; try assumption. right. eauto.
Qed.

Lemma serialize_path_app (a b : list string) :
  WHATWG.serialize_path (a ++ b)
  = (WHATWG.serialize_path a ++ WHATWG.serialize_path b)%string.
Proof.
  induction a as [| seg a IH]; [reflexivity |].
  cbn [app WHATWG.serialize_path]. rewrite IH.
  cbn [append]. now rewrite append_assoc.
Qed.

(** The parser on [http://] or [https://], a parsable host, unreserved
    segments and a query or fragment. *)
Lemma parse_http (scheme h : string) (segs : list string) (tail : string) :
  scheme = "http://" \/ scheme = "https://" ->
  parsable_host h = true -> forallb unreserved_segment segs = true ->
  url_tail tail = true ->
  WHATWG.parse (scheme ++ h ++ WHATWG.serialize_path segs ++ tail)
  = Some (mkURL h (pathname_of segs)).
Proof.
  intros Hscheme Hh Hsegs Htail.
  pose proof Hh as Hh'. unfold parsable_host in Hh'. rewrite !andb_true_iff in Hh'.
  destruct Hh' as [[[T F] _] _].
  destruct (url_tail_facts tail Htail) as [Tsafe [_ Tstart]].
  set (path := WHATWG.serialize_path segs).
  assert (Fp : forall q, q "/"%char = true ->
                         (forall c, is_segment_char c = true -> q c = true) ->
                         forall_str q path = true).
  { intros q Q1 Q2. apply serialized_chars; [exact Q1 |].
    eapply forallb_impl; [| exact Hsegs]. intros seg Hs.
    eapply forall_str_impl; [exact Q2 | now apply unreserved_chars]. }
  set (p := (path ++ tail)%string).
  assert (safe : forall_str url_safe (h ++ p) = true).
  { unfold p. rewrite !forall_str_app, Tsafe, andb_true_r. apply andb_true_iff. split.
    - eapply forall_str_impl; [| exact F]. intros c Hc. now apply host_char_facts.
    - apply Fp; [reflexivity |]. intros c Hc. now apply segment_char_facts. }
  assert (pstart : p = "" \/ exists c b', p = String c b' /\ WHATWG.is_authority_end c = true).
  { unfold p. destruct (serialized_start segs) as [E | [c [b' [E C]]]].
    - fold path in E. rewrite E. cbn [append].
      destruct Tstart as [E' | [c [t' [E' C]]]]; [now left |].
      right. exists c, t'. split; [exact E' |].
      unfold WHATWG.is_authority_end. unfold WHATWG.is_path_end in C.
      destruct (WHATWG.is_slash c); [reflexivity | exact C].
    - fold path in E. rewrite E. right. exists c, (b' ++ tail)%string. subst c.
      split; reflexivity. }
  unfold WHATWG.parse, WHATWG.preprocess.
  assert (pre : filter_str (fun c => negb (WHATWG.is_tab_or_newline c))
                  (WHATWG.strip_trailing (WHATWG.strip_leading (scheme ++ h ++ p)))
                = (scheme ++ h ++ p)%string).
  { destruct Hscheme; subst scheme;
      cbn [append WHATWG.strip_leading]; change (WHATWG.is_c0_or_space "h") with false;
      cbn iota; rewrite !strip_trailing_cons by reflexivity;
      rewrite (strip_trailing_safe _ safe); cbn [filter_str];
      change (negb (WHATWG.is_tab_or_newline "h")) with true;
      change (negb (WHATWG.is_tab_or_newline "t")) with true;
      change (negb (WHATWG.is_tab_or_newline "p")) with true;
      change (negb (WHATWG.is_tab_or_newline "s")) with true;
      change (negb (WHATWG.is_tab_or_newline ":")) with true;
      change (negb (WHATWG.is_tab_or_newline "/")) with true;
      cbn iota; now rewrite (filter_tabs_safe _ safe). }
  fold p. rewrite pre.
  assert (sch : exists name, WHATWG.split_scheme (scheme ++ h ++ p)
                             = Some (name, String "/" (String "/" (h ++ p)))
                             /\ WHATWG.is_special name = true).
  { destruct Hscheme; subst scheme; [exists "http" | exists "https"]; split; reflexivity. }
  destruct sch as [name [Sch Spec]]. rewrite Sch, Spec.
  unfold WHATWG.parse_special.
  assert (skip : WHATWG.skip_slashes (String "/" (String "/" (h ++ p))) = (h ++ p)%string).
  { cbn [WHATWG.skip_slashes]. change (WHATWG.is_slash "/") with true. cbn iota.
    destruct h as [| c h]; [discriminate |]. apply forall_str_cons in F.
    destruct (host_char_facts c (proj1 F)) as [_ [A _]].
    unfold WHATWG.is_authority_end in A. apply orb_false_iff in A. destruct A as [A _].
    apply orb_false_iff in A. destruct A as [A _].
    cbn [append WHATWG.skip_slashes]. now rewrite A. }
  rewrite skip.
  rewrite (span_until_app WHATWG.is_authority_end h p).
  2:{ eapply forall_str_impl; [| exact F]. intros c Hc.
      destruct (host_char_facts c Hc) as [_ [A _]]. now rewrite A. }
  2:{ exact pstart. }
  assert (noat : includes "@" h = false).
  { apply includes_char. eapply forall_str_impl; [| exact F]. intros c Hc.
    destruct (host_char_facts c Hc) as [_ [_ [A _]]]. now rewrite A. }
  rewrite noat.
  rewrite (span_until_all (Ascii.eqb ":") h).
  2:{ eapply forall_str_impl; [| exact F]. intros c Hc.
      destruct (host_char_facts c Hc) as [U _].
      destruct (url_safe_facts c U) as [_ [_ [_ [A _]]]].
      now rewrite Ascii.eqb_sym, A. }
  rewrite (parse_host_parsable h Hh). cbn [WHATWG.port_ok].
  unfold p. rewrite (span_until_app WHATWG.is_path_end path tail).
  2:{ apply Fp; [reflexivity |]. intros c Hc.
      destruct (segment_char_facts c Hc) as [_ [_ [A _]]]. now rewrite A. }
  2:{ exact Tstart. }
  f_equal. f_equal. subst path. unfold pathname_of.
  destruct segs as [| seg rest]; [reflexivity |].
  cbn [forallb] in Hsegs. apply andb_true_iff in Hsegs. destruct Hsegs as [H1 Hr].
  cbn [WHATWG.serialize_path append]. change (WHATWG.is_slash "/") with true. cbn iota.
  rewrite (split_serialized rest Hr seg (unreserved_chars seg H1)).
  rewrite walk_unreserved by (cbn [forallb]; now rewrite H1, Hr).
  reflexivity.
Qed.

Lemma url_safe_no_ws (s : string) :
  forall_str url_safe s = true -> forall_str (fun c => negb (is_ws c)) s = true.
Proof.
  apply forall_str_impl. intros c Hc.
  destruct (url_safe_facts c Hc) as [_ [_ [W _]]]. now rewrite W.
Qed.

(** [preSanitizeUrl] leaves an address with a scheme as it is. *)
Lemma preSanitizeUrl_schemed (scheme rest : string) :
  scheme = "http://" \/ scheme = "https://" ->
  forall_str url_safe rest = true -> single_slashes rest = true ->
  preSanitizeUrl (scheme ++ rest) = (scheme ++ rest)%string /\
  with_scheme (scheme ++ rest) = (scheme ++ rest)%string.
Proof.
  intros Hscheme H D.
  assert (T : trim (scheme ++ rest) = (scheme ++ rest)%string).
  { apply trim_no_ws. rewrite forall_str_app, (url_safe_no_ws rest H).
    destruct Hscheme; subst scheme; reflexivity. }
  assert (S1 : strip_http_scheme true (scheme ++ rest) = Some rest).
  { destruct Hscheme; subst scheme; reflexivity. }
  assert (R : forall pat r, replace_first_ci ("://" ++ pat ++ "//") r (scheme ++ rest)
                            = (scheme ++ rest)%string).
  { intros pat r.
    assert (tail : replace_first_ci ("://" ++ pat ++ "//") r (String ":" (String "/" (String "/" rest)))
                   = String ":" (String "/" (String "/" rest))).
    { cbn [append replace_first_ci strip_prefix_ci].
      change (Ascii.eqb ":" (lower_char ":")) with true.
      change (Ascii.eqb "/" (lower_char "/")) with true. cbn iota.
      rewrite (strip_prefix_ci_double_slash pat rest D).
      change (Ascii.eqb ":" (lower_char "/")) with false. cbn iota.
      change (String ":" (String "/" (String "/" (pat ++ "//"))))
        with (String ":" ("//" ++ pat ++ "//"))%string.
      now rewrite (replace_first_ci_colon _ r rest H). }
    assert (skip : forall c s, Ascii.eqb ":" (lower_char c) = false ->
                               replace_first_ci ("://" ++ pat ++ "//") r (String c s)
                               = String c (replace_first_ci ("://" ++ pat ++ "//") r s)).
    { intros c s Hc. cbn [append replace_first_ci strip_prefix_ci]. now rewrite Hc. }
    destruct Hscheme; subst scheme; cbn [append];
      rewrite !skip by reflexivity; now rewrite tail. }
  split.
  - unfold preSanitizeUrl. rewrite T, S1, (strip_http_scheme_safe rest H).
    change "://https//" with ("://" ++ "https" ++ "//")%string.
    change "://http//" with ("://" ++ "http" ++ "//")%string.
    rewrite !R. destruct Hscheme; subst scheme; reflexivity.
  - destruct Hscheme; subst scheme; reflexivity.
Qed.

Lemma single_slashes_app (a b : string) :
  single_slashes a = true -> single_slashes b = true ->
  ends_with_char "/" a = false \/ startsWith "/" b = false ->
  single_slashes (a ++ b) = true.
Proof.
  induction a as [| c a IH]; intros Ha Hb J; [exact Hb |].
  destruct a as [| d a].
  - cbn [append]. destruct b as [| e b]; [reflexivity |].
    rewrite single_slashes_cons, Hb, andb_true_r. apply negb_true_iff.
    destruct J as [J | J].
    + cbn [ends_with_char] in J. now rewrite J.
    + unfold startsWith in J. cbn [strip_prefix] in J.
      rewrite (Ascii.eqb_sym e "/"). destruct (Ascii.eqb "/" e); [discriminate |].
      apply andb_false_r.
  - rewrite single_slashes_cons in Ha. apply andb_true_iff in Ha. destruct Ha as [Hcd Ha].
    change ((String c (String d a)) ++ b)%string with (String c (String d (a ++ b))).
    rewrite single_slashes_cons, Hcd. cbn [andb].
    change (String d (a ++ b)) with ((String d a) ++ b)%string. apply IH; assumption.
Qed.

Lemma drop_last_snoc (s : string) (c : ascii) : drop_last (s ++ String c "") = s.
Proof.
  induction s as [| d s IH]; [reflexivity |].
  cbn [append drop_last]. rewrite IH. destruct (s ++ String c "")%string eqn:E; [| reflexivity].
  destruct s; discriminate.
Qed.

Section Decorated.

Variables (scheme www h slash tail : string) (segs : list string).

Hypothesis scheme_ok : In scheme [""; "http://"; "https://"].
Hypothesis www_ok : In www [""; "www."].
Hypothesis slash_ok : In slash [""; "/"].
Hypothesis host_ok : plain_host h = true.
Hypothesis path_ok : forallb plain_segment segs = true.
Hypothesis tail_ok : url_tail tail = true.

Let path : string := WHATWG.serialize_path segs.
Let address : string := (scheme ++ www ++ h ++ path ++ slash ++ tail)%string.
Let host' : string := (www ++ h)%string.
Let segs' : list string := segs ++ (if String.eqb slash "/" then [""] else []).
Let body : string := (host' ++ WHATWG.serialize_path segs' ++ tail)%string.

Lemma segs_cases : segs = [] \/ exists seg rest, segs = seg :: rest.
Proof. destruct segs; eauto. Qed.

Lemma decorated_address : address = (scheme ++ body)%string.
Proof.
  unfold address, body, host', segs', path. rewrite serialize_path_app.
  rewrite !append_assoc. do 4 f_equal.
  destruct slash_ok as [E | [E | []]]; subst slash; reflexivity.
Qed.

Lemma decorated_host : parsable_host host' = true /\ replace_prefix "www." "" host' = h.
Proof.
  destruct (plain_host_parsable h host_ok) as [P1 P2]. unfold host'.
  destruct www_ok as [E | [E | []]]; subst www; cbn [append]; split; try assumption.
  - unfold plain_host in host_ok. rewrite !andb_true_iff, !negb_true_iff in host_ok.
    destruct host_ok as [[[[_ _] W] _] _]. unfold replace_prefix. unfold startsWith in W.
    now destruct (strip_prefix "www." h).
  - reflexivity.
Qed.

Lemma decorated_segments : forallb unreserved_segment segs' = true.
Proof.
  unfold segs'. rewrite forallb_app, (plain_segments_unreserved segs path_ok).
  now destruct (String.eqb slash "/").
Qed.

Lemma host_chars : forall_str is_host_char host' = true.
Proof.
  destruct decorated_host as [P _]. unfold parsable_host in P.
  rewrite !andb_true_iff in P. tauto.
Qed.

Lemma decorated_body_safe :
  forall_str url_safe body = true /\ single_slashes body = true.
Proof.
  destruct (url_tail_facts tail tail_ok) as [Tsafe [Tsingle Tstart]].
  pose proof host_chars as F.
  assert (noslash : forall_str (fun c => negb (Ascii.eqb c "/")) host' = true).
  { eapply forall_str_impl; [| exact F]. intros c Hc.
    destruct (host_char_facts c Hc) as [_ [_ [_ [_ [_ [E _]]]]]]. now rewrite E. }
  assert (T : truthy host' = true).
  { destruct decorated_host as [P _]. unfold parsable_host in P.
    rewrite !andb_true_iff in P. tauto. }
  split.
  - unfold body. rewrite !forall_str_app, Tsafe, andb_true_r. apply andb_true_iff. split.
    + eapply forall_str_impl; [| exact F]. intros c Hc. now apply host_char_facts.
    + apply serialized_chars; [reflexivity |].
      eapply forallb_impl; [| exact decorated_segments]. intros seg Hs.
      eapply forall_str_impl; [| exact (unreserved_chars seg Hs)].
      intros c Hc. now apply segment_char_facts.
  - assert (front : single_slashes (host' ++ path) = true)
      by (now apply single_slashes_serialized).
    assert (front_end : ends_with_char "/" (host' ++ path) = false).
    { unfold path. destruct segs_cases as [E | [seg [rest E]]].
      - rewrite E. cbn [WHATWG.serialize_path]. rewrite append_empty_r.
        now apply ends_with_char_absent.
      - rewrite ends_with_char_app
          by (rewrite E; cbn [WHATWG.serialize_path append]; discriminate).
        apply serialized_no_trailing_slash; [rewrite E; discriminate | exact path_ok]. }
    assert (tail_start : startsWith "/" tail = false).
    { destruct Tstart as [E | [c [t' [E C]]]]; subst tail; [reflexivity |].
      unfold startsWith. cbn [strip_prefix].
      destruct (Ascii.eqb_spec "/" c) as [E |]; [| reflexivity]. subst c. discriminate. }
    unfold body, segs'. rewrite serialize_path_app, append_assoc, <- append_assoc.
    fold path. apply single_slashes_app; [exact front | |].
    + destruct slash_ok as [E | [E | []]]; rewrite <- E.
      * change (single_slashes tail = true). exact Tsingle.
      * change (single_slashes (String "/" tail) = true).
        destruct Tstart as [E' | [c [t' [E' C]]]]; rewrite E' in *; [reflexivity |].
        rewrite single_slashes_cons, Tsingle, andb_true_r.
        unfold startsWith in tail_start. cbn [strip_prefix] in tail_start.
        rewrite (Ascii.eqb_sym c "/"). now destruct (Ascii.eqb "/" c).
    + now left.
Qed.

(** What the constructor makes of the address after [preSanitizeUrl]. *)
Lemma decorated_parse :
  new_URL (with_scheme (preSanitizeUrl address))
  = Some (mkURL host' (pathname_of segs')).
Proof.
  destruct decorated_body_safe as [safe single].
  destruct decorated_host as [P _].
  rewrite decorated_address. unfold new_URL, whatwg.
  destruct scheme_ok as [E | [E | [E | []]]]; subst scheme.
  - cbn [append]. destruct (preSanitizeUrl_safe body safe single) as [S W].
    rewrite S, W. unfold body.
    apply parse_http; [now right | exact P | exact decorated_segments | exact tail_ok].
  - destruct (preSanitizeUrl_schemed "http://" body (or_introl eq_refl) safe single) as [S W].
    rewrite S, W. unfold body.
    apply parse_http; [now left | exact P | exact decorated_segments | exact tail_ok].
  - destruct (preSanitizeUrl_schemed "https://" body (or_intror eq_refl) safe single) as [S W].
    rewrite S, W. unfold body.
    apply parse_http; [now right | exact P | exact decorated_segments | exact tail_ok].
Qed.

Lemma decorated_lower : toLowerCase host' = host'.
Proof.
  apply toLowerCase_fixed. eapply forall_str_impl; [| exact host_chars].
  intros c Hc. destruct (host_char_facts c Hc) as [_ [_ [_ [_ [_ [_ [E _]]]]]]].
  rewrite E. apply Ascii.eqb_refl.
Qed.

Lemma decorated_canonicalUrl : canonicalUrl address = (h ++ path)%string.
Proof.
  unfold canonicalUrl. rewrite decorated_parse. cbn [hostname pathname].
  rewrite decorated_lower, (proj2 decorated_host).
  unfold segs', pathname_of, path.
  destruct segs_cases as [E | [seg [rest E]]].
  - rewrite E. cbn [app WHATWG.serialize_path]. rewrite append_empty_r.
    now destruct (String.eqb slash "/").
  - assert (shape : exists c q, WHATWG.serialize_path segs = String "/" (String c q)).
    { pose proof path_ok as Hp. rewrite E in Hp. cbn [forallb] in Hp.
      apply andb_true_iff in Hp. destruct Hp as [H1 _].
      unfold plain_segment in H1. apply andb_true_iff in H1. destruct H1 as [T1 _].
      rewrite E. destruct seg as [| c seg]; [discriminate |].
      cbn [WHATWG.serialize_path append]. eauto. }
    pose proof (serialized_no_trailing_slash segs ltac:(rewrite E; discriminate) path_ok)
      as NT.
    assert (M : forall extra,
               match segs ++ extra with
               | [] => "/"
               | _ :: _ => WHATWG.serialize_path (segs ++ extra)
               end = (WHATWG.serialize_path segs ++ WHATWG.serialize_path extra)%string).
    { intro extra. rewrite serialize_path_app. rewrite E. reflexivity. }
    rewrite M. destruct shape as [c [q Q]]. rewrite Q in *.
    destruct (String.eqb slash "/").
    + cbn [WHATWG.serialize_path]. rewrite append_empty_r.
      change (String "/" "") with "/".
      cbn [append]. change (truthy (String "/" (String c (q ++ "/")))) with true. cbv iota.
      change (String.eqb (String "/" (String c (q ++ "/"))) "/") with false.
      change (String.eqb (String "/" (String c (q ++ "/"))) "") with false.
      cbn [orb].
      change (String "/" (String c (q ++ "/"))) with ((String "/" (String c q)) ++ "/")%string.
      rewrite ends_with_char_app by discriminate. cbn [ends_with_char].
      change (Ascii.eqb "/" "/") with true. cbv iota.
      now rewrite drop_last_snoc.
    + cbn [WHATWG.serialize_path]. rewrite append_empty_r.
      change (truthy (String "/" (String c q))) with true. cbv iota.
      change (String.eqb (String "/" (String c q)) "/") with false.
      change (String.eqb (String "/" (String c q)) "") with false.
      cbn [orb]. now rewrite NT.
Qed.

Lemma decorated_extractHost : extractHost address = h.
Proof.
  unfold extractHost. rewrite decorated_parse. cbn [hostname].
  rewrite decorated_lower. exact (proj2 decorated_host).
Qed.

End Decorated.

(** X15.  For an address made of an optional [http://] or [https://], an
    optional [www.], a plain host ([plain_host]), plain path segments
    ([plain_segment]), an optional trailing slash and an optional query
    string or fragment that holds no colon, no white space or control
    character and no two slashes in a row ([url_tail]), [canonicalUrl] gives
    the host followed by the path, and [extractHost] gives the host. *)
Theorem canonicalUrl_ignores_decorations
  (scheme www h slash tail : string) (segs : list string)
  (scheme_ok : In scheme [""; "http://"; "https://"])
  (www_ok : In www [""; "www."])
  (slash_ok : In slash [""; "/"])
  (host_ok : plain_host h = true)
  (path_ok : forallb plain_segment segs = true)
  (tail_ok : url_tail tail = true) :
  canonicalUrl (scheme ++ www ++ h ++ WHATWG.serialize_path segs ++ slash ++ tail)
  = (h ++ WHATWG.serialize_path segs)%string /\
  extractHost (scheme ++ www ++ h ++ WHATWG.serialize_path segs ++ slash ++ tail) = h.
Proof.
  split.
  - exact (decorated_canonicalUrl scheme www h slash tail segs
             scheme_ok www_ok slash_ok host_ok path_ok tail_ok).
  - exact (decorated_extractHost scheme www h slash tail segs
             scheme_ok www_ok slash_ok host_ok path_ok tail_ok).
Qed.

Lemma canonicalUrl_ignores_decorations_witness :
  canonicalUrl "http://www.forcht-law.com/about/team/?ref=mail#top"
  = "forcht-law.com/about/team" /\
  extractHost "http://www.forcht-law.com/about/team/?ref=mail#top" = "forcht-law.com".
Proof.
  refine (canonicalUrl_ignores_decorations "http://" "www." "forcht-law.com" "/"
            "?ref=mail#top" ["about"; "team"] _ _ _ _ _ _).
  - simpl. tauto.
  - simpl. tauto.
  - simpl. tauto.
  - vm_compute. reflexivity.
  - vm_compute. reflexivity.
  - vm_compute. reflexivity.
Defined.

(** Without a scheme a query that holds [://] is outside these addresses:
    the source takes the text for an address with a scheme, the parser
    rejects it and the [catch] branch keeps the query. *)
Lemma canonicalUrl_keeps_a_query_with_a_scheme :
  canonicalUrl "example.com/a?next=https://b.com" = "example.com/a?next=https://b.com".
Proof. vm_compute. reflexivity. Qed.

(** ** Facebook addresses *)

Lemma replace_runs_prefix (cls : ascii -> bool) (r a b : string) :
  forall_str (fun c => negb (cls c)) a = true ->
  replace_runs cls r (a ++ b) = (a ++ replace_runs cls r b)%string.
Proof.
  induction a as [| c a IH]; [reflexivity |].
  rewrite forall_str_cons, negb_true_iff. intros [Hc Ha].
  cbn [append replace_runs]. now rewrite Hc, IH.
Qed.

Lemma replace_runs_step (cls : ascii -> bool) (r : string) (c d : ascii) (s : string) :
  cls c = true -> cls d = false ->
  replace_runs cls r (String c (String d s))
  = (r ++ replace_runs cls r (String d s))%string.
Proof.
  intros Hc Hd. cbn [replace_runs]. now rewrite Hc, Hd.
Qed.

Lemma replace_runs_start (cls : ascii -> bool) (r s : string) :
  (s = "" \/ exists c t, s = String c t /\ cls c = true) ->
  replace_runs cls r s = "" \/ exists t', replace_runs cls r s = (r ++ t')%string.
Proof.
  induction s as [| c s IH]; [now left |].
  intros [E | [c0 [t [E C]]]]; [discriminate |]. inversion E. subst c0 t.
  cbn [replace_runs]. rewrite C. destruct s as [| c' s].
  - right. exists "". now rewrite append_empty_r.
  - destruct (cls c') eqn:C'.
    + apply IH. right. eauto.
    + right. eauto.
Qed.

Lemma split_on_prefix (sep : ascii -> bool) (a b : string) :
  forall_str (fun c => negb (sep c)) a = true ->
  (b = "" \/ exists c t, b = String c t /\ sep c = true) ->
  exists rest, split_on sep (a ++ b) = a :: rest.
Proof.
  intros Ha Hb. induction a as [| x a IH].
  - cbn [append]. destruct Hb as [E | [c [t [E C]]]]; subst b.
    + now exists [].
    + cbn [split_on]. rewrite C. eauto.
  - apply forall_str_cons in Ha. destruct Ha as [Hx Ha]. apply negb_true_iff in Hx.
    destruct (IH Ha) as [rest E]. cbn [append split_on]. rewrite Hx, E. eauto.
Qed.

(** The first segment of a path is what [canonicalFacebook] keeps. *)
Lemma first_segment (handle : string) (rest : list string) :
  plain_segment handle = true ->
  hd "" (filter_Boolean
           (split_char "/"
              (replace_runs (Ascii.eqb "/") "/"
                 (WHATWG.serialize_path (handle :: rest)))))
  = handle.
Proof.
  intro H. unfold plain_segment in H. apply andb_true_iff in H. destruct H as [T U].
  assert (noslash : forall_str (fun c => negb (Ascii.eqb "/" c)) handle = true).
  { eapply forall_str_impl; [| exact (unreserved_chars handle U)]. intros c Hc.
    destruct (segment_char_facts c Hc) as [_ [_ [_ [_ E]]]].
    now rewrite Ascii.eqb_sym, E. }
  set (R := replace_runs (Ascii.eqb "/") "/" (WHATWG.serialize_path rest)).
  assert (Rstart : R = "" \/ exists c t, R = String c t /\ Ascii.eqb "/" c = true).
  { destruct (replace_runs_start (Ascii.eqb "/") "/" (WHATWG.serialize_path rest))
      as [E | [t' E]].
    - destruct (serialized_start rest) as [E | [c [b' [E C]]]]; [now left |].
      right. exists c, b'. subst c. now split.
    - now left.
    - right. exists "/"%char, t'. split; [exact E | reflexivity]. }
  assert (E : replace_runs (Ascii.eqb "/") "/" (WHATWG.serialize_path (handle :: rest))
              = String "/" (handle ++ R)).
  { cbn [WHATWG.serialize_path].
    destruct handle as [| c handle]; [discriminate |].
    pose proof noslash as N. apply forall_str_cons in N. destruct N as [Nc _].
    apply negb_true_iff in Nc.
    change (String "/" (String c handle) ++ WHATWG.serialize_path rest)%string
      with (String "/" (String c (handle ++ WHATWG.serialize_path rest))).
    rewrite (replace_runs_step (Ascii.eqb "/") "/" "/" c) by (reflexivity || exact Nc).
    change (String c (handle ++ WHATWG.serialize_path rest))
      with ((String c handle) ++ WHATWG.serialize_path rest)%string.
    now rewrite (replace_runs_prefix _ _ _ _ noslash). }
  rewrite E. unfold split_char. cbn [split_on]. change (Ascii.eqb "/" "/") with true.
  cbv iota. destruct (split_on_prefix (Ascii.eqb "/") handle R noslash Rstart) as [more S].
  rewrite S. unfold filter_Boolean. cbn [filter]. change (truthy "") with false.
  cbv iota. now rewrite T.
Qed.

(** X16.  [canonicalFacebook] reduces an address on facebook.com or fb.com
    (bare or under [www.] or [m.]), with or without [http://] or
    [https://], to [facebook.com/] followed by its first path segment, when
    that segment is a non-empty run of unreserved characters, the later
    segments are runs of unreserved characters (an empty last one is a
    trailing slash) and the query string or fragment holds no colon, no
    white space or control character and no two slashes in a row
    ([url_tail]): the rest of the path and the query are dropped. *)
Theorem canonicalFacebook_keeps_the_handle
  (scheme host handle tail : string) (rest : list string)
  (scheme_ok : In scheme [""; "http://"; "https://"])
  (host_ok : In host ["facebook.com"; "www.facebook.com"; "m.facebook.com";
                      "fb.com"; "www.fb.com"; "m.fb.com"])
  (handle_ok : plain_segment handle = true)
  (rest_ok : forallb unreserved_segment rest = true)
  (tail_ok : url_tail tail = true) :
  canonicalFacebook (scheme ++ host ++ WHATWG.serialize_path (handle :: rest) ++ tail)
  = ("facebook.com/" ++ handle)%string.
Proof.
  destruct (url_tail_facts tail tail_ok) as [Tsafe _].
  assert (segs_ok : forallb unreserved_segment (handle :: rest) = true).
  { cbn [forallb]. rewrite rest_ok, andb_true_r. unfold plain_segment in handle_ok.
    now apply andb_true_iff in handle_ok. }
  assert (P : parsable_host host = true /\
              (let lower := toLowerCase host in
               let h1 := replace_prefix "www." "" (replace_prefix "m." "" lower) in
               (if String.eqb h1 "fb.com" then "facebook.com" else h1)) = "facebook.com" /\
              forall_str url_safe host = true).
  { cbn [In] in host_ok.
    destruct host_ok as [E | [E | [E | [E | [E | [E | []]]]]]]; subst host;
      repeat split; vm_compute; reflexivity. }
  destruct P as [Hp [Hn Hs]].
  set (body := (host ++ WHATWG.serialize_path (handle :: rest) ++ tail)%string).
  assert (safe : forall_str url_safe body = true).
  { unfold body. rewrite !forall_str_app, Hs, Tsafe, andb_true_r. cbn [andb].
    apply serialized_chars; [reflexivity |].
    eapply forallb_impl; [| exact segs_ok]. intros seg Hseg.
    eapply forall_str_impl; [| exact (unreserved_chars seg Hseg)].
    intros c Hc. now apply segment_char_facts. }
  assert (U : exists sch, (sch = "http://" \/ sch = "https://") /\
                          with_scheme (scheme ++ body) = (sch ++ body)%string).
  { cbn [In] in scheme_ok. destruct scheme_ok as [E | [E | [E | []]]]; subst scheme.
    - exists "https://". split; [now right |]. unfold with_scheme. cbn [append].
      now rewrite (includes_colon _ body safe).
    - exists "http://". split; [now left | reflexivity].
    - exists "https://". split; [now right | reflexivity]. }
  destruct U as [sch [Hsch W]].
  unfold canonicalFacebook. fold body. rewrite W. unfold new_URL, whatwg, body.
  rewrite (parse_http sch host (handle :: rest) tail Hsch Hp segs_ok tail_ok).
  cbn [hostname pathname]. cbv zeta in Hn. rewrite Hn.
  change (String.eqb "facebook.com" "facebook.com") with true. cbn [negb].
  unfold pathname_of. now rewrite (first_segment handle rest handle_ok).
Qed.

Lemma canonicalFacebook_keeps_the_handle_witness :
  canonicalFacebook "https://m.facebook.com/acme/photos/?ref=x" = "facebook.com/acme".
Proof.
  refine (canonicalFacebook_keeps_the_handle "https://" "m.facebook.com" "acme" "?ref=x"
            ["photos"; ""] _ _ _ _ _).
  - simpl. tauto.
  - simpl. tauto.
  - vm_compute. reflexivity.
  - vm_compute. reflexivity.
  - vm_compute. reflexivity.
Defined.

(** The same limit as for [canonicalUrl]: without a scheme, a query that
    holds [://] reaches the [catch] branch. *)
Lemma canonicalFacebook_keeps_a_query_with_a_scheme :
  canonicalFacebook "facebook.com/acme?ref=https://x.com"
  = "facebook.com/acme?ref=https://x.com".
Proof. vm_compute. reflexivity. Qed.

(** ** Escaped error messages *)

Lemma replace_all_char_app (d : ascii) (r a b : string) :
  replace_all_char d r (a ++ b)
  = (replace_all_char d r a ++ replace_all_char d r b)%string.
Proof.
  induction a as [| c a IH]; [reflexivity |].
  cbn [append replace_all_char]. rewrite IH.
  destruct (Ascii.eqb c d); [now rewrite append_assoc | reflexivity].
Qed.

Lemma escapeHtml_app (a b : string) :
  escapeHtml (a ++ b) = (escapeHtml a ++ escapeHtml b)%string.
Proof.
  unfold escapeHtml. now rewrite !replace_all_char_app.
Qed.

Lemma escapeHtml_char (c : ascii) : escapeHtml (String c "") = html_entity c.
Proof.
  destruct c as [[] [] [] [] [] [] [] []]; vm_compute; reflexivity.
Qed.

Lemma html_entity_inert (c : ascii) :
  forall_str (fun x => negb (Ascii.eqb x "<" || Ascii.eqb x ">"
                             || Ascii.eqb x double_quote || Ascii.eqb x "'"))
    (html_entity c) = true.
Proof.
  destruct c as [[] [] [] [] [] [] [] []]; vm_compute; reflexivity.
Qed.

(** X17.  [escapeHtml], five replacements one after the other, escapes each
    character of the text once: an ampersand written by a later replacement
    is not escaped again.  The result holds no [<], [>], double quote or
    apostrophe. *)
Theorem escapeHtml_escapes_each_character_once (s : string) :
  escapeHtml s = escape_each s /\
  forall_str (fun x => negb (Ascii.eqb x "<" || Ascii.eqb x ">"
                             || Ascii.eqb x double_quote || Ascii.eqb x "'"))
    (escapeHtml s) = true.
Proof.
  assert (E : escapeHtml s = escape_each s).
  { induction s as [| c s IH]; [reflexivity |].
    change (String c s) with (String c "" ++ s)%string.
    rewrite escapeHtml_app, escapeHtml_char, IH. reflexivity. }
  split; [exact E |]. rewrite E. clear E.
  induction s as [| c s IH]; [reflexivity |].
  cbn [escape_each]. rewrite forall_str_app, html_entity_inert. now apply IH.
Qed.

(** ** The rate limiter *)

Lemma seq_shift_map {A : Type} (f : nat -> A) (n : nat) :
  map f (seq 0 (S n)) = f 0 :: map (fun k => f (S k)) (seq 0 n).
Proof.
  cbn [seq map]. f_equal. rewrite <- seq_shift, map_map. reflexivity.
Qed.

Section RateLimiter.

Variables RATE_MAX RATE_WIN : Z.
Variable who : string.

(** Inside a window: the bucket of [who] counts [n] requests and ends at
    [R], and the counted requests of [who] that follow arrive by [R]. *)
Lemma verdicts_in_window (reqs : list RateLimit.Request) :
  forall (buckets : RateLimit.Buckets) (n R : Z),
    buckets who = Some (RateLimit.mkBucket n R) ->
    Forall (fun r => RateLimit.counted who r = true -> (RateLimit.now r <= R)%Z) reqs ->
    RateLimit.verdicts RATE_MAX RATE_WIN who buckets reqs
    = map (fun k => (n + 1 + Z.of_nat k <=? RATE_MAX)%Z)
        (seq 0 (List.length (filter (RateLimit.counted who) reqs))).
Proof.
  induction reqs as [| req rest IH]; intros buckets n R Hb Hin; [reflexivity |].
  inversion Hin as [| ? ? Hreq Hrest]. subst.
  unfold RateLimit.verdicts. cbn [RateLimit.serve].
  destruct (RateLimit.onRequest RATE_MAX RATE_WIN buckets req) as [buckets' out] eqn:E.
  cbn [combine filter fst snd]. unfold RateLimit.onRequest in E.
  destruct (RateLimit.counted who req) eqn:C.
  - specialize (Hreq eq_refl). unfold RateLimit.counted in C.
    apply andb_true_iff in C. destruct C as [Hh Hw].
    apply negb_true_iff in Hh. apply String.eqb_eq in Hw.
    rewrite Hh, Hw, Hb in E. cbn [RateLimit.reset RateLimit.n] in E.
    replace (R <? RateLimit.now req)%Z with false in E by (symmetry; apply Z.ltb_ge; lia).
    cbn [RateLimit.reset RateLimit.n] in E. inversion E. subst buckets' out.
    cbn [map List.length snd]. rewrite seq_shift_map. f_equal.
    + rewrite Z.add_0_r.
      destruct (Z.ltb_spec RATE_MAX (n + 1)), (Z.leb_spec (n + 1) RATE_MAX);
        try reflexivity; lia.
    + fold (RateLimit.verdicts RATE_MAX RATE_WIN who
              (RateLimit.set buckets who (RateLimit.mkBucket (n + 1) R)) rest).
      rewrite (IH _ (n + 1)%Z R);
        [| unfold RateLimit.set; now rewrite String.eqb_refl | exact Hrest].
      apply map_ext. intro k. f_equal. lia.
  - fold (RateLimit.verdicts RATE_MAX RATE_WIN who buckets' rest).
    apply (IH _ n R); [| exact Hrest].
    unfold RateLimit.counted in C.
    destruct (String.eqb (RateLimit.url req) "/health").
    + inversion E. now subst.
    + cbn [negb andb] in C. inversion E. unfold RateLimit.set.
      rewrite String.eqb_sym, C. exact Hb.
Qed.

End RateLimiter.

(** X18.  The rate limiter lets through the first [RATE_MAX] counted requests
    of a client in a window and rejects the rest: when a request of the
    client opens a window (no bucket yet, or the old one has ended) and the
    client's later requests arrive within [RATE_WIN] of it, the k-th of them
    (from 0) passes exactly when [k < RATE_MAX].  Requests for [/health] and
    requests of other clients are not counted. *)
Theorem rate_limit_admits_quota_per_window
  (RATE_MAX RATE_WIN : Z) (who : string) (buckets : RateLimit.Buckets)
  (first : RateLimit.Request) (rest : list RateLimit.Request)
  (counted_first : RateLimit.counted who first = true)
  (opens : match buckets who with
           | Some b => (RateLimit.reset b < RateLimit.now first)%Z
           | None => True
           end)
  (within : Forall (fun r => RateLimit.counted who r = true ->
                             (RateLimit.now r <= RateLimit.now first + RATE_WIN)%Z) rest) :
  RateLimit.verdicts RATE_MAX RATE_WIN who buckets (first :: rest)
  = map (fun k => (Z.of_nat k <? RATE_MAX)%Z)
      (seq 0 (List.length (filter (RateLimit.counted who) (first :: rest)))).
Proof.
  unfold RateLimit.verdicts. cbn [RateLimit.serve].
  destruct (RateLimit.onRequest RATE_MAX RATE_WIN buckets first) as [buckets' out] eqn:E.
  cbn [combine filter fst snd]. rewrite counted_first. unfold RateLimit.onRequest in E.
  pose proof counted_first as C. unfold RateLimit.counted in C.
  apply andb_true_iff in C. destruct C as [Hh Hw].
  apply negb_true_iff in Hh. apply String.eqb_eq in Hw. rewrite Hh, Hw in E.
  assert (fresh : (match buckets who with
                   | Some b => if (RateLimit.reset b <? RateLimit.now first)%Z
                               then RateLimit.mkBucket 0 (RateLimit.now first + RATE_WIN)
                               else b
                   | None => RateLimit.mkBucket 0 (RateLimit.now first + RATE_WIN)
                   end) = RateLimit.mkBucket 0 (RateLimit.now first + RATE_WIN)).
  { destruct (buckets who) as [b |]; [| reflexivity].
    now replace (RateLimit.reset b <? RateLimit.now first)%Z with true
      by (symmetry; apply Z.ltb_lt; exact opens). }
  rewrite fresh in E. cbn [RateLimit.reset RateLimit.n] in E. inversion E. subst buckets' out.
  cbn [map List.length snd]. rewrite seq_shift_map. f_equal.
  - cbn [Z.of_nat].
    match goal with
    | |- RateLimit.passed (if ?c then _ else _) = ?d =>
        destruct c eqn:L1; destruct d eqn:L2; try reflexivity
    end.
    + apply Z.ltb_lt in L1, L2. lia.
    + apply Z.ltb_ge in L1, L2. lia.
  - etransitivity.
    + apply (verdicts_in_window RATE_MAX RATE_WIN who rest
               (RateLimit.set buckets who
                  (RateLimit.mkBucket 1 (RateLimit.now first + RATE_WIN)))
               1%Z (RateLimit.now first + RATE_WIN)%Z);
        [unfold RateLimit.set; now rewrite String.eqb_refl | exact within].
    + apply map_ext. intro k.
      destruct (Z.leb_spec (1 + 1 + Z.of_nat k) RATE_MAX),
        (Z.ltb_spec (Z.of_nat (S k)) RATE_MAX); try reflexivity; lia.
Qed.

Lemma rate_limit_witness :
  RateLimit.verdicts 2 60000 "10.0.0.7" RateLimit.empty
    [RateLimit.mkRequest "/match" (Some "10.0.0.7") None 1000;
     RateLimit.mkRequest "/health" (Some "10.0.0.7") None 1001;
     RateLimit.mkRequest "/match" (Some "10.0.0.7") None 1002;
     RateLimit.mkRequest "/match" (Some "10.0.0.9") None 1003;
     RateLimit.mkRequest "/" (Some "10.0.0.7") None 61000]
  = [true; true; false].
Proof.
  refine (rate_limit_admits_quota_per_window 2 60000 "10.0.0.7" RateLimit.empty
            (RateLimit.mkRequest "/match" (Some "10.0.0.7") None 1000) _ _ _ _).
  - reflexivity.
  - exact I.
  - repeat constructor; simpl; intros; lia.
Defined.

(** ** Phones at scrape time *)

Lemma filter_str_app (p : ascii -> bool) (a b : string) :
  filter_str p (a ++ b) = (filter_str p a ++ filter_str p b)%string.
Proof.
  induction a as [| c a IH]; [reflexivity |].
  cbn [append filter_str]. rewrite IH. now destruct (p c).
Qed.

Lemma filter_str_none (p : ascii -> bool) (s : string) :
  forall_str (fun c => negb (p c)) s = true -> filter_str p s = "".
Proof.
  induction s as [| c s IH]; [reflexivity |].
  rewrite forall_str_cons, negb_true_iff. intros [Hc Hs].
  cbn [filter_str]. now rewrite Hc, IH.
Qed.

Lemma filter_str_filter (p q : ascii -> bool) (s : string) :
  (forall c, p c = true -> q c = true) ->
  filter_str p (filter_str q s) = filter_str p s.
Proof.
  intro H. induction s as [| c s IH]; [reflexivity |].
  cbn [filter_str]. destruct (q c) eqn:Q.
  - cbn [filter_str]. now rewrite IH.
  - rewrite IH. destruct (p c) eqn:P; [| reflexivity].
    apply H in P. congruence.
Qed.

Section DigitsSurvive.

Variable p : ascii -> bool.
Hypothesis no_ws : forall c, p c = true -> is_ws c = false.

Lemma filter_str_trimStart (s : string) : filter_str p (trimStart s) = filter_str p s.
Proof.
  induction s as [| c s IH]; [reflexivity |].
  cbn [trimStart filter_str]. destruct (is_ws c) eqn:W; [| reflexivity].
  rewrite IH. destruct (p c) eqn:P; [| reflexivity]. apply no_ws in P. congruence.
Qed.

Lemma filter_str_trimEnd (s : string) : filter_str p (trimEnd s) = filter_str p s.
Proof.
  induction s as [| c s IH]; [reflexivity |].
  cbn [trimEnd filter_str]. rewrite <- IH.
  destruct (trimEnd s) as [| d t].
  - destruct (is_ws c) eqn:W; cbn [filter_str]; [| reflexivity].
    destruct (p c) eqn:P; [| reflexivity]. apply no_ws in P. congruence.
  - reflexivity.
Qed.

Lemma filter_str_trim (s : string) : filter_str p (trim s) = filter_str p s.
Proof. unfold trim. now rewrite filter_str_trimEnd, filter_str_trimStart. Qed.

Lemma filter_str_collapse (s : string) :
  p " "%char = false ->
  filter_str p (replace_runs is_ws " " s) = filter_str p s.
Proof.
  intro Hsp. induction s as [| c s IH]; [reflexivity |].
  cbn [replace_runs filter_str]. destruct (is_ws c) eqn:W.
  - assert (P : p c = false).
    { destruct (p c) eqn:P; [| reflexivity]. apply no_ws in P. congruence. }
    rewrite P. destruct s as [| c' s]; [cbn [filter_str]; now rewrite Hsp |].
    destruct (is_ws c'); [exact IH |].
    rewrite filter_str_app. cbn [filter_str]. rewrite Hsp. exact IH.
  - cbn [filter_str]. now rewrite IH.
Qed.

End DigitsSurvive.

Lemma digit_facts (c : ascii) :
  is_digit c = true ->
  is_ws c = false /\ Scraper.is_phone_punctuation c = false /\ Ascii.eqb c "+" = false /\
  Ascii.eqb "+" c = false.
Proof.
  destruct c as [[] [] [] [] [] [] [] []]; vm_compute; intro H;
    try discriminate H; repeat split.
Qed.

Lemma digits_of_cleaned (s : string) :
  filter_str is_digit (replace_prefix "++" "+" s) = filter_str is_digit s.
Proof.
  unfold replace_prefix. destruct (strip_prefix "++" s) as [rest |] eqn:E; [| reflexivity].
  destruct s as [| a s]; [discriminate |].
  cbn [strip_prefix] in E.
  destruct (Ascii.eqb_spec "+" a) as [Ea |]; [| discriminate].
  destruct s as [| b s]; [discriminate |].
  cbn [strip_prefix] in E.
  destruct (Ascii.eqb_spec "+" b) as [Eb |]; [| discriminate].
  inversion E. subst. reflexivity.
Qed.

Lemma normalizePhone_digits (p : string) :
  filter_str is_digit
    (filter_str (fun c => is_digit c || Ascii.eqb c "+")
       (replace_prefix "++" "+"
          (filter_str (fun c => negb (Scraper.is_phone_punctuation c))
             (replace_runs is_ws " " (trim p)))))
  = digits p.
Proof.
  rewrite filter_str_filter by (intros c Hc; now rewrite Hc).
  rewrite digits_of_cleaned.
  rewrite filter_str_filter
    by (intros c Hc; destruct (digit_facts c Hc) as [_ [E _]]; now rewrite E).
  rewrite filter_str_collapse;
    [| intros c Hc; now apply digit_facts | reflexivity].
  apply filter_str_trim. intros c Hc. now apply digit_facts.
Qed.

(** X19.  [normalizePhone] rejects a text with fewer than seven digits and
    otherwise returns its digits, in order, with plus signs among them and
    nothing else: the phone key of the result is the phone key of the
    text. *)
Theorem normalizePhone_keeps_the_digits (p : string) :
  match Scraper.normalizePhone p with
  | Some d =>
      7 <= String.length (digits p) /\
      forall_str (fun c => is_digit c || Ascii.eqb c "+") d = true /\
      digits d = digits p /\
      last10 d = last10 p
  | None => String.length (digits p) < 7
  end.
Proof.
  unfold Scraper.normalizePhone. cbv zeta. rewrite normalizePhone_digits.
  destruct (String.length (digits p) <? 7) eqn:L.
  - now apply Nat.ltb_lt in L.
  - apply Nat.ltb_ge in L. split; [exact L |]. split; [apply forall_str_filter |].
    assert (D : digits (filter_str (fun c => is_digit c || Ascii.eqb c "+")
                          (replace_prefix "++" "+"
                             (filter_str (fun c => negb (Scraper.is_phone_punctuation c))
                                (replace_runs is_ws " " (trim p)))))
                = digits p) by apply normalizePhone_digits.
    split; [exact D |]. unfold last10. cbv zeta. now rewrite D.
Qed.

(** ** Merging what two pages of a site gave *)

Lemma links_of_entry (s : list (string * list string)) (k : string) (v : list string) :
  NoDup (map fst s) -> In (k, v) s -> Scraper.links s k = v.
Proof.
  induction s as [| [k' v'] s IH]; [intros _ [] |].
  cbn [map fst Scraper.links]. intros N [E | I].
  - inversion E. subst. now rewrite String.eqb_refl.
  - inversion N as [| ? ? NI N']. subst.
    destruct (String.eqb_spec k' k) as [-> |]; [| now apply IH].
    exfalso. apply NI. change k with (fst (k, v)). now apply in_map.
Qed.

Lemma entry_of_links (s : list (string * list string)) (k : string) :
  Scraper.links s k <> [] -> In (k, Scraper.links s k) s.
Proof.
  induction s as [| [k' v'] s IH]; [intro H; now contradiction H |].
  cbn [Scraper.links]. destruct (String.eqb_spec k' k) as [-> |].
  - intros _. now left.
  - intro H. right. now apply IH.
Qed.

Lemma links_absent (s : list (string * list string)) (k : string) :
  ~ In k (map fst s) -> Scraper.links s k = [].
Proof.
  induction s as [| [k' v'] s IH]; [reflexivity |].
  cbn [map fst Scraper.links]. intro H.
  destruct (String.eqb_spec k' k) as [-> |]; [exfalso; apply H; now left |].
  apply IH. intro I. apply H. now right.
Qed.

Lemma links_of_built (f : string -> list string) (keys : list string) (k : string) :
  Scraper.links (map (fun k => (k, f k)) keys) k = if has k keys then f k else [].
Proof.
  induction keys as [| k' keys IH]; [reflexivity |].
  cbn [map Scraper.links has existsb]. rewrite String.eqb_sym.
  destruct (String.eqb_spec k k') as [-> |]; [reflexivity |]. exact IH.
Qed.

Lemma some_links (s : list (string * list string)) :
  NoDup (map fst s) ->
  existsb (fun a => 0 <? List.length a) (map snd s) = true <->
  exists k, Scraper.links s k <> [].
Proof.
  intro N. rewrite existsb_exists. split.
  - intros [v [I L]]. apply in_map_iff in I. destruct I as [[k v'] [E I]].
    cbn [snd] in E. subst v'. exists k. rewrite (links_of_entry s k v N I).
    intro E. subst. discriminate L.
  - intros [k H]. exists (Scraper.links s k). split.
    + apply in_map_iff. exists (k, Scraper.links s k). split; [reflexivity |].
      now apply entry_of_links.
    + destruct (Scraper.links s k); [now contradiction H | reflexivity].
Qed.

Lemma merged_links (a b : Scraper.Extract) (k : string) :
  Scraper.links (Scraper.social (Scraper.mergeExtracts a b)) k
  = new_Set (Scraper.links (Scraper.social a) k ++ Scraper.links (Scraper.social b) k).
Proof.
  unfold Scraper.mergeExtracts. cbn [Scraper.social].
  rewrite (links_of_built
             (fun k => new_Set (Scraper.links (Scraper.social a) k
                                ++ Scraper.links (Scraper.social b) k))).
  destruct (has k (new_Set (map fst (Scraper.social a) ++ map fst (Scraper.social b))))
    eqn:H; [reflexivity |].
  assert (NI : ~ In k (map fst (Scraper.social a) ++ map fst (Scraper.social b))).
  { rewrite <- new_Set_In, <- has_In, H. discriminate. }
  rewrite in_app_iff in NI.
  rewrite !links_absent by tauto. reflexivity.
Qed.

Lemma merged_keys (a b : Scraper.Extract) :
  map fst (Scraper.social (Scraper.mergeExtracts a b))
  = new_Set (map fst (Scraper.social a) ++ map fst (Scraper.social b)).
Proof.
  unfold Scraper.mergeExtracts. cbn [Scraper.social].
  rewrite map_map. cbn [fst]. apply map_id.
Qed.

Lemma nonempty_length {A : Type} (l : list A) : (0 <? List.length l) = true <-> l <> [].
Proof. destruct l; cbn; split; congruence. Qed.

(** X20.  [mergeExtracts] unions two extracts: the phones of both without
    repetition, under each network the links of both without repetition,
    each network once; and the merge has signals exactly when one of the two
    has. *)
Theorem mergeExtracts_is_a_union (a b : Scraper.Extract)
  (keys_a : NoDup (map fst (Scraper.social a)))
  (keys_b : NoDup (map fst (Scraper.social b))) :
  let m := Scraper.mergeExtracts a b in
  (NoDup (Scraper.phones m) /\
   forall p, In p (Scraper.phones m) <-> In p (Scraper.phones a) \/ In p (Scraper.phones b)) /\
  (NoDup (map fst (Scraper.social m)) /\
   forall k, NoDup (Scraper.links (Scraper.social m) k) /\
             forall l, In l (Scraper.links (Scraper.social m) k) <->
                       In l (Scraper.links (Scraper.social a) k) \/
                       In l (Scraper.links (Scraper.social b) k)) /\
  Scraper.hasSignals m = Scraper.hasSignals a || Scraper.hasSignals b.
Proof.
  intro m. subst m. split; [| split].
  - unfold Scraper.mergeExtracts. cbn [Scraper.phones]. split; [apply new_Set_NoDup |].
    intro p. now rewrite new_Set_In, in_app_iff.
  - rewrite merged_keys. split; [apply new_Set_NoDup |].
    intro k. rewrite merged_links. split; [apply new_Set_NoDup |].
    intro l. now rewrite new_Set_In, in_app_iff.
  - apply eq_true_iff_eq. unfold Scraper.hasSignals.
    rewrite !orb_true_iff, !nonempty_length, !some_links;
      [| exact keys_b | exact keys_a | rewrite merged_keys; apply new_Set_NoDup].
    assert (P : Scraper.phones (Scraper.mergeExtracts a b) <> [] <->
                Scraper.phones a <> [] \/ Scraper.phones b <> []).
    { unfold Scraper.mergeExtracts. cbn [Scraper.phones].
      destruct (Scraper.phones a) as [| x xs]; [| cbn; split; [left | ]; discriminate].
      destruct (Scraper.phones b) as [| y ys]; cbn; split; try tauto;
        try (intros _; right; discriminate); discriminate. }
    assert (S : (exists k, Scraper.links (Scraper.social (Scraper.mergeExtracts a b)) k <> [])
                <-> (exists k, Scraper.links (Scraper.social a) k <> []) \/
                    (exists k, Scraper.links (Scraper.social b) k <> [])).
    { split.
      - intros [k H]. rewrite merged_links in H.
        destruct (Scraper.links (Scraper.social a) k) eqn:A.
        + destruct (Scraper.links (Scraper.social b) k) eqn:B; [now contradiction H |].
          right. exists k. rewrite B. discriminate.
        + left. exists k. rewrite A. discriminate.
      - intros [[k H] | [k H]]; exists k; rewrite merged_links; apply new_Set_nonempty.
        + destruct (Scraper.links (Scraper.social a) k); [now contradiction H | discriminate].
        + destruct (Scraper.links (Scraper.social b) k); [now contradiction H |].
          destruct (Scraper.links (Scraper.social a) k); discriminate. }
    rewrite P, S. tauto.
Qed.

Lemma mergeExtracts_witness :
  Scraper.hasSignals
    (Scraper.mergeExtracts
       (Scraper.mkExtract [] [("facebook", [])] None)
       (Scraper.mkExtract ["+40211234567"] [("facebook", ["https://facebook.com/acme"])]
          (Some "Str. Lunga 1, Brasov")))
  = true.
Proof.
  refine (proj2 (proj2 (mergeExtracts_is_a_union
                          (Scraper.mkExtract [] [("facebook", [])] None)
                          (Scraper.mkExtract ["+40211234567"]
                             [("facebook", ["https://facebook.com/acme"])]
                             (Some "Str. Lunga 1, Brasov")) _ _)));
    repeat constructor; intros [].
Defined.

(** ** The addresses the scraper tries for a site *)

Lemma new_Set_of_NoDup (l : list string) : NoDup l -> new_Set l = l.
Proof.
  induction l as [| x l IH]; [reflexivity |].
  intro N. inversion N as [| ? ? NI N']. subst.
  cbn [new_Set]. rewrite (IH N'). f_equal.
  clear IH N N'. induction l as [| y l IH]; [reflexivity |].
  cbn [filter]. destruct (String.eqb_spec x y) as [-> | _].
  - exfalso. apply NI. now left.
  - cbn [negb]. f_equal. apply IH. intro I. apply NI. now right.
Qed.

Lemma variant_shape (pre bare post : string) :
  String.length (pre ++ bare ++ post)
  = String.length pre + String.length bare + String.length post /\
  (4 < String.length pre -> String.get 4 (pre ++ bare ++ post) = String.get 4 pre).
Proof.
  split.
  - rewrite !length_append. lia.
  - intro L. now rewrite <- append_correct1.
Qed.

(** X21.  [buildUrlVariants] always gives twelve different addresses, in the
    order written, the secure address of the bare host first: removing
    repetitions never removes one. *)
Theorem buildUrlVariants_gives_twelve (host : string) :
  let bare :=
    strip_trailing_slash
      (match strip_http_scheme true host with Some rest => rest | None => host end) in
  List.length (Scraper.buildUrlVariants host) = 12 /\
  NoDup (Scraper.buildUrlVariants host) /\
  hd_error (Scraper.buildUrlVariants host) = Some ("https://" ++ bare ++ "/")%string /\
  Forall (fun v => exists pre post,
            v = (pre ++ bare ++ post)%string /\
            In pre ["https://"; "http://"; "https://www."; "http://www."] /\
            In post ["/"; "/index.html"; "/contact"; "/about"])
    (Scraper.buildUrlVariants host).
Proof.
  intro bare. unfold Scraper.buildUrlVariants. cbv zeta. fold bare.
  set (variants := [_; _; _; _; _; _; _; _; _; _; _; _]).
  assert (N : NoDup variants).
  { apply (NoDup_map_inv (fun v => (String.get 4 v, String.length v))).
    subst variants. cbn [map].
    repeat match goal with
           | |- context [String.get 4 (?p ++ bare ++ ?q)] =>
               rewrite (proj2 (variant_shape p bare q)) by (cbn; lia)
           | |- context [String.length (?p ++ bare ++ ?q)] =>
               rewrite (proj1 (variant_shape p bare q))
           end.
    cbn [String.get String.length Nat.add]. generalize (String.length bare). intro n.
    repeat (constructor;
            [cbn [In]; intro H;
             repeat match type of H with
                    | _ \/ _ => destruct H as [H | H]
                    | False => contradiction H
                    | (_, _) = (_, _) => inversion H; lia
                    end |]).
    constructor. }
  rewrite (new_Set_of_NoDup variants N).
  split; [reflexivity |]. split; [exact N |]. split; [reflexivity |].
  subst variants.
  repeat (constructor;
          [eexists; eexists; split; [reflexivity |]; cbn [In]; tauto |]).
  constructor.
Qed.

(** ** Joining names to scraped sites *)

Section Join.

Variable U : Type.
Variable parse : string -> option U.
Variable set_hash : U -> string -> U.
Variable get_pathname : U -> string.
Variable set_pathname : U -> string -> U.
Variable toString : U -> string.

Let canon : string -> string :=
  Ingest.canonicalizeWebsite U parse set_hash get_pathname set_pathname toString.

Let key (row : Ingest.NamesRow) : string :=
  canon (or_empty (Ingest.or_else (Ingest.or_else (Ingest.website row) (Ingest.domain row))
                     (Ingest.url row))).

Let label (row : Ingest.NamesRow) : string :=
  trim (or_empty (Ingest.or_else (Ingest.name row) (Ingest.company_name row))).

Let step (m : Ingest.NameMap) (row : Ingest.NamesRow) : Ingest.NameMap :=
  if truthy (key row) && truthy (label row) then (key row, label row) :: m else m.

Lemma get_after_rows (rows : list Ingest.NamesRow) (m : Ingest.NameMap) (k : string) :
  (exists before r after,
      rows = before ++ r :: after /\
      truthy (key r) && truthy (label r) = true /\ key r = k /\
      (forall r', In r' after -> truthy (key r') && truthy (label r') = true -> key r' <> k) /\
      Ingest.get (fold_left step rows m) k = Some (label r))
  \/ ((forall r, In r rows -> truthy (key r) && truthy (label r) = true -> key r <> k) /\
      Ingest.get (fold_left step rows m) k = Ingest.get m k).
Proof.
  induction rows as [| r rows IH] using rev_ind.
  - right. split; [intros r [] | reflexivity].
  - rewrite fold_left_app. cbn [fold_left]. unfold step at 1 3.
    destruct (truthy (key r) && truthy (label r)) eqn:V.
    + cbn [Ingest.get]. destruct (String.eqb_spec (key r) k) as [E | NE].
      * left. exists rows, r, []. repeat split; try assumption. intros r' [].
      * destruct IH as [[before [r0 [after [E0 [V0 [K0 [L0 G0]]]]]]] | [No G0]].
        -- left. exists before, r0, (after ++ [r]). subst rows.
           rewrite <- app_assoc. repeat split; try assumption.
           intros r' I. apply in_app_iff in I. destruct I as [I | [<- | []]].
           ++ now apply L0.
           ++ intros _. exact NE.
        -- right. split; [| exact G0].
           intros r' I. apply in_app_iff in I. destruct I as [I | [<- | []]].
           ++ now apply No.
           ++ intros _. exact NE.
    + destruct IH as [[before [r0 [after [E0 [V0 [K0 [L0 G0]]]]]]] | [No G0]].
      * left. exists before, r0, (after ++ [r]). subst rows.
        rewrite <- app_assoc. repeat split; try assumption.
        intros r' I. apply in_app_iff in I. destruct I as [I | [<- | []]].
        -- now apply L0.
        -- congruence.
      * right. split; [| exact G0].
        intros r' I. apply in_app_iff in I. destruct I as [I | [<- | []]].
        -- now apply No.
        -- congruence.
Qed.

Lemma label_truthy (r : Ingest.NamesRow) :
  truthy (key r) && truthy (label r) = true ->
  Ingest.or_else (Some (label r)) None = Some (label r).
Proof.
  intro V. apply andb_true_iff in V. destruct V as [_ V].
  unfold Ingest.or_else, truthy_opt. now rewrite V.
Qed.

Lemma names_fold (nameRows : list Ingest.NamesRow) :
  Ingest.nameByWebsite U parse set_hash get_pathname set_pathname toString nameRows
  = fold_left step nameRows [].
Proof. reflexivity. Qed.

(** X22.  [main] of the merger writes one profile per scraped row, in order,
    with the row's website and phones.  Its name is the trimmed name of the
    last names row that has a website and a name and whose canonical website
    is the row's; a profile has no name exactly when no names row is such. *)
Theorem merge_joins_names_by_canonical_website (nameRows : list Ingest.NamesRow) (scraped : list Ingest.ScrapedRow) :
  Forall2
    (fun row p =>
       website p = Ingest.site row /\
       phones p = Some (or_nil (Ingest.phones row)) /\
       match name p with
       | Some n =>
           exists before r after,
             nameRows = before ++ r :: after /\
             truthy (key r) && truthy (label r) = true /\
             key r = canon (Ingest.site row) /\ n = label r /\
             forall r', In r' after -> truthy (key r') && truthy (label r') = true ->
                        key r' <> canon (Ingest.site row)
       | None =>
           forall r, In r nameRows -> truthy (key r) && truthy (label r) = true ->
                     key r <> canon (Ingest.site row)
       end)
    scraped
    (Ingest.merge U parse set_hash get_pathname set_pathname toString nameRows scraped).
Proof.
  unfold Ingest.merge. cbv zeta.
  induction scraped as [| row scraped IH]; [constructor |].
  cbn [map]. constructor; [| exact IH].
  cbn [website phones name]. split; [reflexivity |]. split; [reflexivity |].
  rewrite names_fold. fold canon.
  destruct (get_after_rows nameRows [] (canon (Ingest.site row)))
    as [[before [r [after [E [V [K [L G]]]]]]] | [No G]].
  - rewrite G, (label_truthy r V).
    exists before, r, after. repeat split; assumption.
  - rewrite G. exact No.
Qed.

End Join.

(** ** The filters *)

Section Filters.

Context {dep : Deployment}.

Lemma apply_filters_spec (body : Body.t) (scored : list Scored) :
  apply_filters body scored
  = filter (fun s =>
              (Qle_bool (min_score body) 0 || Qle_bool (min_score body) (score s))
              && (negb (truthy (contains_filter body))
                  || includes (contains_filter body) (toLowerCase (or_empty (name (profile s))))
                  || includes (contains_filter body) (toLowerCase (website (profile s)))))
      scored.
Proof.
  unfold apply_filters. cbv zeta.
  destruct (Qle_bool (min_score body) 0); destruct (truthy (contains_filter body));
    cbn [negb orb andb].
  - apply filter_ext. intro s. reflexivity.
  - induction scored as [| s l IH]; [reflexivity |]. cbn [filter]. now rewrite <- IH.
  - induction scored as [| s l IH]; [reflexivity |]. cbn [filter].
    destruct (Qle_bool (min_score body) (score s)); cbn [filter andb]; now rewrite IH.
  - apply filter_ext. intro s. now rewrite andb_true_r.
Qed.

Lemma final_list_of_scored (body : Body.t) (scored : list Scored) :
  scored <> [] -> final_list body scored = ranked body scored.
Proof. intro ne. unfold final_list. destruct scored; [congruence | reflexivity]. Qed.

(** X23.  When something was scored, the response lists only scored
    candidates that pass both filters: a score of at least [minScore] when
    that is positive, and the [contains] text, when there is one, inside the
    lower-cased name or website.  [total] counts every scored candidate that
    passes them, whatever the page. *)
Theorem response_respects_the_filters (body : Body.t) (scored : list Scored)
  (some : scored <> []) :
  Forall (fun s =>
            In s scored /\
            ((0 < min_score body)%Q -> (min_score body <= score s)%Q) /\
            (contains_filter body <> "" ->
             includes (contains_filter body) (toLowerCase (or_empty (name (profile s)))) = true \/
             includes (contains_filter body) (toLowerCase (website (profile s))) = true))
    (candidates (finalize body scored)) /\
  total (meta (finalize body scored))
  = List.length
      (filter (fun s =>
                 (Qle_bool (min_score body) 0 || Qle_bool (min_score body) (score s))
                 && (negb (truthy (contains_filter body))
                     || includes (contains_filter body)
                          (toLowerCase (or_empty (name (profile s))))
                     || includes (contains_filter body) (toLowerCase (website (profile s)))))
         scored).
Proof.
  unfold finalize. cbv zeta. cbn [candidates meta total].
  rewrite (final_list_of_scored body scored some). unfold ranked.
  rewrite length_sort_by, apply_filters_spec. split; [| reflexivity].
  unfold page_of. cbv zeta. apply slice_Forall.
  apply Forall_forall. intros s I.
  apply (Permutation_in _ (Permutation_sym (sort_by_perm _ _ _))) in I.
  apply filter_In in I. destruct I as [I P]. split; [exact I |].
  apply andb_true_iff in P. destruct P as [M C]. split.
  - intro pos. apply orb_true_iff in M. destruct M as [M | M]; apply Qle_bool_iff in M.
    + lra.
    + exact M.
  - intro ne. rewrite !orb_true_iff in C. destruct C as [[C | C] | C]; [| now left | now right].
    exfalso. apply negb_true_iff in C. unfold truthy in C.
    apply negb_false_iff, String.eqb_eq in C. contradiction.
Qed.

End Filters.

Lemma response_respects_the_filters_witness :
  total (meta (@finalize (silent [acme; contoso] 5000)
                 (Body.mk (Some "acme") None None None None None None None
                    (Some (Fin 5)) (Some " ACME "))
                 [mkScored 0 acme 9; mkScored 1 contoso 3; mkScored 2 acme_paris 4]))
  = 1.
Proof.
  refine (proj2 (@response_respects_the_filters (silent [acme; contoso] 5000) _ _ _)).
  discriminate.
Defined.
